(** * shake-proof: the domain benchmark engine

    A shallow embedding of the integrity verifier
    ([src/utils/generateReport.js], imported by the crawlers as
    [utils/merkle.js]), of the LangShake module validator
    ([src/crawlers/langshake.js]) and of the domain benchmark coordinator
    ([src/benchmark/compare.js]), with the properties the specification
    states about them. *)

From Stdlib Require Import ZArith List Ascii String Lia Permutation.
From stdpp Require Import base option list strings sorting pretty.

Local Open Scope string_scope.
Local Open Scope list_scope.

(** ** SHA-256 (FIPS 180-4)

    [createHash('sha256').update(s).digest('hex')] of Node's [crypto]
    module.  Words are 32-bit integers held in [Z], every addition is
    reduced modulo [2^32]. *)

Module SHA256.
Local Open Scope Z_scope.

Definition wrap (x : Z) : Z := x mod 2 ^ 32.
Definition add32 (x y : Z) : Z := wrap (x + y).
Definition not32 (x : Z) : Z := Z.lxor x (2 ^ 32 - 1).
Definition rotr (n x : Z) : Z :=
  Z.lor (Z.shiftr x n) (wrap (Z.shiftl x (32 - n))).

Definition Ch (x y z : Z) : Z := Z.lxor (Z.land x y) (Z.land (not32 x) z).
Definition Maj (x y z : Z) : Z :=
  Z.lxor (Z.lxor (Z.land x y) (Z.land x z)) (Z.land y z).
Definition Sigma0 (x : Z) : Z := Z.lxor (Z.lxor (rotr 2 x) (rotr 13 x)) (rotr 22 x).
Definition Sigma1 (x : Z) : Z := Z.lxor (Z.lxor (rotr 6 x) (rotr 11 x)) (rotr 25 x).
Definition sigma0 (x : Z) : Z := Z.lxor (Z.lxor (rotr 7 x) (rotr 18 x)) (Z.shiftr x 3).
Definition sigma1 (x : Z) : Z := Z.lxor (Z.lxor (rotr 17 x) (rotr 19 x)) (Z.shiftr x 10).

(** The round constants are the first 32 bits of the fractional parts of the
    cube roots of the first 64 primes, the initial hash value those of the
    square roots of the first 8 primes. *)

Definition is_prime (p : Z) : bool :=
  forallb (fun d => negb (p mod d =? 0)) (map Z.of_nat (seq 2 (Z.to_nat p - 2))).

Definition primes_below (n : nat) : list Z :=
  filter (fun p => is_prime p = true) (map Z.of_nat (seq 2 (n - 2))).

Fixpoint icbrt_bits (bits : nat) (x r : Z) : Z :=
  match bits with
  | O => r
  | S b =>
      let r' := r + 2 ^ Z.of_nat b in
      icbrt_bits b x (if r' * r' * r' <=? x then r' else r)
  end.

(** Integer cube root of [x < 2^120]. *)
Definition icbrt (x : Z) : Z := icbrt_bits 40 x 0.

Definition primes64 : list Z := Eval vm_compute in primes_below 312.

Definition K : list Z :=
  Eval vm_compute in map (fun p => wrap (icbrt (p * 2 ^ 96))) primes64.

Definition H0 : list Z :=
  Eval vm_compute in map (fun p => wrap (Z.sqrt (p * 2 ^ 64))) (take 8 primes64).

(** Message schedule: the 16 words of the block, then 48 derived words.
    [rev_w] holds the words computed so far, latest first. *)
Fixpoint extend_schedule (n : nat) (rev_w : list Z) : list Z :=
  match n with
  | O => rev_w
  | S n' =>
      let at_back i := nth i rev_w 0 in
      let wt := add32 (add32 (sigma1 (at_back 1%nat)) (at_back 6%nat))
                      (add32 (sigma0 (at_back 14%nat)) (at_back 15%nat)) in
      extend_schedule n' (wt :: rev_w)
  end.

Definition schedule (block : list Z) : list Z :=
  rev (extend_schedule 48 (rev block)).

Record state := State { sa : Z; sb : Z; sc : Z; sd : Z; se : Z; sf : Z; sg : Z; sh : Z }.

Definition round (s : state) (kw : Z * Z) : state :=
  let t1 := add32 (add32 (add32 (sh s) (Sigma1 (se s))) (Ch (se s) (sf s) (sg s)))
                  (add32 (fst kw) (snd kw)) in
  let t2 := add32 (Sigma0 (sa s)) (Maj (sa s) (sb s) (sc s)) in
  State (add32 t1 t2) (sa s) (sb s) (sc s) (add32 (sd s) t1) (se s) (sf s) (sg s).

Definition compress (s : state) (block : list Z) : state :=
  let r := fold_left round (combine K (schedule block)) s in
  State (add32 (sa s) (sa r)) (add32 (sb s) (sb r)) (add32 (sc s) (sc r))
        (add32 (sd s) (sd r)) (add32 (se s) (se r)) (add32 (sf s) (sf r))
        (add32 (sg s) (sg r)) (add32 (sh s) (sh r)).

Definition init : state :=
  let h i := nth i H0 0 in
  State (h 0%nat) (h 1%nat) (h 2%nat) (h 3%nat) (h 4%nat) (h 5%nat) (h 6%nat) (h 7%nat).

(** Padding: a [0x80] byte, zero bytes up to 56 modulo 64, and the bit length
    of the message as a 64-bit big-endian integer. *)
Definition be_bytes (n : nat) (x : Z) : list Z :=
  map (fun i => Z.shiftr x (8 * Z.of_nat i) mod 256) (rev (seq 0 n)).

Definition pad (msg : list Z) : list Z :=
  let len := Z.of_nat (length msg) in
  msg ++ 128 :: repeat 0 (Z.to_nat ((55 - len) mod 64)) ++ be_bytes 8 (8 * len).

Definition be_word (bs : list Z) : Z :=
  fold_left (fun acc b => acc * 256 + b) bs 0.

Fixpoint chunks {A} (fuel size : nat) (l : list A) : list (list A) :=
  match fuel with
  | O => []
  | S fuel' =>
      match l with
      | [] => []
      | _ => take size l :: chunks fuel' size (drop size l)
      end
  end.

Definition blocks (bytes : list Z) : list (list Z) :=
  map (fun blk => map be_word (chunks 16 4 blk)) (chunks (length bytes) 64 bytes).

Definition digest (msg : list Z) : state :=
  fold_left compress (blocks (pad msg)) init.

Definition hex_digit (d : Z) : ascii :=
  if d <? 10 then ascii_of_N (Z.to_N (48 + d)) else ascii_of_N (Z.to_N (87 + d)).

Definition hex_word (x : Z) (rest : string) : string :=
  String (hex_digit (Z.shiftr x 28 mod 16))
  (String (hex_digit (Z.shiftr x 24 mod 16))
  (String (hex_digit (Z.shiftr x 20 mod 16))
  (String (hex_digit (Z.shiftr x 16 mod 16))
  (String (hex_digit (Z.shiftr x 12 mod 16))
  (String (hex_digit (Z.shiftr x 8 mod 16))
  (String (hex_digit (Z.shiftr x 4 mod 16))
  (String (hex_digit (x mod 16)) rest))))))).

Definition hex_state (s : state) : string :=
  hex_word (sa s) (hex_word (sb s) (hex_word (sc s) (hex_word (sd s)
  (hex_word (se s) (hex_word (sf s) (hex_word (sg s) (hex_word (sh s) ""))))))).

(** The UTF-8 encoding of a code unit below 256: one byte below 128, two
    bytes from 128 on. *)
Definition utf8 (c : Z) : list Z :=
  if c <? 128 then [c] else [192 + c / 64; 128 + c mod 64].

(** [hash.update(s)] hashes the UTF-8 encoding of the string. *)
Definition bytes_of_string (s : string) : list Z :=
  flat_map (fun c => utf8 (Z.of_N (N_of_ascii c))) (list_ascii_of_string s).

End SHA256.

(** [createHash('sha256').update(s).digest('hex')] *)
Definition sha256_hex (s : string) : string :=
  SHA256.hex_state (SHA256.digest (SHA256.bytes_of_string s)).


(** ** JSON values

    What [JSON.parse] (axios' response transform) produces.  An object is the
    list of its own enumerable properties in enumeration order; its keys are
    pairwise distinct ([wf_json]).  Strings are sequences of code units below
    256.  Numbers are the integer-valued doubles below [10^21] in magnitude,
    which [JSON.stringify] prints in plain decimal notation; fractions, and
    the larger numbers that it prints with an exponent, are outside the
    model. *)

#[local] Unset Elimination Schemes.
Inductive json : Type :=
| JNull
| JBool (b : bool)
| JNum (n : Z)
| JStr (s : string)
| JArr (items : list json)
| JObj (fields : list (string * json)).
#[local] Set Elimination Schemes.

(** A JavaScript value read from such a document: [None] is [undefined]. *)
Abbreviation jsval := (option json).

Fixpoint wf_json (v : json) : Prop :=
  match v with
  | JArr items => foldr (fun x acc => wf_json x /\ acc) True items
  | JObj fields =>
      NoDup (map fst fields) /\ foldr (fun kv acc => wf_json (snd kv) /\ acc) True fields
  | _ => True
  end.

(** *** Exceptions *)

Inductive exn : Type :=
| TypeError (message : string)
| Error (message : string)
| NetworkError (message : string).

Inductive result (A : Type) : Type :=
| Ok (a : A)
| Throw (e : exn).
Arguments Ok {A} a.
Arguments Throw {A} e.

#[export] Instance result_ret : MRet result := fun _ a => Ok a.
#[export] Instance result_bind : MBind result := fun _ _ k r =>
  match r with
  | Ok a => k a
  | Throw e => Throw e
  end.
#[export] Instance result_fmap : FMap result := fun _ _ f r =>
  match r with
  | Ok a => Ok (f a)
  | Throw e => Throw e
  end.

(** [err.name] and [err.message]; a request that fails is rejected by axios
    with an [AxiosError]. *)
Definition exn_name (e : exn) : string :=
  match e with
  | TypeError _ => "TypeError"
  | Error _ => "Error"
  | NetworkError _ => "AxiosError"
  end.

Definition exn_message (e : exn) : string :=
  match e with
  | TypeError m | Error m | NetworkError m => m
  end.

(** [err.toString()], the [Error.prototype.toString] all three inherit: the
    name alone when the message is empty. *)
Definition exn_toString (e : exn) : string :=
  if String.eqb (exn_message e) "" then exn_name e
  else exn_name e +:+ ": " +:+ exn_message e.

(** *** JSON.stringify on primitives *)

Definition dquote : ascii := ascii_of_nat 34.
Definition backslash : ascii := ascii_of_nat 92.

Definition hex_nibble (n : nat) : ascii :=
  if (n <? 10)%nat then ascii_of_nat (48 + n) else ascii_of_nat (87 + n).

(** One code unit of QuoteJSONString. *)
Definition escape_char (c : ascii) : string :=
  let n := nat_of_ascii c in
  if (n =? 34)%nat then String backslash (String dquote "")
  else if (n =? 92)%nat then String backslash (String backslash "")
  else if (n =? 8)%nat then "\b"
  else if (n =? 12)%nat then "\f"
  else if (n =? 10)%nat then "\n"
  else if (n =? 13)%nat then "\r"
  else if (n =? 9)%nat then "\t"
  else if (n <? 32)%nat then "\u00" +:+ String (hex_nibble (n / 16)) (String (hex_nibble (n mod 16)) "")
  else String c "".

Fixpoint escape (s : string) : string :=
  match s with
  | EmptyString => ""
  | String c rest => escape_char c +:+ escape rest
  end.

(** [JSON.stringify(s)] for a string [s]. *)
Definition quote (s : string) : string :=
  String dquote (escape s +:+ String dquote "").

(** [JSON.stringify(v)] for [null], a boolean, a number or a string. *)
Definition JSON_stringify_primitive (v : json) : string :=
  match v with
  | JNull => "null"
  | JBool true => "true"
  | JBool false => "false"
  | JNum n => pretty n
  | JStr s => quote s
  | JArr _ | JObj _ => ""
  end.

(** *** Objects as property lists *)

Fixpoint assoc_get {A} (key : string) (fields : list (string * A)) : option A :=
  match fields with
  | [] => None
  | (k, v) :: rest => if String.eqb k key then Some v else assoc_get key rest
  end.

(** [Object.keys(obj).sort()]: the default comparison orders strings by
    their code units. *)
Definition sort_keys (keys : list string) : list string :=
  merge_sort String.le keys.

(** ** The integrity verifier ([utils/merkle.js]) *)

(** [stableStringify(obj)].  The source evaluates [stableStringify(obj[key])]
    for each sorted key; here the values are rendered first and the rendered
    text of [obj[key]] is looked up. *)
Fixpoint stableStringify (obj : json) : string :=
  match obj with
  | JArr items =>
      "[" +:+ String.concat "," (map stableStringify items) +:+ "]"
  | JObj fields =>
      let rendered := map (fun kv => (fst kv, stableStringify (snd kv))) fields in
      "{" +:+ String.concat ","
                (map (fun key => quote key +:+ ":" +:+ default "" (assoc_get key rendered))
                     (sort_keys (map fst fields)))
          +:+ "}"
  | _ => JSON_stringify_primitive obj
  end.

(** [Object.entries(v)]: an array has its indices as keys, a string its
    positions, a number or boolean nothing; [null] has no properties to read. *)
Definition indexed {A} (l : list A) : list (string * A) :=
  imap (fun i x => (pretty i, x)) l.

Definition Object_entries (v : json) : result (list (string * json)) :=
  match v with
  | JNull => Throw (TypeError "Cannot convert undefined or null to object")
  | JBool _ | JNum _ => Ok []
  | JStr s => Ok (indexed (map (fun c => JStr (String c "")) (list_ascii_of_string s)))
  | JArr items => Ok (indexed items)
  | JObj fields => Ok fields
  end.

(** The text that [calculateModuleChecksum] hashes. *)
Definition checksum_preimage (modJson : json) : result string :=
  entries ← Object_entries modJson;
  let filtered := filter (fun kv => negb (String.eqb (fst kv) "checksum") = true) entries in
  Ok (stableStringify (JObj filtered)).

Definition calculateModuleChecksum (modJson : json) : result string :=
  jsonStr ← checksum_preimage modJson;
  Ok (sha256_hex jsonStr).

(** The coordinator and the validator only pass arrays. *)
Definition array_preimage (records : list json) : string :=
  stableStringify (JObj (indexed records)).

Definition array_checksum (records : list json) : string :=
  sha256_hex (array_preimage records).

(** One pass of the inner [for] loop of [calculateMerkleRoot]. *)
Fixpoint next_level (level : list string) : list string :=
  match level with
  | [] => []
  | [a] => [sha256_hex (a +:+ a)]
  | a :: b :: rest => sha256_hex (a +:+ b) :: next_level rest
  end.

(** The [while (level.length > 1)] loop; [fuel] bounds the number of passes. *)
Fixpoint merkle_loop (fuel : nat) (level : list string) : list string :=
  match fuel with
  | O => level
  | S fuel' =>
      if (1 <? length level)%nat then merkle_loop fuel' (next_level level) else level
  end.

Definition calculateMerkleRoot (leaves : list string) : string :=
  if (length leaves =? 0)%nat then ""
  else default "" (head (merkle_loop (length leaves) leaves)).

(** ** JavaScript operators on parsed JSON *)

Definition truthy (v : jsval) : bool :=
  match v with
  | None | Some JNull => false
  | Some (JBool b) => b
  | Some (JNum n) => negb (n =? 0)%Z
  | Some (JStr s) => negb (String.eqb s "")
  | Some (JArr _) | Some (JObj _) => true
  end.

(** [a || b] *)
Definition js_or (a b : jsval) : jsval := if truthy a then a else b.

(** [a || null] *)
Definition or_null (a : jsval) : json :=
  match a with
  | Some v => if truthy a then v else JNull
  | None => JNull
  end.

Definition typeof (v : json) : string :=
  match v with
  | JBool _ => "boolean"
  | JNum _ => "number"
  | JStr _ => "string"
  | JNull | JArr _ | JObj _ => "object"
  end.

Definition isArray (v : jsval) : bool :=
  match v with
  | Some (JArr _) => true
  | _ => false
  end.

Definition null_read (key : string) : exn :=
  TypeError ("Cannot read properties of null (reading '" +:+ key +:+ "')").

(** [obj.key] for the property names the program reads ([url], [og:url],
    [checksum], [modules], [verification], [merkleRoot]): none of them is
    defined on an array, a string, a number or a boolean. *)
Definition get (obj : json) (key : string) : result jsval :=
  match obj with
  | JNull => Throw (null_read key)
  | JObj fields => Ok (assoc_get key fields)
  | _ => Ok None
  end.

(** [obj?.key] *)
Definition get_opt (obj : jsval) (key : string) : jsval :=
  match obj with
  | Some (JObj fields) => assoc_get key fields
  | _ => None
  end.

(** [Object.keys(v)] for a truthy [v]. *)
Definition Object_keys (v : json) : list string :=
  match Object_entries v with
  | Ok entries => map fst entries
  | Throw _ => []
  end.

(** [key in v] for an array or object [v] and the names above. *)
Definition has_property (key : string) (v : json) : bool :=
  match v with
  | JObj fields => bool_decide (is_Some (assoc_get key fields))
  | _ => false
  end.

(** [x === y].  Two arrays or objects are equal only when they are the same
    object; [same_object] says whether both operands come from one and the
    same read. *)
Definition strict_equal (same_object : bool) (x y : jsval) : bool :=
  match x, y with
  | None, None => true
  | Some JNull, Some JNull => true
  | Some (JBool a), Some (JBool b) => Bool.eqb a b
  | Some (JNum a), Some (JNum b) => (a =? b)%Z
  | Some (JStr a), Some (JStr b) => String.eqb a b
  | Some (JArr _), Some (JArr _) | Some (JObj _), Some (JObj _) => same_object
  | _, _ => false
  end.

(** [text === v] for a string [text]. *)
Definition string_equal (text : string) (v : json) : bool :=
  strict_equal false (Some (JStr text)) (Some v).

(** [arr.filter(pred)] with a callback that can throw. *)
Fixpoint filter_result {A} (pred : A -> result bool) (l : list A) : result (list A) :=
  match l with
  | [] => Ok []
  | x :: rest =>
      keep ← pred x;
      kept ← filter_result pred rest;
      Ok (if (keep : bool) then x :: kept else kept)
  end.

(** A JavaScript array that may have holes: [a[i] = x] past the end fills
    the gap with holes. *)
Abbreviation sparse A := (list (option A)).

Definition array_set {A} (a : sparse A) (i : nat) (x : A) : sparse A :=
  if decide (i < length a) then <[i := Some x]> a
  else a ++ replicate (i - length a) None ++ [Some x].

(** [a.map(f)]: holes stay holes. *)
Definition sparse_map {A B} (f : nat -> A -> B) (a : sparse A) : sparse B :=
  imap (fun i => fmap (f i)) a.

(** ** The network *)

Record request := Request {
  req_url : string;
  req_headers : list (string * string);
  req_timeout : option N
}.

Inductive response : Type :=
| Response (status : nat) (data : json)
| Failure (message : string).

(** What the program asks of the outside world, in the order it asks. *)
Inductive event : Type :=
| Get (r : request)
| Delay (ms : N)
| Crawl (url : json).

(** [{ ...obj, key: value }] on a property list. *)
Fixpoint set_property {A} (key : string) (value : A) (obj : list (string * A))
  : list (string * A) :=
  match obj with
  | [] => [(key, value)]
  | (k, v) :: rest =>
      if String.eqb k key then (k, value) :: rest
      else (k, v) :: set_property key value rest
  end.

(** ** The LangShake crawler ([crawlers/langshake.js]) *)

Record options := Options {
  opt_headers : list (string * string);
  opt_timeout : option N
}.

Definition no_options : options := Options [] None.

(** The configuration [axiosGetWithRetry] hands to [axios.get]. *)
Definition retry_request (url : string) (opts : options) : request :=
  let mergedHeaders :=
    set_property "Pragma" "no-cache"
      (set_property "Cache-Control" "no-cache" (opt_headers opts)) in
  Request url mergedHeaders (Some 10000%N).

(** [res.status] and [res.data] of a fulfilled [axios.get]. *)
Abbreviation reply := (nat * json)%type.

(** The [for] loop of [axiosGetWithRetry], entered with [attempt <= retries]
    and [remaining = retries - attempt].  [net attempt] is the answer of the
    network to that attempt.  The result is the list of events of the loop
    and what the call returns or throws. *)
Fixpoint retry_loop (net : nat -> response) (req : request) (delayMs : N)
    (attempt remaining : nat) : list event * result reply :=
  match net attempt with
  | Response status data => ([Get req], Ok (status, data))
  | Failure m =>
      match remaining with
      | O => ([Get req], Throw (NetworkError m))
      | S remaining' =>
          let '(log, r) := retry_loop net req delayMs (S attempt) remaining' in
          (Get req :: Delay delayMs :: log, r)
      end
  end.

(** [axiosGetWithRetry(url, options, retries, delayMs)]; with [retries = 0]
    the loop body never runs and the call returns [undefined]. *)
Definition axiosGetWithRetry (net : nat -> response) (url : string)
    (opts : options) (retries : nat) (delayMs : N) : list event * result (option reply) :=
  match retries with
  | O => ([], Ok None)
  | S n =>
      let '(log, r) := retry_loop net (retry_request url opts) delayMs 1 n in
      (log, Some <$> r)
  end.

Record trust_entry := Trust {
  trust_path : string;
  trust_checksum : json;
  calculatedChecksum : string;
  checksumValid : bool
}.

(** What [validateModule] resolves to; an absent [error] is [None]. *)
Record validation := Validation {
  v_modJson : option json;
  v_trust : option trust_entry;
  v_checksum : option json;
  v_error : option string
}.

Definition invalid (message : string) : validation :=
  Validation None None None (Some message).

(** Lines 35-52 of [validateModule]: the checks on the fetched payload. *)
Definition validate_payload (modPath : string) (modJson : json) : validation :=
  match modJson with
  | JArr items =>
      if (length items <? 2)%nat then
        invalid ("Module " +:+ modPath +:+ " is not a valid array with checksum.")
      else
        let dataArr := removelast items in
        match last items with
        | Some (JObj fields as checksumObj) =>
            if truthy (assoc_get "checksum" fields) then
              let calculated := array_checksum dataArr in
              let checksum := default JNull (assoc_get "checksum" fields) in
              let valid := string_equal calculated checksum in
              Validation (Some modJson)
                (Some (Trust modPath checksum calculated valid))
                (Some checksum)
                (if valid then None else Some ("Checksum mismatch for " +:+ modPath +:+ ". "))
            else invalid ("Module " +:+ modPath +:+ " missing checksum object.")
        | _ => invalid ("Module " +:+ modPath +:+ " missing checksum object.")
        end
  | _ => invalid ("Module " +:+ modPath +:+ " is not a valid array with checksum.")
  end.

(** [validateModule(modPath, baseUrl)].  [resolve modPath] is
    [new URL(modPath, baseUrl).toString()], [None] when the constructor
    throws; [net url attempt] is the network. *)
Definition validateModule (resolve : string -> option string)
    (net : string -> nat -> response) (modPath : string) : list event * validation :=
  let caught (e : exn) :=
    invalid ("Error fetching module " +:+ modPath +:+ ": " +:+ exn_message e +:+ ". ") in
  match resolve modPath with
  | None => ([], caught (TypeError "Invalid URL"))
  | Some modUrl =>
      let '(log, r) := axiosGetWithRetry (net modUrl) modUrl no_options 3 500 in
      match r with
      | Ok (Some (_, modJson)) => (log, validate_payload modPath modJson)
      | Ok None =>
          (log, caught (TypeError "Cannot read properties of undefined (reading 'data')"))
      | Throw e => (log, caught e)
      end
  end.

(** ** The metrics collector ([utils/metrics.js])

    The request list and the error list; timing, CPU, memory and the
    concurrency gauge are not modelled. *)

Record MetricsCollector := Metrics {
  requests : list (json * nat);
  errors : list (json * string)
}.

Definition new_MetricsCollector : MetricsCollector := Metrics [] [].

Definition recordRequest (url : json) (statusCode : nat) (m : MetricsCollector) :=
  Metrics (requests m ++ [(url, statusCode)]) (errors m).

(** [recordError({ url, error })]; [error] is already [_stringifyError(error)]. *)
Definition recordError (url : json) (error : string) (m : MetricsCollector) :=
  Metrics (requests m) (errors m ++ [(url, error)]).

(** ** The domain benchmark coordinator ([benchmark/compare.js]) *)

(** [obj.url || obj['og:url']], the [getUrl] of [allUrlsMatch] and the
    callback of the two [filter] calls. *)
Definition getUrl (obj : json) : result jsval :=
  u ← get obj "url";
  if truthy u then Ok u else get obj "og:url".

Definition has_url (obj : json) : result bool :=
  u ← getUrl obj; Ok (truthy u).

(** [schemas.every(obj => getUrl(obj) === url)] from position [i] on, where
    [url] was read from the element at position 0. *)
Fixpoint every_url (url : jsval) (i : nat) (schemas : list json) : result bool :=
  match schemas with
  | [] => Ok true
  | obj :: rest =>
      u ← getUrl obj;
      if strict_equal (bool_decide (i = 0)) u url then every_url url (S i) rest
      else Ok false
  end.

Definition allUrlsMatch (schemas : list json) : result bool :=
  match schemas with
  | [] => Ok true
  | first :: _ => url ← getUrl first; every_url url 0 schemas
  end.

(** The test of lines 244-251 on the payload. *)
Definition checksum_form (modJson : json) : bool :=
  match modJson with
  | JArr items =>
      (1 <? length items)%nat &&
      match last items with
      | Some (JArr _ as l) | Some (JObj _ as l) =>
          (length (Object_keys l) =? 1)%nat && has_property "checksum" l
      | _ => false
      end
  | _ => false
  end.

Record module_reading := Reading {
  schemasArr : list json;
  checksumOriginal : json;
  canonicalUrl : json
}.

(** Lines 244-264: the three ways a payload is read. *)
Definition read_module (modJson : json) : result module_reading :=
  match modJson with
  | JArr items =>
      if checksum_form modJson then
        original ← get (default JNull (last items)) "checksum";
        schemas ← filter_result has_url (removelast items);
        first ← getUrl (default JNull (head items));
        Ok (Reading schemas (default JNull original) (or_null first))
      else
        schemas ← filter_result has_url items;
        let first := js_or (get_opt (head items) "url") (get_opt (head items) "og:url") in
        Ok (Reading schemas JNull (or_null first))
  | JObj fields =>
      u ← getUrl modJson;
      let original :=
        if truthy (assoc_get "checksum" fields)
        then default JNull (assoc_get "checksum" fields) else JNull in
      if truthy u then Ok (Reading [modJson] original (or_null u))
      else Ok (Reading [] original JNull)
  | _ => Ok (Reading [] JNull JNull)
  end.

Inductive slot_status := success | error.

#[export] Instance slot_status_eq_dec : EqDecision slot_status.
Proof. solve_decision. Defined.

(** An entry of [langshakeResults] or [traditionalResults]; a field the
    object does not have is [None]. *)
Record slot := Slot {
  status : slot_status;
  url : json;
  data : jsval;
  langshake : option (list json);
  langshakeChecksumOriginal : jsval;
  traditional : option (list json)
}.

Definition error_slot (u : json) : slot := Slot error u None None None None.

Definition differing_urls (modUrl : string) : exn :=
  Error ("[LangShake] Schema array for module " +:+ modUrl +:+
         " contains objects with differing 'url' fields. All schemas in a module must have the same url.").

Definition malformed_message (modUrl : string) (modJson : json) : string :=
  "[LangShake] Malformed schema object for module " +:+ modUrl +:+
  ": expected array or object, got " +:+ typeof modJson.

(** Lines 244-275: the [try] block after the malformed test. *)
Definition process_module (modUrl : string) (modJson : json) : result slot :=
  reading ← read_module modJson;
  same ← allUrlsMatch (schemasArr reading);
  if (same : bool) then
    Ok (Slot success (canonicalUrl reading) None (Some (schemasArr reading))
             (Some (checksumOriginal reading)) None)
  else Throw (differing_urls modUrl).

(** The state the tasks of one phase share. *)
Record phase := Phase {
  results : sparse slot;
  metrics : MetricsCollector
}.

Definition settle (i : nat) (r : slot) (m : MetricsCollector) (st : phase) : phase :=
  Phase (array_set (results st) i r) m.

(** Lines 217-284: what the task of module [idx] does once its request has
    settled with [answer]. *)
Definition module_task (modUrl : string) (answer : response) (idx : nat) (st : phase)
  : phase :=
  let caught (e : exn) (m : MetricsCollector) :=
    settle (idx + 1) (error_slot (JStr modUrl))
           (recordError (JStr modUrl) (exn_toString e) m) st in
  match answer with
  | Failure message => caught (NetworkError message) (metrics st)
  | Response statusCode modJson =>
      let m := recordRequest (JStr modUrl) statusCode (metrics st) in
      match modJson with
      | JNull | JBool _ | JNum _ | JStr _ =>
          settle (idx + 1) (error_slot (JStr modUrl))
                 (recordError (JStr modUrl) (malformed_message modUrl modJson) m) st
      | _ =>
          match process_module modUrl modJson with
          | Ok r => settle (idx + 1) r m st
          | Throw e => caught e m
          end
      end
  end.

(** What stands outside the program: URL resolution, the answers of the
    network to each request the coordinator makes, and the extraction
    collaborator [runTraditionalCrawler]. *)
Inductive crawl_reply : Type :=
| Crawled (result : jsval) (bytesDownloaded : nat)
| CrawlFailed (e : exn).

Record World := {
  resolve : json -> option string;
  manifest_first : response;
  manifest_second : response;
  module_answer : nat -> response;
  crawl_answer : nat -> crawl_reply
}.

(** The order in which the tasks of a phase settle, for each number of
    tasks.  [pLimit(concurrency)] starts the tasks in index order and bounds
    how many are in flight, which only rules out some of the orders; the
    statements below hold for every order. *)
Record Schedule := {
  langshake_order : nat -> list nat;
  traditional_order : nat -> list nat
}.

Definition fair (order : nat -> list nat) : Prop :=
  forall n, order n ≡ₚ seq 0 n.

Definition no_cache : list (string * string) :=
  [("Cache-Control", "no-cache"); ("Pragma", "no-cache")].

(** The configuration of every [axios.get] of the coordinator. *)
Definition plain_request (u : string) : request := Request u no_cache None.

Definition llm_path : string := "/.well-known/llm.json".

(** [for (const modPath of modules) try { moduleUrls.push(new URL(...)) } catch {}] *)
Definition resolve_all (W : World) (modules : list json) : list string :=
  omap (resolve W) modules.

(** Lines 217-284 for every module, the tasks settling in the order [order]. *)
Definition langshake_tasks (W : World) (order : list nat) (moduleUrls : list string)
    (st : phase) : phase :=
  foldl (fun st idx =>
           match moduleUrls !! idx with
           | Some modUrl => module_task modUrl (module_answer W idx) idx st
           | None => st
           end) st order.

Record entry := Entry {
  entry_url : json;
  entry_module : option (list json)
}.

(** Line 294 *)
Definition mainEntityUrls_of (langshakeResults : sparse slot) : sparse entry :=
  sparse_map (fun _ r => Entry (url r) (langshake r)) (drop 1 langshakeResults).

(** Lines 339-372: the task of page [idx] once the crawler has settled. *)
Definition page_task (e : entry) (answer : crawl_reply) (idx : nat) (st : phase) : phase :=
  let caught (x : exn) (m : MetricsCollector) :=
    settle idx (error_slot (entry_url e))
           (recordError (entry_url e) (exn_toString x) m) st in
  match answer with
  | CrawlFailed x => caught x (metrics st)
  | Crawled traditionalArr _ =>
      let m := recordRequest (entry_url e) 200 (metrics st) in
      let arr := match traditionalArr with Some (JArr items) => items | _ => [] end in
      let done (schemas : list json) :=
        settle idx (Slot success (entry_url e) None None None (Some schemas)) m st in
      match last arr with
      | None => done arr
      | Some l =>
          match get l "checksum" with
          | Throw x => caught x m
          | Ok c => if truthy c then done (removelast arr) else done arr
          end
      end
  end.

Definition traditional_tasks (W : World) (order : list nat) (mainEntityUrls : sparse entry)
    (st : phase) : phase :=
  foldl (fun st idx =>
           match mainEntityUrls !! idx with
           | Some (Some e) => page_task e (crawl_answer W idx) idx st
           | _ => st
           end) st order.

Record shallow_diff := Diff {
  missingInTraditional : list string;
  missingInLangshake : list string
}.

Record comparison := Comparison {
  schemasMatch : bool;
  langshakeChecksum : string;
  cmp_langshakeChecksumOriginal : json;
  langshakeChecksumValid : option bool;
  traditionalChecksum : string;
  traditionalChecksumMatchesLangshake : bool;
  diff : option shallow_diff
}.

Record page := Page {
  page_url : json;
  page_langshake : list json;
  page_traditional : list json;
  page_comparison : comparison
}.

(** [arr[0] ? Object.keys(arr[0]) : []] *)
Definition first_keys (arr : list json) : list string :=
  match head arr with
  | Some v => if truthy (Some v) then Object_keys v else []
  | None => []
  end.

(** [results[i]?.field] *)
Definition slot_field {A} (field : slot -> option A) (a : sparse slot) (i : nat) : option A :=
  match a !! i with
  | Some (Some r) => field r
  | _ => None
  end.

(** Lines 382-417: the callback of [mainEntityUrls.map]. *)
Definition compare_page (langshakeResults traditionalResults : sparse slot)
    (idx : nat) (e : entry) : page :=
  let ls := default [] (slot_field langshake langshakeResults (idx + 1)) in
  let tr := default [] (slot_field traditional traditionalResults idx) in
  let lsSum := array_checksum ls in
  let trSum := array_checksum tr in
  let same := String.eqb (stableStringify (JArr ls)) (stableStringify (JArr tr)) in
  let original := or_null (slot_field langshakeChecksumOriginal langshakeResults (idx + 1)) in
  let valid := if truthy (Some original) then Some (string_equal lsSum original) else None in
  let tKeys := first_keys tr in
  let lKeys := first_keys ls in
  let d := if same then None
           else Some (Diff (filter (fun k => k ∉ tKeys) lKeys)
                           (filter (fun k => k ∉ lKeys) tKeys)) in
  Page (entry_url e) ls tr
       (Comparison same lsSum original valid trSum (String.eqb trSum lsSum) d).

Record summary := Summary {
  totalPages : nat;
  allMatch : bool;
  details : string;
  merkleRootLangshake : string;
  merkleRootTraditional : string;
  merkleRootLlmJson : json;
  merkleRootLangshakeValid : bool;
  merkleRootTraditionalValid : bool;
  merkleRootsMatch : bool
}.

(** [checksums.filter(Boolean)]: holes and empty strings are dropped. *)
Definition filter_Boolean (a : sparse string) : list string :=
  omap (fun x => match x with
                 | Some c => if String.eqb c "" then None else Some c
                 | None => None
                 end) a.

(** Lines 418-437 *)
Definition summarize (llmMerkleRoot : json) (pages : sparse page) : summary :=
  let langshakeChecksums := sparse_map (fun _ p => langshakeChecksum (page_comparison p)) pages in
  let traditionalChecksums := sparse_map (fun _ p => traditionalChecksum (page_comparison p)) pages in
  let rootL := calculateMerkleRoot (filter_Boolean langshakeChecksums) in
  let rootT := calculateMerkleRoot (filter_Boolean traditionalChecksums) in
  let all := forallb (fun p => match p with
                               | Some p => schemasMatch (page_comparison p)
                               | None => true
                               end) pages in
  Summary (length pages) all
          (if all then "All schemas match." else "Some schemas do not match.")
          rootL rootT llmMerkleRoot
          (string_equal rootL llmMerkleRoot)
          (string_equal rootT llmMerkleRoot)
          (String.eqb rootL rootT && string_equal rootL llmMerkleRoot).

(** What the promise of [runDomainBenchmark] settles to: a rejection, the
    object [{ error }] or [{ error, metrics }], or the full result. *)
Inductive outcome : Type :=
| Rejected (e : exn)
| ErrorResult (message : string) (langshakeMetrics : option MetricsCollector)
| BenchmarkResult (pages : sparse page) (s : summary)
                  (langshakeMetrics traditionalMetrics : MetricsCollector).

Definition not_found_error : string :=
  "This website is not LangShake ready: .well-known/llm.json not found.".
Definition no_modules_error : string :=
  "This website is not LangShake ready: no modules found in .well-known/llm.json.".
Definition empty_modules_error : string :=
  "The modules array in .well-known/llm.json is empty. Merkle root cannot be confirmed.".
Definition fetch_failed_error : string :=
  "Failed to fetch .well-known/llm.json".

(** [llmJson?.verification?.merkleRoot || null] *)
Definition declared_root (llmJson : json) : json :=
  or_null (get_opt (get_opt (Some llmJson) "verification") "merkleRoot").

(** Lines 194-202: [moduleUrls] is rebuilt from the second fetch; [modules]
    is [llmJson.modules]. *)
Definition module_urls (W : World) (modules : jsval) : list string :=
  match modules with
  | Some (JArr paths) => resolve_all W paths
  | _ => []
  end.

(** Lines 116-291 after the timed fetch of the manifest has answered
    [statusCode] and [llmJson]: slot 0 holds the manifest, then every module
    task settles. *)
Definition langshake_phase (W : World) (order : nat -> list nat) (llmUrl : string)
    (statusCode : nat) (llmJson : json) (moduleUrls : list string) : phase :=
  let m := recordRequest (JStr llmUrl) statusCode new_MetricsCollector in
  let manifest_slot := Slot success (JStr llmUrl) (Some llmJson) None None None in
  langshake_tasks W (order (length moduleUrls)) moduleUrls (Phase [Some manifest_slot] m).

(** Lines 296-379 *)
Definition traditional_phase (W : World) (order : nat -> list nat)
    (mainEntityUrls : sparse entry) : phase :=
  traditional_tasks W (order (length mainEntityUrls)) mainEntityUrls
                    (Phase [] new_MetricsCollector).

(** Lines 116-458, entered with the URL of the manifest and the declared
    root once the manifest has passed the tests of lines 93-108. *)
Definition run_phases (W : World) (S : Schedule) (llmUrl : string) (llmMerkleRoot : json)
  : list event * outcome :=
  let fetch := [Get (plain_request llmUrl)] in
  match manifest_second W with
  | Failure message =>
      (fetch, ErrorResult fetch_failed_error
                (Some (recordError (JStr llm_path) (exn_toString (NetworkError message))
                                   new_MetricsCollector)))
  | Response statusCode llmJson =>
      match get llmJson "modules" with
      | Throw e =>
          (fetch, ErrorResult fetch_failed_error
                    (Some (recordError (JStr llm_path) (exn_toString e)
                             (recordRequest (JStr llmUrl) statusCode new_MetricsCollector))))
      | Ok modules =>
          let moduleUrls := module_urls W modules in
          let langshakeDone :=
            langshake_phase W (langshake_order S) llmUrl statusCode llmJson moduleUrls in
          let mainEntityUrls := mainEntityUrls_of (results langshakeDone) in
          let traditionalDone := traditional_phase W (traditional_order S) mainEntityUrls in
          let pages :=
            sparse_map (compare_page (results langshakeDone) (results traditionalDone))
                       mainEntityUrls in
          (fetch ++ map (fun u => Get (plain_request u)) moduleUrls
                 ++ omap (fmap (fun e => Crawl (entry_url e))) mainEntityUrls,
           BenchmarkResult pages (summarize llmMerkleRoot pages)
                           (metrics langshakeDone) (metrics traditionalDone))
      end
  end.

(** [runDomainBenchmark(domainRoot, options)] *)
Definition runDomainBenchmark (W : World) (S : Schedule) : list event * outcome :=
  match resolve W (JStr llm_path) with
  | None => ([], ErrorResult not_found_error None)
  | Some llmUrl =>
      let fetch := [Get (plain_request llmUrl)] in
      match manifest_first W with
      | Failure _ => (fetch, ErrorResult not_found_error None)
      | Response _ llmJson =>
          match get llmJson "modules" with
          | Throw e => (fetch, Rejected e)
          | Ok (Some (JArr [])) => (fetch, ErrorResult empty_modules_error None)
          | Ok (Some (JArr (_ :: _))) =>
              let '(log, r) := run_phases W S llmUrl (declared_root llmJson) in
              (fetch ++ log, r)
          | Ok _ => (fetch, ErrorResult no_modules_error None)
          end
      end
  end.

(** * Statements *)

(** ** The Merkle root *)

(** The statement of the specification: a level is collapsed by hashing the
    concatenated texts of each adjacent pair, a dangling last leaf paired
    with itself. *)
Definition collapsed (level next : list string) : Prop :=
  length next = Nat.div2 (S (length level)) /\
  forall i a, level !! (2 * i)%nat = Some a ->
    next !! i = Some (sha256_hex (a +:+ default a (level !! (2 * i + 1)%nat))).

Inductive merkle_root_spec : list string -> string -> Prop :=
| root_of_nothing : merkle_root_spec [] ""
| root_of_one h : merkle_root_spec [h] h
| root_of_level level next r :
    2 <= length level -> collapsed level next -> merkle_root_spec next r ->
    merkle_root_spec level r.

(** Tasks that settle in the order [order], the task of index [i] writing
    [g i] into its own slot, [off] places into the array. *)
Definition write_all {A} (off : nat) (g : nat -> A) (a : sparse A) (order : list nat)
  : sparse A :=
  foldl (fun a i => array_set a (off + i) (g i)) a order.

(** ** What one task contributes

    The slot a module task writes and what it appends to the request and
    error lists depend on the module alone, not on what has settled before. *)

Definition module_slot (modUrl : string) (answer : response) : slot :=
  match answer with
  | Response _ (JArr _ as modJson) | Response _ (JObj _ as modJson) =>
      match process_module modUrl modJson with
      | Ok r => r
      | Throw _ => error_slot (JStr modUrl)
      end
  | _ => error_slot (JStr modUrl)
  end.

Definition module_requests (modUrl : string) (answer : response) : list (json * nat) :=
  match answer with
  | Response statusCode _ => [(JStr modUrl, statusCode)]
  | Failure _ => []
  end.

Definition module_errors (modUrl : string) (answer : response) : list (json * string) :=
  match answer with
  | Failure message => [(JStr modUrl, exn_toString (NetworkError message))]
  | Response _ (JArr _ as modJson) | Response _ (JObj _ as modJson) =>
      match process_module modUrl modJson with
      | Ok _ => []
      | Throw e => [(JStr modUrl, exn_toString e)]
      end
  | Response _ modJson => [(JStr modUrl, malformed_message modUrl modJson)]
  end.

Definition crawled_records (traditionalArr : jsval) : list json :=
  match traditionalArr with
  | Some (JArr items) => items
  | _ => []
  end.

Definition page_slot (e : entry) (answer : crawl_reply) : slot :=
  let records arr := Slot success (entry_url e) None None None (Some arr) in
  match answer with
  | CrawlFailed _ => error_slot (entry_url e)
  | Crawled traditionalArr _ =>
      let arr := crawled_records traditionalArr in
      match last arr with
      | None => records arr
      | Some l =>
          match get l "checksum" with
          | Throw _ => error_slot (entry_url e)
          | Ok c => if truthy c then records (removelast arr) else records arr
          end
      end
  end.

Definition page_requests (e : entry) (answer : crawl_reply) : list (json * nat) :=
  match answer with
  | Crawled _ _ => [(entry_url e, 200)]
  | CrawlFailed _ => []
  end.

Definition page_errors (e : entry) (answer : crawl_reply) : list (json * string) :=
  match answer with
  | CrawlFailed x => [(entry_url e, exn_toString x)]
  | Crawled traditionalArr _ =>
      match last (crawled_records traditionalArr) with
      | Some JNull => [(entry_url e, exn_toString (null_read "checksum"))]
      | _ => []
      end
  end.

(** The slot, requests and errors of the task of index [i] in each phase. *)
Definition module_url_at (moduleUrls : list string) (i : nat) : string :=
  default "" (moduleUrls !! i).

Definition module_slot_at (W : World) (moduleUrls : list string) (i : nat) : slot :=
  module_slot (module_url_at moduleUrls i) (module_answer W i).

Definition entry_of (r : slot) : entry := Entry (url r) (langshake r).

Definition page_slot_at (W : World) (moduleUrls : list string) (i : nat) : slot :=
  page_slot (entry_of (module_slot_at W moduleUrls i)) (crawl_answer W i).

(** The page of index [i], read off the answers to module [i] and page [i]. *)
Definition page_at (W : World) (moduleUrls : list string) (i : nat) : page :=
  compare_page [None; Some (module_slot_at W moduleUrls i)]
               [Some (page_slot_at W moduleUrls i)] 0
               (entry_of (module_slot_at W moduleUrls i)).

Definition pages_of (W : World) (moduleUrls : list string) : sparse page :=
  map (fun i => Some (page_at W moduleUrls i)) (seq 0 (length moduleUrls)).

(** ** Notions used in the statements *)

(** [hay.includes(needle)] *)
Fixpoint includes (hay needle : string) : bool :=
  String.prefix needle hay ||
  match hay with
  | EmptyString => false
  | String _ rest => includes rest needle
  end.

(** *** The fetch policy of the specification *)

Definition no_cache_headers (r : request) : Prop :=
  assoc_get "Cache-Control" (req_headers r) = Some "no-cache" /\
  assoc_get "Pragma" (req_headers r) = Some "no-cache".

(** A request for [url] under the policy: no-cache headers and a timeout of
    10 seconds. *)
Definition policy_request (url : string) (r : request) : Prop :=
  req_url r = url /\ no_cache_headers r /\ req_timeout r = Some 10000%N.

(** The events and the result of one fetch of [url] under the policy, from
    attempt [attempt] on, against a network that answers [net k] to the
    attempt [k]: up to 3 attempts, 500 ms between two attempts, the failure
    of the third attempt is the failure of the fetch. *)
Inductive policy_fetch (net : nat -> response) (url : string)
  : nat -> list event -> result reply -> Prop :=
| fetch_answered attempt r statusCode data :
    policy_request url r -> net attempt = Response statusCode data ->
    policy_fetch net url attempt [Get r] (Ok (statusCode, data))
| fetch_gave_up r message :
    policy_request url r -> net 3 = Failure message ->
    policy_fetch net url 3 [Get r] (Throw (NetworkError message))
| fetch_retried attempt r message log res :
    attempt < 3 -> policy_request url r -> net attempt = Failure message ->
    policy_fetch net url (S attempt) log res ->
    policy_fetch net url attempt (Get r :: Delay 500 :: log) res.

(** The number of requests in a list of events. *)
Fixpoint attempts (log : list event) : nat :=
  match log with
  | [] => 0
  | Get _ :: rest => S (attempts rest)
  | _ :: rest => attempts rest
  end.

(** An event of the coordinator: a single request with the no-cache headers
    and no other setting, or a call of the extraction collaborator. *)
Definition coordinator_event (ev : event) : Prop :=
  match ev with
  | Get r => r = plain_request (req_url r)
  | Crawl _ => True
  | Delay _ => False
  end.

(** [runLangshakeCrawler] line 73: [axiosGetWithRetry(llmUrl)]. *)
Definition fetch_manifest (net : nat -> response) (llmUrl : string) :=
  axiosGetWithRetry net llmUrl no_options 3 500.

(** *** Shapes of a module payload *)

(** What [validateModule] asks: a list of at least two elements whose last
    element is an object with a truthy [checksum]. *)
Definition has_checksum_holder (modJson : json) : Prop :=
  exists items fields c,
    modJson = JArr items /\ 2 <= length items /\
    last items = Some (JObj fields) /\
    assoc_get "checksum" fields = Some c /\ truthy (Some c) = true.

(** What the specification asks: moreover [checksum] is the only field. *)
Definition exact_checksum_form (modJson : json) : Prop :=
  exists records c,
    modJson = JArr (records ++ [JObj [("checksum", c)]]) /\ records <> [].

Definition is_primitive (v : json) : bool :=
  match v with
  | JArr _ | JObj _ => false
  | _ => true
  end.

(** *** Subject URLs *)

(** The subject URL of a record that is not [null]: [r.url || r['og:url']]. *)
Definition url_of (r : json) : jsval :=
  match r with
  | JObj fields => js_or (assoc_get "url" fields) (assoc_get "og:url" fields)
  | _ => None
  end.

(** The records of an array payload: all elements but the last when the
    last one is the checksum holder, all elements otherwise. *)
Definition records_of (items : list json) : list json :=
  if checksum_form (JArr items) then removelast items else items.

(** The declared checksum of an array payload, [null] when it has no
    checksum holder. *)
Definition declared_checksum (items : list json) : json :=
  if checksum_form (JArr items)
  then default JNull (get_opt (last items) "checksum") else JNull.

(** The records an array payload keeps: those with a truthy subject URL. *)
Definition url_bearing (items : list json) : list json :=
  filter (fun r => truthy (url_of r) = true) (records_of items).

(** The subject URL of the first element of an array payload,
    [modJson[0]?.url || modJson[0]?.['og:url']]. *)
Definition first_url (items : list json) : jsval :=
  default None (url_of <$> head items).

(** The record [r] has the subject URL of the record [first], by [===]
    between the values read from two records. *)
Definition shares_url (first r : json) : bool :=
  strict_equal false (url_of r) (url_of first).

(** Every kept record has the subject URL of the first one. *)
Definition consistent (kept : list json) : bool :=
  match kept with
  | [] => true
  | first :: rest => forallb (shares_url first) rest
  end.

Definition lacks_url (r : json) : Prop :=
  exists fields, r = JObj fields /\
    assoc_get "url" fields = None /\ assoc_get "og:url" fields = None.

(** *** Outcomes of the module tasks *)

(** The fetch of module [i] answers and its payload is processed without
    error. *)
Definition module_succeeds (W : World) (moduleUrls : list string) (i : nat) : Prop :=
  exists statusCode modJson r,
    module_answer W i = Response statusCode modJson /\
    is_primitive modJson = false /\
    process_module (module_url_at moduleUrls i) modJson = Ok r /\
    status r = success.

(** The number of slots with a given status; a hole has none. *)
Definition count_status (s : slot_status) (a : sparse slot) : nat :=
  length (filter (fun r => status <$> r = Some s) a).

(** *** Equality up to the order of keys *)

(** Two JSON values that differ at most in the order in which objects list
    their keys, at any depth. *)
#[local] Unset Elimination Schemes.
Inductive key_equiv : json -> json -> Prop :=
| equiv_null : key_equiv JNull JNull
| equiv_bool b : key_equiv (JBool b) (JBool b)
| equiv_num n : key_equiv (JNum n) (JNum n)
| equiv_str s : key_equiv (JStr s) (JStr s)
| equiv_arr items items' :
    Forall2 key_equiv items items' -> key_equiv (JArr items) (JArr items')
| equiv_obj fields reordered fields' :
    Forall2 (fun kv kv' => fst kv = fst kv' /\ key_equiv (snd kv) (snd kv'))
            fields reordered ->
    reordered ≡ₚ fields' ->
    key_equiv (JObj fields) (JObj fields').
#[local] Set Elimination Schemes.

(** Two texts with the same SHA-256 digest. *)
Definition sha256_collision (a b : string) : Prop :=
  a <> b /\ sha256_hex a = sha256_hex b.

(** The rendered fields of an object: each key with the canonical text of
    its value. *)
Definition render (fields : list (string * json)) : list (string * string) :=
  map (fun kv => (fst kv, stableStringify (snd kv))) fields.

(** One [key:value] entry of the canonical text of an object. *)
Definition entry_text (rendered : list (string * string)) (key : string) : string :=
  quote key +:+ ":" +:+ default "" (assoc_get key rendered).

(** *** Decimal texts *)

Definition is_digit (c : ascii) : bool :=
  (48 <=? nat_of_ascii c)%nat && (nat_of_ascii c <=? 57)%nat.

Fixpoint all_digits (s : string) : bool :=
  match s with
  | EmptyString => true
  | String c rest => is_digit c && all_digits rest
  end.

(** *** Reading a quoted string back

    The inverse of [quote], used to show that the canonical text determines
    the value. *)

Definition unhex (c : ascii) : option nat :=
  let n := nat_of_ascii c in
  if is_digit c then Some (n - 48)
  else if (97 <=? n)%nat && (n <=? 102)%nat then Some (n - 87)
  else None.

Definition push (c : ascii) (r : option (string * string)) : option (string * string) :=
  match r with
  | Some (text, rest) => Some (String c text, rest)
  | None => None
  end.

(** [unescape s] reads escaped code units up to the closing quote and
    returns the string read and what follows the quote. *)
Fixpoint unescape (s : string) : option (string * string) :=
  match s with
  | EmptyString => None
  | String c rest =>
      if Ascii.eqb c dquote then Some (EmptyString, rest)
      else if Ascii.eqb c backslash then
        match rest with
        | String e rest' =>
            if Ascii.eqb e dquote then push dquote (unescape rest')
            else if Ascii.eqb e backslash then push backslash (unescape rest')
            else if Ascii.eqb e "b" then push (ascii_of_nat 8) (unescape rest')
            else if Ascii.eqb e "f" then push (ascii_of_nat 12) (unescape rest')
            else if Ascii.eqb e "n" then push (ascii_of_nat 10) (unescape rest')
            else if Ascii.eqb e "r" then push (ascii_of_nat 13) (unescape rest')
            else if Ascii.eqb e "t" then push (ascii_of_nat 9) (unescape rest')
            else if Ascii.eqb e "u" then
              match rest' with
              | String _ (String _ (String h (String l rest''))) =>
                  match unhex h, unhex l with
                  | Some a, Some b => push (ascii_of_nat (16 * a + b)) (unescape rest'')
                  | _, _ => None
                  end
              | _ => None
              end
            else None
        | EmptyString => None
        end
      else push c (unescape rest)
  end.

(** What may follow a value in a canonical text: nothing, a comma, or a
    closing bracket or brace. *)
Definition delimited (x : string) : Prop :=
  match x with
  | EmptyString => True
  | String c _ => c = ","%char \/ c = "]"%char \/ c = "}"%char
  end.

(** The texts after the first element of a list: each further element
    behind a comma, then [close]. *)
Fixpoint more (texts : list string) (close : string) : string :=
  match texts with
  | [] => close
  | t :: rest => "," +:+ t +:+ more rest close
  end.

(** The first character of a canonical text tells the kind of the value. *)
Definition class_of (v : json) : nat :=
  match v with
  | JNull => 0
  | JBool true => 1
  | JBool false => 2
  | JNum _ => 3
  | JStr _ => 4
  | JArr _ => 5
  | JObj _ => 6
  end.

Definition class_of_char (c : ascii) : nat :=
  if Ascii.eqb c "n" then 0
  else if Ascii.eqb c "t" then 1
  else if Ascii.eqb c "f" then 2
  else if is_digit c || Ascii.eqb c "-" then 3
  else if Ascii.eqb c dquote then 4
  else if Ascii.eqb c "[" then 5
  else if Ascii.eqb c "{" then 6
  else 7.

(** The canonical text of [a] can be read back from the front of a text:
    whatever value and remainder give the same text, the value is [a] up to
    the order of keys and the remainder is the same. *)
Definition readable (a : json) : Prop :=
  forall b x y,
    wf_json a -> wf_json b -> delimited x -> delimited y ->
    stableStringify a +:+ x = stableStringify b +:+ y ->
    key_equiv a b /\ x = y.

(** The keys of [keys] are keys of [fields], with values that are well
    formed (and, for [known], readable); [matched]: the two objects agree on
    them up to the order of keys. *)
Definition known (fields : list (string * json)) (keys : list string) : Prop :=
  forall k, k ∈ keys ->
    exists v, assoc_get k fields = Some v /\ readable v /\ wf_json v.

Definition present (fields : list (string * json)) (keys : list string) : Prop :=
  forall k, k ∈ keys -> exists v, assoc_get k fields = Some v /\ wf_json v.

Definition matched (fields fields' : list (string * json)) (keys : list string) : Prop :=
  forall k, k ∈ keys ->
    exists v v', assoc_get k fields = Some v /\ assoc_get k fields' = Some v' /\
                 key_equiv v v'.

(** ** Concrete runs

    The worlds, schedules and payloads at which the statements below are
    evaluated. *)

Definition example_resolve (path : json) : option string :=
  match path with
  | JStr p => Some ("https://example.com" +:+ p)
  | _ => None
  end.

Definition example_llm_url : string := "https://example.com/.well-known/llm.json".

Definition unreachable_world : World := {|
  resolve := example_resolve;
  manifest_first := Failure "404 Not Found";
  manifest_second := Failure "404 Not Found";
  module_answer := fun _ => Failure "Should not fetch modules if llm.json is missing";
  crawl_answer := fun _ => CrawlFailed (Error "Should not crawl")
|}.

(** A site that answers the request for the manifest with the JSON text
    [null]. *)
Definition null_manifest_world : World := {|
  resolve := example_resolve;
  manifest_first := Response 200 JNull;
  manifest_second := Response 200 JNull;
  module_answer := fun _ => Failure "Should not fetch modules without a manifest";
  crawl_answer := fun _ => CrawlFailed (Error "Should not crawl")
|}.

Definition in_order : Schedule := {|
  langshake_order := fun n => seq 0 n;
  traditional_order := fun n => seq 0 n
|}.

Definition last_first : Schedule := {|
  langshake_order := fun n => reverse (seq 0 n);
  traditional_order := fun n => reverse (seq 0 n)
|}.

Definition article : json :=
  JObj [("@type", JStr "Article"); ("url", JStr "https://example.com/a")].

Definition article_reordered : json :=
  JObj [("url", JStr "https://example.com/a"); ("@type", JStr "Article")].

Definition product : json :=
  JObj [("@type", JStr "Product"); ("url", JStr "https://example.com/b")].

Definition manifest_of (paths : list string) (root : string) : json :=
  JObj [("modules", JArr (map JStr paths));
        ("verification", JObj [("merkleRoot", JStr root)])].

(** One module whose records both phases agree on, under a manifest that
    declares another root. *)
Definition wrong_root_world : World := {|
  resolve := example_resolve;
  manifest_first := Response 200 (manifest_of ["/langshake/article.json"] "irrelevant");
  manifest_second := Response 200 (manifest_of ["/langshake/article.json"] "irrelevant");
  module_answer := fun _ =>
    Response 200 (JArr [article; JObj [("checksum", JStr "irrelevant")]]);
  crawl_answer := fun _ =>
    Crawled (Some (JArr [article_reordered; JObj [("checksum", JStr "irrelevant")]])) 0
|}.

(** A payload whose last element has a second field next to [checksum]. *)
Definition extra_field_payload : json :=
  JArr [article; JObj [("checksum", JStr "irrelevant"); ("generated", JNum 2024)]].

Definition one_answer (payload : json) : string -> nat -> response :=
  fun _ _ => Response 200 payload.

Definition resolve_path (modPath : string) : option string :=
  example_resolve (JStr modPath).

Definition checksum_holder (c : string) : json := JObj [("checksum", JStr c)].

(** Two records with different subject URLs (the module of the test
    [should report error if schema objects in a module have different urls]). *)
Definition bad_schemas : list json := [article; product; checksum_holder "irrelevant"].

(** Records without [url] and without [og:url]. *)
Definition anonymous : json := JObj [("@type", JStr "Thing"); ("name", JStr "x")].
Definition anonymous_schemas : list json :=
  [anonymous; anonymous; checksum_holder "irrelevant"].

(** A record without subject URL before, and after, a record with one. *)
Definition url_less_first : list json := [anonymous; article; checksum_holder "irrelevant"].
Definition url_less_last : list json := [article; anonymous; checksum_holder "irrelevant"].

(** A [null] among the records. *)
Definition null_record_schemas : list json := [article; JNull; checksum_holder "irrelevant"].

Definition article_schemas : list json := [article; article_reordered; checksum_holder "irrelevant"].

Definition idle : phase := Phase [] new_MetricsCollector.

(** Three modules; the fetch of the second one fails. *)
Definition three_paths : list string :=
  ["/langshake/article.json"; "/langshake/missing.json"; "/langshake/products.json"].

Definition one_failure_world : World := {|
  resolve := example_resolve;
  manifest_first := Response 200 (manifest_of three_paths "irrelevant");
  manifest_second := Response 200 (manifest_of three_paths "irrelevant");
  module_answer := fun i =>
    match i with
    | 0 => Response 200 (JArr article_schemas)
    | 1 => Failure "connect ECONNREFUSED"
    | _ => Response 200 (JArr [product; checksum_holder "irrelevant"])
    end;
  crawl_answer := fun i =>
    match i with
    | 0 => Crawled (Some (JArr article_schemas)) 0
    | 1 => CrawlFailed (Error "Unknown URL")
    | _ => Crawled (Some (JArr [product; checksum_holder "irrelevant"])) 0
    end
|}.

Definition three_urls : list string := map (fun p => "https://example.com" +:+ p) three_paths.

(** * Further properties: statements *)

(** ** Digests as text *)

(** A character of [digest('hex')]. *)
Definition is_lower_hex (c : ascii) : bool :=
  let n := nat_of_ascii c in
  ((48 <=? n) && (n <=? 57) || (97 <=? n) && (n <=? 102))%nat.

Fixpoint all_lower_hex (s : string) : bool :=
  match s with
  | EmptyString => true
  | String c rest => is_lower_hex c && all_lower_hex rest
  end.

(** A key occurs in a document, at any depth. *)
Fixpoint mentions (key : string) (v : json) : bool :=
  match v with
  | JArr items => existsb (mentions key) items
  | JObj fields =>
      existsb (fun kv => String.eqb (fst kv) key || mentions key (snd kv)) fields
  | _ => false
  end.

(** ** Concrete inputs *)

Definition article_slot (records : list json) : slot :=
  Slot success (JStr "https://example.com/a") None (Some records) (Some JNull) None.

Definition article_page_slot (records : list json) : slot :=
  Slot success (JStr "https://example.com/a") None None None (Some records).

Definition article_entry : entry := Entry (JStr "https://example.com/a") (Some [article]).

(** ** Conversion to text *)

(** [String(v)], the conversion that a template literal, [+] with a string
    operand and [new URL] apply to a value: an array is the texts of its
    elements joined by commas, a [null] element giving the empty text. *)
Fixpoint to_String (v : json) : string :=
  match v with
  | JNull => "null"
  | JBool true => "true"
  | JBool false => "false"
  | JNum n => pretty n
  | JStr s => s
  | JArr items =>
      String.concat ","
        (map (fun x => match x with JNull => "" | _ => to_String x end) items)
  | JObj _ => "[object Object]"
  end.

(** ** [calculateMerkleRoot] on leaves of any kind

    [runLangshakeCrawler] passes the declared checksums of the modules, which
    are any truthy values of the payloads.  [a + b] is a number when both
    operands are numbers, booleans or [null], and [hash.update] throws a
    [TypeError] on a number; otherwise [a + b] is the concatenation of the
    texts of the operands.  [rejects a b] is the message of that error. *)

Definition adds_numbers (a b : json) : bool :=
  let numeric v := match v with JNull | JBool _ | JNum _ => true | _ => false end in
  numeric a && numeric b.

Definition hash_pair (rejects : json -> json -> string) (a b : json) : result string :=
  if adds_numbers a b then Throw (TypeError (rejects a b))
  else Ok (sha256_hex (to_String a +:+ to_String b)).

(** The first pass of the inner loop, over the leaves as given. *)
Fixpoint next_level_any (rejects : json -> json -> string) (level : list json)
  : result (list string) :=
  match level with
  | [] => Ok []
  | [a] => h ← hash_pair rejects a a; Ok [h]
  | a :: b :: rest =>
      h ← hash_pair rejects a b;
      next ← next_level_any rejects rest;
      Ok (h :: next)
  end.

(** After the first pass every element of the level is a digest, and the
    loop goes on as [calculateMerkleRoot] does on strings. *)
Definition calculateMerkleRoot_any (rejects : json -> json -> string) (leaves : list json)
  : result json :=
  match leaves with
  | [] => Ok (JStr "")
  | [leaf] => Ok leaf
  | _ => next ← next_level_any rejects leaves; Ok (JStr (calculateMerkleRoot next))
  end.

(** ** [runLangshakeCrawler] ([crawlers/langshake.js]) *)

(** What stands outside the crawler: the two uses of [new URL], [None] when
    the constructor throws; the answers of the network to each attempt for
    the manifest and, for the module of each index, to each attempt for its
    URL; the message of the error of [hash.update]. *)
Record CrawlerWorld := {
  manifest_url : option string;
  module_url : json -> option string;
  manifest_reply : nat -> response;
  module_reply : nat -> string -> nat -> response;
  update_rejects : json -> json -> string
}.

(** The object the crawler resolves to.  A trust entry is paired with the
    value of its [path] property, the element of [modules] in the manifest;
    [trust_path] is that value as text. *)
Record crawl_result := CrawlResult {
  crawl_modules : json;
  crawl_trust : list (option (json * trust_entry));
  crawl_merkleRoot : json;
  crawl_merkleRootValid : bool;
  crawl_details : string
}.

(** [validateModule(modPath, url)] for the element [modPath] of index [i]. *)
Definition validate_module_at (W : CrawlerWorld) (i : nat) (modPath : json)
  : list event * validation :=
  validateModule (fun _ => module_url W modPath) (module_reply W i) (to_String modPath).

(** The four variables the [for] loop over [moduleResults] updates. *)
Record gathered := Gathered {
  g_modules : list json;
  g_trust : list (option (json * trust_entry));
  g_checksums : list json;
  g_details : string
}.

(** One turn of that loop. *)
Definition gather (acc : gathered) (item : json * validation) : gathered :=
  let '(modPath, r) := item in
  let pushed :=
    if truthy (v_modJson r) then
      Gathered (g_modules acc ++ [default JNull (v_modJson r)])
               (g_trust acc ++ [(fun t => (modPath, t)) <$> v_trust r])
               (g_checksums acc ++ [default JNull (v_checksum r)])
               (g_details acc)
    else acc in
  Gathered (g_modules pushed) (g_trust pushed) (g_checksums pushed)
           (g_details pushed +:+ default "" (v_error r)).

(** [runLangshakeCrawler(url)].  The events are those of the fetch of the
    manifest followed by those of each module, the modules in the order of
    the manifest; the program runs up to five modules at a time, which
    interleaves the events of different modules and changes nothing else. *)
Definition runLangshakeCrawler (W : CrawlerWorld) : list event * crawl_result :=
  let failed (log : list event) (details : string) (e : exn) :=
    (log, CrawlResult (JArr []) [] JNull false
            (details +:+ "Could not fetch .llm.json: " +:+ exn_message e)) in
  match manifest_url W with
  | None => failed [] "" (TypeError "Invalid URL")
  | Some llmUrl =>
      let '(log, r) := axiosGetWithRetry (manifest_reply W) llmUrl no_options 3 500 in
      match r with
      | Throw e => failed log "" e
      | Ok None =>
          failed log "" (TypeError "Cannot read properties of undefined (reading 'data')")
      | Ok (Some (_, llmJson)) =>
          let merkleRoot := declared_root llmJson in
          match get llmJson "modules" with
          | Throw e => failed log "" e
          | Ok (Some (JArr (modPath :: rest))) =>
              let moduleResults :=
                imap (fun i p => (p, validate_module_at W i p)) (modPath :: rest) in
              let log' := log ++ concat (map (fun x => fst (snd x)) moduleResults) in
              let g := foldl gather (Gathered [] [] [] "")
                             (map (fun x => (fst x, snd (snd x))) moduleResults) in
              match calculateMerkleRoot_any (update_rejects W) (g_checksums g) with
              | Throw e => failed log' (g_details g) e
              | Ok calculatedMerkleRoot =>
                  let merkleRootValid :=
                    strict_equal false (Some calculatedMerkleRoot) (Some merkleRoot) in
                  let details :=
                    g_details g
                    +:+ (if merkleRootValid then " Merkle root valid."
                         else " Merkle root mismatch or invalid.")
                    +:+ " Fetched " +:+ pretty (length (g_modules g)) +:+ " modules." in
                  let output :=
                    match g_modules g with
                    | [single] => single
                    | modules => JArr modules
                    end in
                  (log', CrawlResult output (g_trust g) merkleRoot merkleRootValid details)
              end
          | Ok _ =>
              (log, CrawlResult (JArr []) [] merkleRoot false
                      "No modules found in .llm.json.")
          end
      end
  end.

(** *** Statements about the crawler *)

(** The validations of the modules a manifest lists, in its order. *)
Definition module_validations (W : CrawlerWorld) (paths : list json) : list validation :=
  imap (fun i p => snd (validate_module_at W i p)) paths.

(** The events of those validations. *)
Definition module_events (W : CrawlerWorld) (paths : list json) : list event :=
  concat (imap (fun i p => fst (validate_module_at W i p)) paths).

(** The modules that are kept, those whose validation has a payload, in the
    order of the manifest; their declared checksums; their trust entries. *)
Definition kept_modules (validations : list validation) : list json :=
  omap (fun r => if truthy (v_modJson r) then Some (default JNull (v_modJson r)) else None)
       validations.

Definition kept_checksums (validations : list validation) : list json :=
  omap (fun r => if truthy (v_modJson r) then Some (default JNull (v_checksum r)) else None)
       validations.

Definition kept_trust (paths : list json) (validations : list validation)
  : list (option (json * trust_entry)) :=
  omap (fun item => if truthy (v_modJson (snd item))
                    then Some ((fun t => (fst item, t)) <$> v_trust (snd item))
                    else None)
       (zip paths validations).

(** The error messages of all validations, one after the other. *)
Definition error_texts (validations : list validation) : string :=
  foldr (fun r rest => default "" (v_error r) +:+ rest) "" validations.

(** What the crawler returns for the manifest [llmJson] once the modules it
    lists have the validations [validations]. *)
Definition assembled (rejects : json -> json -> string) (llmJson : json)
    (paths : list json) (validations : list validation) : crawl_result :=
  match calculateMerkleRoot_any rejects (kept_checksums validations) with
  | Throw e =>
      CrawlResult (JArr []) [] JNull false
        (error_texts validations +:+ "Could not fetch .llm.json: " +:+ exn_message e)
  | Ok calculated =>
      let valid := strict_equal false (Some calculated) (Some (declared_root llmJson)) in
      CrawlResult
        (match kept_modules validations with [single] => single | modules => JArr modules end)
        (kept_trust paths validations)
        (declared_root llmJson) valid
        (error_texts validations
         +:+ (if valid then " Merkle root valid." else " Merkle root mismatch or invalid.")
         +:+ " Fetched " +:+ pretty (length (kept_modules validations)) +:+ " modules.")
  end.

(** Every request has the no-cache headers and the timeout of 10 seconds,
    every delay is of 500 ms, and no page is crawled. *)
Definition crawler_event (ev : event) : Prop :=
  match ev with
  | Get r => no_cache_headers r /\ req_timeout r = Some 10000%N
  | Delay ms => ms = 500%N
  | Crawl _ => False
  end.

(** *** A concrete site *)

Definition article_checksum : string := Eval vm_compute in array_checksum [article].

Definition valid_module : json := JArr [article; checksum_holder article_checksum].

Definition site : CrawlerWorld := {|
  manifest_url := Some example_llm_url;
  module_url := example_resolve;
  manifest_reply := fun attempt =>
    match attempt with
    | 1 => Failure "timeout of 10000ms exceeded"
    | _ => Response 200 (manifest_of ["/langshake/article.json"; "/langshake/bad.json"]
                                     "irrelevant")
    end;
  module_reply := fun i _ _ =>
    match i with
    | 0 => Response 200 valid_module
    | _ => Response 200 extra_field_payload
    end;
  update_rejects := fun _ _ => "The data argument must be of type string"
|}.

(** A site that does not answer. *)
Definition dead_site : CrawlerWorld := {|
  manifest_url := Some example_llm_url;
  module_url := example_resolve;
  manifest_reply := fun attempt =>
    match attempt with
    | 3 => Failure "connect ECONNREFUSED"
    | _ => Failure "timeout of 10000ms exceeded"
    end;
  module_reply := fun _ _ _ => Failure "not asked";
  update_rejects := fun _ _ => ""
|}.

(** A manifest without [modules]. *)
Definition rootless_manifest : json :=
  JObj [("verification", JObj [("merkleRoot", JStr "0f3c")])].

Definition empty_site : CrawlerWorld := {|
  manifest_url := Some example_llm_url;
  module_url := example_resolve;
  manifest_reply := fun _ => Response 200 rootless_manifest;
  module_reply := fun _ _ _ => Failure "not asked";
  update_rejects := fun _ _ => ""
|}.

(** Two modules that declare numbers as their checksums. *)
Definition numbered_module (n : Z) : json :=
  JArr [article; JObj [("checksum", JNum n)]].

Definition numbered_site : CrawlerWorld := {|
  manifest_url := Some example_llm_url;
  module_url := example_resolve;
  manifest_reply := fun _ =>
    Response 200 (manifest_of ["/langshake/one.json"; "/langshake/two.json"] "irrelevant");
  module_reply := fun i _ _ =>
    match i with
    | 0 => Response 200 (numbered_module 1)
    | _ => Response 200 (numbered_module 2)
    end;
  update_rejects := fun _ _ => "The data argument must be of type string"
|}.

(** One valid module under a manifest that declares its checksum as the
    root. *)
Definition sound_site : CrawlerWorld := {|
  manifest_url := Some example_llm_url;
  module_url := example_resolve;
  manifest_reply := fun _ =>
    Response 200 (manifest_of ["/langshake/article.json"] article_checksum);
  module_reply := fun _ _ _ => Response 200 valid_module;
  update_rejects := fun _ _ => ""
|}.

(** ** The metrics collector in full ([utils/metrics.js])

    Times are the values of [Date.now()], memory readings the [rss] of
    [process.memoryUsage()] (the only field the collector reads), CPU
    readings the two fields of [process.cpuUsage()]; they are given to each
    operation that reads them.  Numbers are doubles with an integer value;
    the readings of the clock, of the memory and of the CPU are below
    [2^53], where comparing and subtracting them is exact. *)

Module Collector.

Record cpu_reading := Cpu { user : Z; system : Z }.

(** The argument of [recordRequest]; a property that is missing is [None]. *)
Record request_record := RequestRecord {
  r_url : jsval;
  r_method : jsval;
  r_startTime : option Z;
  r_endTime : option Z;
  r_bytesDownloaded : option Z;
  r_bytesUploaded : option Z;
  r_statusCode : option nat
}.

Record error_record := ErrorRecord {
  e_url : jsval;
  e_error : string;
  e_time : Z
}.

(** The [error] given to [recordError]: missing, a JSON value or an
    exception object. *)
Inductive reported : Type :=
| Missing
| Value (v : json)
| Exception (e : exn).

(** The fields of a collector; [null] is [None].  [statusCodes] lists the
    properties of the object in the order JavaScript enumerates them: the
    status codes (integers below 2^32 - 1) in increasing order, then the key
    of a missing status. *)
Record t := Make {
  startTime : option Z;
  endTime : option Z;
  startMemory : option Z;
  endMemory : option Z;
  peakMemory : Z;
  startCPU : option cpu_reading;
  endCPU : option cpu_reading;
  cpuUserMicros : Z;
  cpuSystemMicros : Z;
  requests : list request_record;
  totalBytesDownloaded : Z;
  totalBytesUploaded : Z;
  statusCodes : list (option nat * nat);
  requestTimes : list Z;
  errors : list error_record;
  diskUsage : Z;
  maxConcurrency : Z;
  currentConcurrency : Z
}.

(** [new MetricsCollector()] *)
Definition new : t :=
  Make None None None None 0 None None 0 0 [] 0 0 [] [] [] 0 0 0.

(** [startCrawl()] *)
Definition startCrawl (now mem : Z) (cpu : cpu_reading) (m : t) : t :=
  Make (Some now) (endTime m) (Some mem) (endMemory m) mem (Some cpu) (endCPU m)
       (cpuUserMicros m) (cpuSystemMicros m) (requests m)
       (totalBytesDownloaded m) (totalBytesUploaded m) (statusCodes m) (requestTimes m)
       (errors m) (diskUsage m) (maxConcurrency m) (currentConcurrency m).

(** The key [a] is enumerated before the key [b]. *)
Definition enumerated_before (a b : option nat) : bool :=
  match a, b with
  | Some x, Some y => (x <? y)%nat
  | Some _, None => true
  | None, _ => false
  end.

(** [codes[code] = (codes[code] || 0) + 1] *)
Fixpoint bump (code : option nat) (codes : list (option nat * nat))
  : list (option nat * nat) :=
  match codes with
  | [] => [(code, 1)]
  | (k, n) :: rest =>
      if decide (k = code) then (k, S n) :: rest
      else if enumerated_before code k then (code, 1) :: (k, n) :: rest
      else (k, n) :: bump code rest
  end.

(** [x || 0] *)
Definition or_zero (x : option Z) : Z := default 0%Z x.

(** An integer of magnitude at most [2^53]: every such integer is a double. *)
Definition safe (x : Z) : bool := (Z.abs x <=? 2 ^ 53)%Z.

(** The double nearest to the integer [x], ties going to the even
    significand, for [x] below [2^1024] in magnitude: beyond [2^53] only 53
    significant bits are kept. *)
Definition round_double (x : Z) : Z :=
  if safe x then x
  else
    let a := Z.abs x in
    let e := (Z.log2 a - 52)%Z in
    let q := Z.shiftr a e in
    let r := (a - Z.shiftl q e)%Z in
    let half := Z.shiftl 1 (e - 1) in
    let q' := if (r <? half)%Z then q
              else if (half <? r)%Z then (q + 1)%Z
              else if Z.even q then q else (q + 1)%Z in
    (Z.sgn x * Z.shiftl q' e)%Z.

(** [a + b] and [a - b] on two such doubles. *)
Definition number_add (a b : Z) : Z := round_double (a + b).
Definition number_sub (a b : Z) : Z := round_double (a - b).

(** [recordRequest({ ... })]; [mem] is the reading taken at its end. *)
Definition recordRequest (r : request_record) (mem : Z) (m : t) : t :=
  Make (startTime m) (endTime m) (startMemory m) (endMemory m)
       (if (peakMemory m <? mem)%Z then mem else peakMemory m)
       (startCPU m) (endCPU m) (cpuUserMicros m) (cpuSystemMicros m)
       (requests m ++ [r])
       (number_add (totalBytesDownloaded m) (or_zero (r_bytesDownloaded r)))
       (number_add (totalBytesUploaded m) (or_zero (r_bytesUploaded r)))
       (bump (r_statusCode r) (statusCodes m))
       (match r_startTime r, r_endTime r with
        | Some s, Some e => requestTimes m ++ [number_sub e s]
        | _, _ => requestTimes m
        end)
       (errors m) (diskUsage m) (maxConcurrency m) (currentConcurrency m).

(** [_stringifyError(error)] *)
Definition _stringifyError (err : reported) : string :=
  match err with
  | Missing => ""
  | Value v => to_String v
  | Exception e => exn_toString e
  end.

(** [recordError({ url, error })] *)
Definition recordError (url : jsval) (err : reported) (now : Z) (m : t) : t :=
  Make (startTime m) (endTime m) (startMemory m) (endMemory m) (peakMemory m)
       (startCPU m) (endCPU m) (cpuUserMicros m) (cpuSystemMicros m) (requests m)
       (totalBytesDownloaded m) (totalBytesUploaded m) (statusCodes m) (requestTimes m)
       (errors m ++ [ErrorRecord url (_stringifyError err) now])
       (diskUsage m) (maxConcurrency m) (currentConcurrency m).

(** [recordDiskUsage(bytes)] *)
Definition recordDiskUsage (bytes : Z) (m : t) : t :=
  Make (startTime m) (endTime m) (startMemory m) (endMemory m) (peakMemory m)
       (startCPU m) (endCPU m) (cpuUserMicros m) (cpuSystemMicros m) (requests m)
       (totalBytesDownloaded m) (totalBytesUploaded m) (statusCodes m) (requestTimes m)
       (errors m) (number_add (diskUsage m) bytes) (maxConcurrency m) (currentConcurrency m).

(** [updateConcurrency(current)] *)
Definition updateConcurrency (current : Z) (m : t) : t :=
  Make (startTime m) (endTime m) (startMemory m) (endMemory m) (peakMemory m)
       (startCPU m) (endCPU m) (cpuUserMicros m) (cpuSystemMicros m) (requests m)
       (totalBytesDownloaded m) (totalBytesUploaded m) (statusCodes m) (requestTimes m)
       (errors m) (diskUsage m)
       (if (maxConcurrency m <? current)%Z then current else maxConcurrency m)
       current.

(** [finalize()]; [mem] is the first reading of the memory, [mem'] the
    second. *)
Definition finalize (now mem : Z) (cpu : cpu_reading) (mem' : Z) (m : t) : t :=
  Make (startTime m) (Some now) (startMemory m) (Some mem)
       (if (peakMemory m <? mem')%Z then mem' else peakMemory m)
       (startCPU m) (Some cpu)
       (user cpu - match startCPU m with Some c => user c | None => 0 end)%Z
       (system cpu - match startCPU m with Some c => system c | None => 0 end)%Z
       (requests m)
       (totalBytesDownloaded m) (totalBytesUploaded m) (statusCodes m) (requestTimes m)
       (errors m) (diskUsage m) (maxConcurrency m) (currentConcurrency m).

(** A quotient that [getSummary] computes in floating point; it is kept as
    its two operands. *)
Record quotient := Quotient { numerator : Z; denominator : Z }.

(** The object [getSummary()] returns, its groups side by side. *)
Record summary := Summary {
  timing_start : option Z;
  timing_end : option Z;
  durationMs : option Z;
  cpu_userMicros : Z;
  cpu_systemMicros : Z;
  memory_start : option Z;
  memory_end : option Z;
  memory_peakRss : Z;
  requests_total : nat;
  requests_statusCodes : list (option nat * nat);
  avgRequestTimeMs : option quotient;
  rps : option quotient;
  requests_totalBytesDownloaded : Z;
  requests_totalBytesUploaded : Z;
  errors_total : nat;
  errors_details : list error_record;
  disk_totalBytes : Z;
  concurrency_max : Z
}.

(** [getSummary()].  [avgRequestTimeMs] is the sum of the request times over
    their number; [rps] is the number of requests over [durationMs / 1000],
    kept here as the number of requests times 1000 over [durationMs]. *)
Definition getSummary (m : t) : summary :=
  let duration :=
    match endTime m, startTime m with
    | Some e, Some s => if ((e =? 0) || (s =? 0))%Z then None else Some (e - s)%Z
    | _, _ => None
    end in
  let avg :=
    match requestTimes m with
    | [] => None
    | times => Some (Quotient (foldl number_add 0%Z times) (Z.of_nat (length times)))
    end in
  let per_second :=
    match duration, requests m with
    | Some d, _ :: _ =>
        if (d =? 0)%Z then None
        else Some (Quotient (Z.of_nat (length (requests m)) * 1000) d)
    | _, _ => None
    end in
  Summary (startTime m) (endTime m) duration (cpuUserMicros m) (cpuSystemMicros m)
          (startMemory m) (endMemory m) (peakMemory m)
          (length (requests m)) (statusCodes m) avg per_second
          (totalBytesDownloaded m) (totalBytesUploaded m)
          (length (errors m)) (errors m) (diskUsage m) (maxConcurrency m).

(** The calls a program makes on a collector, and a collector after a
    sequence of calls. *)
Inductive call : Type :=
| StartCrawl (now mem : Z) (cpu : cpu_reading)
| RecordRequest (r : request_record) (mem : Z)
| RecordError (url : jsval) (err : reported) (now : Z)
| RecordDiskUsage (bytes : Z)
| UpdateConcurrency (current : Z)
| Finalize (now mem : Z) (cpu : cpu_reading) (mem' : Z).

Definition perform (m : t) (c : call) : t :=
  match c with
  | StartCrawl now mem cpu => startCrawl now mem cpu m
  | RecordRequest r mem => recordRequest r mem m
  | RecordError url err now => recordError url err now m
  | RecordDiskUsage bytes => recordDiskUsage bytes m
  | UpdateConcurrency current => updateConcurrency current m
  | Finalize now mem cpu mem' => finalize now mem cpu mem' m
  end.

Definition after (calls : list call) : t := foldl perform new calls.

(** *** Statements *)

(** The requests, the error reports and the concurrency levels among a
    sequence of calls. *)
Definition recorded (calls : list call) : list request_record :=
  omap (fun c => match c with RecordRequest r _ => Some r | _ => None end) calls.

Definition reports (calls : list call) : list error_record :=
  omap (fun c => match c with
                 | RecordError url err now =>
                     Some (ErrorRecord url (_stringifyError err) now)
                 | _ => None
                 end) calls.

Definition levels (calls : list call) : list Z :=
  omap (fun c => match c with UpdateConcurrency current => Some current | _ => None end)
       calls.

(** The number of requests with the status [code]. *)
Definition with_status (code : option nat) (rs : list request_record) : nat :=
  length (filter (fun r => r_statusCode r = code) rs).

(** [codes[code] || 0] *)
Fixpoint count_of (code : option nat) (codes : list (option nat * nat)) : nat :=
  match codes with
  | [] => 0
  | (k, n) :: rest => if decide (k = code) then n else count_of code rest
  end.

Definition total_count (codes : list (option nat * nat)) : nat :=
  foldr (fun kv acc => snd kv + acc) 0 codes.

(** The keys of [codes] are in enumeration order, without repetition. *)
Fixpoint enumerated (codes : list (option nat * nat)) : Prop :=
  match codes with
  | [] => True
  | (k, _) :: rest =>
      Forall (fun kv => enumerated_before k (fst kv) = true) rest /\ enumerated rest
  end.

(** The time of each request that has both a start and an end. *)
Definition timed (rs : list request_record) : list Z :=
  omap (fun r => match r_startTime r, r_endTime r with
                 | Some s, Some e => Some (e - s)%Z
                 | _, _ => None
                 end) rs.

Definition sum (l : list Z) : Z := foldr Z.add 0%Z l.

(** The byte counts of the recorded requests and the recorded disk amounts. *)
Definition downloads (calls : list call) : list Z :=
  map (fun r => or_zero (r_bytesDownloaded r)) (recorded calls).

Definition uploads (calls : list call) : list Z :=
  map (fun r => or_zero (r_bytesUploaded r)) (recorded calls).

Definition amounts (calls : list call) : list Z :=
  omap (fun c => match c with RecordDiskUsage b => Some b | _ => None end) calls.

(** Every number of [l], and every total reached when they are added one
    after the other to [acc], is at most [2^53] in magnitude. *)
Fixpoint within_range (acc : Z) (l : list Z) : bool :=
  match l with
  | [] => true
  | x :: rest => safe x && safe (acc + x) && within_range (acc + x)%Z rest
  end.

(** The memory readings taken by the recorded requests. *)
Definition readings (calls : list call) : list Z :=
  omap (fun c => match c with RecordRequest _ mem => Some mem | _ => None end) calls.

(** A call that is neither [startCrawl] nor [finalize]. *)
Definition in_crawl (c : call) : Prop :=
  match c with
  | StartCrawl _ _ _ | Finalize _ _ _ _ => False
  | _ => True
  end.

(** The highest of a list of levels, 0 when none is positive. *)
Definition highest (l : list Z) : Z := foldr Z.max 0%Z l.


(** A crawl of two requests, the second without times, and one error. *)
Definition example_calls : list call :=
  [RecordRequest (RequestRecord (Some (JStr "https://example.com/a")) (Some (JStr "GET"))
                                (Some 1000%Z) (Some 1250%Z) (Some 512%Z) (Some 0%Z) (Some 200))
                 9000;
   UpdateConcurrency 2;
   RecordRequest (RequestRecord (Some (JStr "https://example.com/b")) None
                                None None None None (Some 404))
                 7000;
   RecordError (Some (JStr "https://example.com/c")) (Value (JStr "fail")) 1300;
   UpdateConcurrency 1].

(** Two requests whose byte counts add up to more than [2^53]. *)
Definition large_calls : list call :=
  [RecordRequest (RequestRecord None None None None (Some (2 ^ 53)%Z) None (Some 200)) 0;
   RecordRequest (RequestRecord None None None None (Some 1%Z) None (Some 200)) 0].

End Collector.

(** ** The command line ([cli/menu.js]) *)

(** [stripRawJsonLd(obj)] on a JSON document.  The source deletes the
    property and then visits the values that remain; here every value is
    visited and the property is left out of the result. *)
Fixpoint stripRawJsonLd (obj : json) : json :=
  match obj with
  | JArr items => JArr (map stripRawJsonLd items)
  | JObj fields =>
      JObj (filter (fun kv => fst kv <> "rawJsonLd")
                   (map (fun kv => (fst kv, stripRawJsonLd (snd kv))) fields))
  | _ => obj
  end.

(** ** URL validation ([utils/urlValidation.js]) *)

(** [s.toLowerCase()] on code units below 256: the letters A to Z and the
    capital letters of Latin-1 are 32 below their small letters. *)
Definition lower_char (c : ascii) : ascii :=
  let n := nat_of_ascii c in
  if ((65 <=? n) && (n <=? 90) || (192 <=? n) && (n <=? 222) && negb (n =? 215))%nat
  then ascii_of_nat (n + 32) else c.

Fixpoint toLowerCase (s : string) : string :=
  match s with
  | EmptyString => EmptyString
  | String c rest => String (lower_char c) (toLowerCase rest)
  end.

(** The object [validateUrl] returns; a property it does not have is
    [None]. *)
Record url_validation := UrlValidation {
  isValid : bool;
  url_error : option string;
  url_protocol : option string
}.

Definition allowedProtocols : list string := ["http:"; "https:"; "file:"].

(** [validateUrl(url)]; [protocol_of s] is [new URL(s).protocol], [None]
    when the constructor throws. *)
Definition validateUrl (protocol_of : string -> option string) (url : jsval)
  : url_validation :=
  match url with
  | Some (JStr s) =>
      if String.eqb s "" then
        UrlValidation false (Some "URL must be a non-empty string") None
      else
        match protocol_of s with
        | None => UrlValidation false (Some "Invalid URL format") None
        | Some p =>
            let protocol := toLowerCase p in
            if String.eqb protocol "data:" then
              UrlValidation false
                (Some "data: URLs are not supported for security reasons (prevents DoS attacks)")
                (Some protocol)
            else if bool_decide (protocol ∈ allowedProtocols) then
              UrlValidation true None (Some protocol)
            else
              UrlValidation false
                (Some ("Protocol '" +:+ protocol +:+
                       "' is not supported. Only HTTP, HTTPS, and file: URLs are allowed"))
                (Some protocol)
        end
  | _ => UrlValidation false (Some "URL must be a non-empty string") None
  end.

(** [validateUrls(urls)] *)
Definition validateUrls (protocol_of : string -> option string) (urls : jsval)
  : list url_validation :=
  match urls with
  | Some (JArr items) => map (fun u => validateUrl protocol_of (Some u)) items
  | _ => [UrlValidation false (Some "Input must be an array of URLs") None]
  end.

(** A parser that knows the protocols of four addresses. *)
Definition example_protocol_of (s : string) : option string :=
  if String.eqb s "https://example.com" then Some "https:"
  else if String.eqb s "data:text/plain,test" then Some "data:"
  else if String.eqb s "ftp://example.com" then Some "ftp:"
  else if String.eqb s "file:///srv/page.html" then Some "file:"
  else None.

(** ** [prepareMerkleIndex] ([utils/merkle.js]) *)

Record module_hash := ModuleHash {
  m_path : string;
  m_hash : string
}.

Record merkle_index := MerkleIndex {
  modulePaths : list string;
  hashes : list string;
  index_merkleRoot : string
}.

(** [arr.sort(compare)] for a comparison that orders the elements
    consistently, the case in which the language fixes the result: the
    sorted arrangement in which elements that compare equal keep their
    order. *)
Fixpoint insert_by {A} (compare : A -> A -> Z) (x : A) (l : list A) : list A :=
  match l with
  | [] => [x]
  | y :: rest =>
      if (compare x y <=? 0)%Z then x :: y :: rest else y :: insert_by compare x rest
  end.

Definition sort_by {A} (compare : A -> A -> Z) (l : list A) : list A :=
  foldr (insert_by compare) [] l.

(** [prepareMerkleIndex(modules)]; [localeCompare a b] is
    [a.localeCompare(b)]. *)
Definition prepareMerkleIndex (localeCompare : string -> string -> Z)
    (modules : list module_hash) : merkle_index :=
  let sorted := sort_by (fun a b => localeCompare (m_path a) (m_path b)) modules in
  MerkleIndex (map m_path sorted) (map m_hash sorted)
              (calculateMerkleRoot (map m_hash sorted)).

(** The comparison of strings by their code units. *)
Definition code_unit_compare (a b : string) : Z :=
  if decide (a = b) then 0%Z else if decide (String.le a b) then (-1)%Z else 1%Z.

Definition example_index : list module_hash :=
  [ModuleHash "/langshake/b.json" "bb"; ModuleHash "/langshake/a.json" "aa";
   ModuleHash "/langshake/c.json" "cc"].

(** ** [JSON.stringify] *)

(** [JSON.stringify(v)]: the properties of an object in enumeration order. *)
Fixpoint JSON_stringify (v : json) : string :=
  match v with
  | JArr items => "[" +:+ String.concat "," (map JSON_stringify items) +:+ "]"
  | JObj fields =>
      "{" +:+ String.concat ","
                (map (fun kv => quote (fst kv) +:+ ":" +:+ JSON_stringify (snd kv)) fields)
          +:+ "}"
  | _ => JSON_stringify_primitive v
  end.

(** [JSON.stringify(v, listed)] with an array of names as second argument:
    of every object, at any depth, the properties whose names are listed are
    written, in the order of the list; arrays are written in full. *)
Fixpoint JSON_stringify_listed (listed : list string) (v : json) : string :=
  match v with
  | JArr items =>
      "[" +:+ String.concat "," (map (JSON_stringify_listed listed) items) +:+ "]"
  | JObj fields =>
      let rendered :=
        map (fun kv => (fst kv, JSON_stringify_listed listed (snd kv))) fields in
      "{" +:+ String.concat ","
                (omap (fun key => (fun text => quote key +:+ ":" +:+ text)
                                  <$> assoc_get key rendered) listed)
          +:+ "}"
  | _ => JSON_stringify_primitive v
  end.

(** ** The traditional crawler ([crawlers/traditional.js])

    Obtaining the page and extracting schemas from its HTML is the work of
    libraries: the crawler is given which of its sources answer and the
    list of extracted objects. *)

(** [String(context).toLowerCase().includes(...)] for the two vocabularies. *)
Definition names_vocabulary (context : json) : bool :=
  let text := toLowerCase (to_String context) in
  includes text "schema.org" || includes text "ogp.me/ns#".

(** The test of [deduplicateSchemaData] on an item. *)
Definition is_schema (item : json) : bool :=
  truthy (Some item) &&
  match get_opt (Some item) "@context" with
  | Some context => truthy (Some context) && names_vocabulary context
  | None => false
  end.

(** [JSON.stringify(item, Object.keys(item).sort())] *)
Definition item_text (item : json) : string :=
  JSON_stringify_listed (sort_keys (Object_keys item)) item.

(** The loop of [deduplicateSchemaData] from an item on, [seen] being the
    texts met so far. *)
Fixpoint deduplicate_from (seen : list string) (schemaData : list json) : list json :=
  match schemaData with
  | [] => []
  | item :: rest =>
      if is_schema item then
        if bool_decide (item_text item ∈ seen) then deduplicate_from seen rest
        else item :: deduplicate_from (item_text item :: seen) rest
      else deduplicate_from seen rest
  end.

Definition deduplicateSchemaData (schemaData : list json) : list json :=
  deduplicate_from [] schemaData.

(** The callback of [schemas.map]: a copy of the schema without its
    [checksum] property. *)
Definition without_checksum (s : json) : json :=
  let copy := match Object_entries s with Ok entries => entries | Throw _ => [] end in
  JObj (filter (fun kv => fst kv <> "checksum") copy).

(** Lines 496-520: the array built from the schemas [extracted] by the four
    extractors, in their order, once a page has been obtained:
    [[...schemasOut, checksumObj]]. *)
Definition result_with_checksum (extracted : list json) : list json :=
  let schemasOut := map without_checksum (deduplicateSchemaData extracted) in
  schemasOut ++ [JObj [("checksum", JStr (array_checksum schemasOut))]].

(** The object the crawler resolves to, [{ result, bytesDownloaded, details }],
    as a property list. *)
Definition traditional_object (result : list json) (bytesDownloaded : Z) (details : string)
  : list (string * json) :=
  [("result", JArr result); ("bytesDownloaded", JNum bytesDownloaded);
   ("details", JStr details)].

(** What [runTraditionalCrawler] gets from outside, each with the byte
    length of the HTML: the file of a [file://] address, whose read can
    throw, the page fetched with Selenium and the page fetched with Axios,
    [None] when the fetch throws. *)
Record page_sources := Sources {
  from_file : result Z;
  from_selenium : option Z;
  from_axios : option Z
}.

(** [runTraditionalCrawler(url)]; [extracted] is what the four extractors
    find in the page that was obtained.  When neither Selenium nor Axios
    obtains the page, the call returns an empty [result]. *)
Definition runTraditionalCrawler (url : string) (sources : page_sources)
    (extracted : list json) : result (list (string * json)) :=
  let found (bytesDownloaded : Z) (details : string) :=
    Ok (traditional_object (result_with_checksum extracted) bytesDownloaded details) in
  if String.prefix "file://" url then
    bytesDownloaded ← from_file sources;
    found bytesDownloaded "Loaded from local file."
  else
    match from_selenium sources with
    | Some bytesDownloaded => found bytesDownloaded "Used Selenium for dynamic crawling."
    | None =>
        match from_axios sources with
        | Some bytesDownloaded => found bytesDownloaded "Used Axios for static crawling."
        | None => Ok (traditional_object [] 0 "Failed to fetch page.")
        end
    end.

(** ** The single-page comparison and the SDK ([benchmark/compare.js],
    [index.js]) *)

(** The object the LangShake crawler resolves to; the [trust] property is
    left as the value [trust] stands for. *)
Definition langshake_object (modules trust : json) (details : string)
  : list (string * json) :=
  [("modules", modules); ("trust", trust); ("details", JStr details)].

(** An entry of [results]: [{ speed, schema, trust, details }]. *)
Record benchmark_entry := BenchmarkEntry {
  speed : Z;
  schema : jsval;
  entry_trust : jsval;
  entry_details : jsval
}.

Record benchmarks := Benchmarks {
  b_traditional : option benchmark_entry;
  b_langshake : option benchmark_entry;
  accuracy_schemaMatch : option bool
}.

Definition benchmark_of (elapsed : Z) (crawled : list (string * json)) : benchmark_entry :=
  BenchmarkEntry elapsed (assoc_get "schema" crawled) (assoc_get "trust" crawled)
                 (assoc_get "details" crawled).

(** [compareBenchmarks({ url, method })]; [traditional] and [langshake] are
    what the two crawlers resolve to, with the time each took. *)
Definition compareBenchmarks (method : string)
    (traditional langshake : Z * list (string * json)) : benchmarks :=
  let t := if String.eqb method "traditional" || String.eqb method "both"
           then Some (benchmark_of (fst traditional) (snd traditional)) else None in
  let l := if String.eqb method "langshake" || String.eqb method "both"
           then Some (benchmark_of (fst langshake) (snd langshake)) else None in
  let accuracy :=
    match t, l with
    | Some t, Some l =>
        if String.eqb method "both"
        then Some (bool_decide (JSON_stringify <$> schema t = JSON_stringify <$> schema l))
        else None
    | _, _ => None
    end in
  Benchmarks t l accuracy.

(** Extracted items: a product offered twice at different prices, and an
    item without vocabulary. *)
Definition offer (price : string) : json :=
  JObj [("@context", JStr "https://schema.org"); ("@type", JStr "Product");
        ("name", JStr "Lamp"); ("offers", JObj [("@type", JStr "Offer");
                                                ("price", JStr price)])].

Definition plain_item : json := JObj [("name", JStr "Lamp")].

(** A page that neither Selenium nor Axios obtains, and one that Axios
    obtains. *)
Definition unreachable_page : page_sources := Sources (Throw (Error "ENOENT")) None None.
Definition static_page : page_sources := Sources (Throw (Error "ENOENT")) None (Some 2048%Z).

(** [runBenchmark({ url, method: 'traditional' })]: the object the crawler
    resolved to, without a [rawJsonLd] property. *)
Definition runBenchmark_traditional (crawled : list (string * json)) : list (string * json) :=
  filter (fun kv => fst kv <> "rawJsonLd") crawled.

(** The traditional method of the command line ([cli/menu.js]): what each
    page task leaves in [results], a copy of the benchmark of the page or an
    object with the message of the error, and the root over the
    [checksum] properties of these objects.  [rejects] is the message of the
    error of [hash.update]. *)
Definition page_result (outcome : list (string * json) + string) : list (string * json) :=
  match outcome with
  | inl crawled => runBenchmark_traditional crawled
  | inr message => [("error", JStr message)]
  end.

Definition traditional_mode (rejects : json -> json -> string)
    (outcomes : list (list (string * json) + string))
  : list (list (string * json)) * result json :=
  let orderedResults := map page_result outcomes in
  let pageChecksums :=
    filter (fun c => truthy (Some c) = true)
           (map (fun r => default (JStr "") (js_or (assoc_get "checksum" r) (Some (JStr ""))))
                orderedResults) in
  (orderedResults, calculateMerkleRoot_any rejects pageChecksums).

(** ** Counting the events of a fetch *)

Fixpoint delays (log : list event) : nat :=
  match log with
  | [] => 0
  | Delay _ :: rest => S (delays rest)
  | _ :: rest => delays rest
  end.

(** The attempts from [first] to [last] fail. *)
Definition all_fail (net : nat -> response) (first last : nat) : Prop :=
  forall j, first <= j <= last -> exists message, net j = Failure message.

(** ** Two runs of the domain benchmark *)

(** Two outcomes that differ at most in their metrics. *)
Definition same_findings (o o' : outcome) : Prop :=
  match o, o' with
  | BenchmarkResult pages s _ _, BenchmarkResult pages' s' _ _ => pages = pages' /\ s = s'
  | _, _ => o = o'
  end.

(** A request that was answered, with whatever status. *)
Definition answered (r : response) : bool :=
  match r with
  | Response _ _ => true
  | Failure _ => false
  end.

(** * Properties *)

(** ** Induction on JSON values *)

Section JsonInduction.
Variable P : json -> Prop.
Hypothesis Hnull : P JNull.
Hypothesis Hbool : forall b, P (JBool b).
Hypothesis Hnum : forall n, P (JNum n).
Hypothesis Hstr : forall s, P (JStr s).
Hypothesis Harr : forall items, Forall P items -> P (JArr items).
Hypothesis Hobj : forall fields, Forall (fun kv => P (snd kv)) fields -> P (JObj fields).

Fixpoint json_ind (v : json) : P v :=
  match v with
  | JNull => Hnull
  | JBool b => Hbool b
  | JNum n => Hnum n
  | JStr s => Hstr s
  | JArr items =>
      Harr items
        ((fix all (l : list json) : Forall P l :=
            match l with
            | [] => List.Forall_nil P
            | x :: rest => @List.Forall_cons _ P x rest (json_ind x) (all rest)
            end) items)
  | JObj fields =>
      Hobj fields
        ((fix all (l : list (string * json)) : Forall (fun kv => P (snd kv)) l :=
            match l with
            | [] => List.Forall_nil _
            | kv :: rest => @List.Forall_cons _ _ kv rest (json_ind (snd kv)) (all rest)
            end) fields)
  end.
End JsonInduction.

Lemma wf_json_arr items : wf_json (JArr items) <-> Forall wf_json items.
Proof.
  simpl. induction items as [|x items IH]; simpl.
  - split; constructor.
  - rewrite IH. split.
    + intros [Hx Hrest]. constructor; assumption.
    + intros Hall. inversion Hall; subst. split; assumption.
Qed.

Lemma wf_json_obj fields :
  wf_json (JObj fields)
  <-> NoDup (map fst fields) /\ Forall (fun kv => wf_json (snd kv)) fields.
Proof.
  simpl. apply and_iff_compat_l.
  induction fields as [|kv fields IH]; simpl.
  - split; constructor.
  - rewrite IH. split.
    + intros [Hx Hrest]. constructor; assumption.
    + intros Hall. inversion Hall; subst. split; assumption.
Qed.

(** ** Decimal texts *)

Section Decimal.

Lemma pretty_N_char_digit x : is_digit (pretty_N_char x) = true.
Proof.
  unfold pretty_N_char.
  repeat match goal with
         | |- context [match ?y with _ => _ end] => destruct y
         end; reflexivity.
Qed.

Lemma pretty_N_go_digits x : forall s,
  all_digits s = true -> all_digits (pretty_N_go x s) = true.
Proof.
  induction (N.lt_wf_0 x) as [x _ IH]. intros s Hs.
  destruct (N.eq_dec x 0%N) as [->|Hpos]; [exact Hs|].
  rewrite pretty_N_go_step by lia. apply IH.
  - apply N.div_lt; lia.
  - simpl. rewrite pretty_N_char_digit. exact Hs.
Qed.

Lemma pretty_N_go_length x : forall s,
  String.length s <= String.length (pretty_N_go x s).
Proof.
  induction (N.lt_wf_0 x) as [x _ IH]. intros s.
  destruct (N.eq_dec x 0%N) as [->|Hpos]; [reflexivity|].
  rewrite pretty_N_go_step by lia.
  etransitivity; [|apply IH; apply N.div_lt; lia]. simpl. lia.
Qed.

Lemma pretty_N_digits (x : N) : all_digits (pretty x) = true /\ pretty x <> "".
Proof.
  unfold pretty, pretty_N. destruct (decide (x = 0%N)) as [->|Hpos].
  - split; [reflexivity | discriminate].
  - split; [apply pretty_N_go_digits; reflexivity|].
    rewrite pretty_N_go_step by lia. intros Hempty.
    pose proof (pretty_N_go_length (x `div` 10)
                  (String (pretty_N_char (x `mod` 10)) "")) as Hlen.
    rewrite Hempty in Hlen. simpl in Hlen. lia.
Qed.

Lemma pretty_nat_digits (n : nat) : all_digits (pretty n) = true /\ pretty n <> "".
Proof. apply pretty_N_digits. Qed.

Lemma pretty_nat_not_checksum (n : nat) : String.eqb (pretty n) "checksum" = false.
Proof.
  destruct (String.eqb_spec (pretty n) "checksum") as [Heq|]; [|reflexivity].
  destruct (pretty_nat_digits n) as [Hdigits _]. rewrite Heq in Hdigits. discriminate.
Qed.

End Decimal.
Section Merkle.

Lemma pair_induction {A} (P : list A -> Prop) :
  P [] -> (forall a, P [a]) -> (forall a b l, P l -> P (a :: b :: l)) ->
  forall l, P l.
Proof.
  intros Hnil Hone Hpair.
  assert (both : forall l, P l /\ forall a, P (a :: l)).
  { induction l as [|b l [IH1 IH2]]; split; auto. }
  intros l. apply both.
Qed.

Lemma next_level_length level :
  length (next_level level) = Nat.div2 (S (length level)).
Proof.
  induction level as [|a|a b l IH] using pair_induction; simpl in *; auto.
Qed.

Lemma next_level_lookup level i a :
  level !! (2 * i)%nat = Some a ->
  next_level level !! i
  = Some (sha256_hex (a +:+ default a (level !! (2 * i + 1)%nat))).
Proof.
  revert i. induction level as [|x|x y l IH] using pair_induction; intros i Hi.
  - destruct i; discriminate.
  - destruct i as [|i]; simpl in *.
    + congruence.
    + replace (i + S (i + 0))%nat with (S (2 * i)) in Hi by lia. discriminate.
  - destruct i as [|i].
    + simpl in *. congruence.
    + replace (2 * S i)%nat with (S (S (2 * i))) in Hi by lia.
      replace (2 * S i + 1)%nat with (S (S (2 * i + 1))) by lia.
      simpl in Hi |- *. apply IH. exact Hi.
Qed.

Lemma div2_succ_bounds n :
  2 * Nat.div2 (S n) <= S n /\ n <= 2 * Nat.div2 (S n).
Proof.
  rewrite Nat.div2_div.
  pose proof (Nat.div_mod_eq (S n) 2) as Heq.
  pose proof (Nat.mod_upper_bound (S n) 2) as Hlt.
  lia.
Qed.

Lemma next_level_collapsed level : collapsed level (next_level level).
Proof.
  split; [apply next_level_length | apply next_level_lookup].
Qed.

Lemma collapsed_unique level next :
  collapsed level next -> next = next_level level.
Proof.
  intros [Hlen Hget]. apply list_eq. intros i.
  destruct (level !! (2 * i)%nat) as [a|] eqn:Ha.
  - rewrite (Hget i a Ha). symmetry. apply next_level_lookup. exact Ha.
  - apply lookup_ge_None in Ha.
    assert (Hdiv : Nat.div2 (S (length level)) <= i).
    { pose proof (div2_succ_bounds (length level)). lia. }
    rewrite (proj2 (lookup_ge_None next i)) by lia.
    symmetry. apply lookup_ge_None. rewrite next_level_length. lia.
Qed.

Lemma div2_succ_lt n : 2 <= n -> Nat.div2 (S n) < n.
Proof.
  intros Hn. pose proof (div2_succ_bounds n). lia.
Qed.

(** One more unit of fuel than the length changes nothing. *)
Lemma merkle_loop_more fuel : forall level,
  length level <= fuel -> merkle_loop (S fuel) level = merkle_loop fuel level.
Proof.
  induction fuel as [|fuel IH]; intros level Hlen.
  - destruct level; [reflexivity | simpl in Hlen; lia].
  - change (merkle_loop (S (S fuel)) level)
      with (if (1 <? length level)%nat
            then merkle_loop (S fuel) (next_level level) else level).
    change (merkle_loop (S fuel) level)
      with (if (1 <? length level)%nat
            then merkle_loop fuel (next_level level) else level).
    destruct (1 <? length level)%nat eqn:Hlong; [|reflexivity].
    apply Nat.ltb_lt in Hlong. apply IH.
    rewrite next_level_length. pose proof (div2_succ_lt (length level)). lia.
Qed.

Lemma merkle_loop_enough fuel level :
  length level <= fuel -> merkle_loop fuel level = merkle_loop (length level) level.
Proof.
  induction fuel as [|fuel IH]; intros Hlen.
  - replace (length level) with 0 by lia. reflexivity.
  - destruct (decide (length level = S fuel)) as [->|Hne]; [reflexivity|].
    rewrite merkle_loop_more by lia. apply IH. lia.
Qed.

Lemma merkle_loop_step level :
  2 <= length level ->
  merkle_loop (length level) level
  = merkle_loop (length (next_level level)) (next_level level).
Proof.
  intros Hlen. destruct (length level) as [|n] eqn:Hn; [lia|].
  change (merkle_loop (S n) level)
    with (if (1 <? length level)%nat then merkle_loop n (next_level level) else level).
  rewrite Hn. destruct (1 <? S n)%nat eqn:Hlong.
  - apply merkle_loop_enough. rewrite next_level_length, Hn.
    pose proof (div2_succ_lt (S n)). lia.
  - apply Nat.ltb_ge in Hlong. lia.
Qed.

Lemma next_level_nonempty level : level <> [] -> next_level level <> [].
Proof. destruct level as [|a [|b l]]; simpl; congruence. Qed.

Lemma calculateMerkleRoot_step level :
  2 <= length level ->
  calculateMerkleRoot level = calculateMerkleRoot (next_level level).
Proof.
  intros Hlen. unfold calculateMerkleRoot.
  assert (Hnext : length (next_level level) <> 0).
  { intros H0. apply (next_level_nonempty level).
    - destruct level; simpl in Hlen; [lia | congruence].
    - destruct (next_level level); [reflexivity | discriminate]. }
  destruct (Nat.eqb_spec (length level) 0) as [|_]; [lia|].
  destruct (Nat.eqb_spec (length (next_level level)) 0) as [|_]; [contradiction|].
  rewrite merkle_loop_step by exact Hlen. reflexivity.
Qed.

(** The loop ends, and it ends with a single hash. *)
Lemma merkle_loop_single level :
  level <> [] -> length (merkle_loop (length level) level) = 1.
Proof.
  remember (length level) as n eqn:Hn. revert level Hn.
  induction n as [n IH] using lt_wf_ind. intros level Hn Hne.
  destruct (decide (2 <= n)) as [Hbig|Hsmall].
  - subst n. rewrite merkle_loop_step by exact Hbig.
    apply (IH (length (next_level level))); auto using next_level_nonempty.
    rewrite next_level_length. apply div2_succ_lt. exact Hbig.
  - destruct level as [|a [|b l]]; simpl in *; try congruence; try lia.
    subst n. reflexivity.
Qed.

Lemma calculateMerkleRoot_meets_spec leaves :
  merkle_root_spec leaves (calculateMerkleRoot leaves).
Proof.
  remember (length leaves) as n eqn:Hn. revert leaves Hn.
  induction n as [n IH] using lt_wf_ind. intros leaves Hn.
  destruct (decide (2 <= n)) as [Hbig|Hsmall].
  - subst n. rewrite calculateMerkleRoot_step by exact Hbig.
    apply root_of_level with (next := next_level leaves); auto using next_level_collapsed.
    apply (IH (length (next_level leaves))); auto.
    rewrite next_level_length. apply div2_succ_lt. exact Hbig.
  - destruct leaves as [|a [|b l]]; simpl in *; try lia; constructor.
Qed.

Lemma merkle_root_spec_unique leaves r :
  merkle_root_spec leaves r -> r = calculateMerkleRoot leaves.
Proof.
  induction 1 as [|h|level next r Hlen Hnext _ IH]; try reflexivity.
  rewrite calculateMerkleRoot_step by exact Hlen.
  rewrite <- (collapsed_unique _ _ Hnext). exact IH.
Qed.

End Merkle.

(** C1. [calculateMerkleRoot] returns the empty string on no leaves and the
    leaf itself on a single leaf; on two or more leaves it is the root of
    the level obtained by hashing the concatenated texts of each adjacent
    pair, a dangling last leaf paired with itself; the loop ends with exactly
    one hash; the result is the one root the specification describes, hence
    the same for the same leaves. *)
Theorem calculateMerkleRoot_correct :
  calculateMerkleRoot [] = "" /\
  (forall h, calculateMerkleRoot [h] = h) /\
  (forall leaves, 2 <= length leaves ->
     collapsed leaves (next_level leaves) /\
     calculateMerkleRoot leaves = calculateMerkleRoot (next_level leaves)) /\
  (forall leaves, leaves <> [] ->
     exists root, merkle_loop (length leaves) leaves = [root] /\
                  calculateMerkleRoot leaves = root) /\
  (forall leaves r, merkle_root_spec leaves r <-> r = calculateMerkleRoot leaves).
Proof.
  split; [reflexivity|]. split; [reflexivity|]. split; [|split].
  - intros leaves Hlen. split.
    + apply next_level_collapsed.
    + apply calculateMerkleRoot_step. exact Hlen.
  - intros leaves Hne. pose proof (merkle_loop_single leaves Hne) as Hone.
    unfold calculateMerkleRoot.
    destruct (Nat.eqb_spec (length leaves) 0) as [H0|_].
    { destruct leaves; [congruence | discriminate]. }
    destruct (merkle_loop (length leaves) leaves) as [|root [|x rest]]; try discriminate.
    exists root. split; reflexivity.
  - intros leaves r. split.
    + apply merkle_root_spec_unique.
    + intros ->. apply calculateMerkleRoot_meets_spec.
Qed.

Lemma calculateMerkleRoot_correct_witness :
  2 <= length ["aa"; "bb"; "cc"] /\
  collapsed ["aa"; "bb"; "cc"] (next_level ["aa"; "bb"; "cc"]) /\
  calculateMerkleRoot ["aa"; "bb"; "cc"]
  = calculateMerkleRoot (next_level ["aa"; "bb"; "cc"]).
Proof.
  split; [simpl; lia|].
  apply (proj1 (proj2 (proj2 calculateMerkleRoot_correct)) ["aa"; "bb"; "cc"]).
  simpl. lia.
Defined.

(** ** Sparse arrays and the settling of tasks *)

Section SparseArrays.
Context {A : Type}.
Implicit Types (a : sparse A) (i j : nat) (x : A).

Lemma array_set_length a i x :
  length (array_set a i x) = length a `max` S i.
Proof.
  unfold array_set. case_decide as Hi.
  - rewrite length_insert. lia.
  - rewrite !length_app, length_replicate. simpl. lia.
Qed.

Lemma array_set_lookup a i x : array_set a i x !! i = Some (Some x).
Proof.
  unfold array_set. case_decide as Hi.
  - apply list_lookup_insert_eq. exact Hi.
  - rewrite lookup_app_r by lia.
    rewrite lookup_app_r by (rewrite length_replicate; lia).
    rewrite length_replicate. replace (i - length a - (i - length a)) with 0 by lia.
    reflexivity.
Qed.

Lemma array_set_lookup_other a i j x :
  j <> i -> j < length a -> array_set a i x !! j = a !! j.
Proof.
  intros Hne Hj. unfold array_set. case_decide as Hi.
  - apply list_lookup_insert_ne. congruence.
  - apply lookup_app_l. exact Hj.
Qed.

Variable (off : nat) (g : nat -> A).

Lemma write_all_snoc a order i :
  write_all off g a (order ++ [i]) = array_set (write_all off g a order) (off + i) (g i).
Proof. unfold write_all. rewrite foldl_app. reflexivity. Qed.

Lemma write_all_length a order n :
  Forall (fun i => i < n) order ->
  length a <= length (write_all off g a order) <= length a `max` (off + n).
Proof.
  induction order as [|i order IH] using rev_ind; intros Hall.
  - simpl. lia.
  - apply Forall_app in Hall as [Hall Hi]. rewrite Forall_singleton in Hi. rewrite write_all_snoc, array_set_length.
    specialize (IH Hall). lia.
Qed.

Lemma write_all_covers a order i :
  i ∈ order -> off + i < length (write_all off g a order).
Proof.
  induction order as [|k order IH] using rev_ind; intros Hin.
  - inversion Hin.
  - rewrite write_all_snoc, array_set_length.
    apply elem_of_app in Hin as [Hin|Hin].
    + specialize (IH Hin). lia.
    + rewrite list_elem_of_singleton in Hin. subst k. lia.
Qed.

Lemma write_all_written a order i :
  i ∈ order -> write_all off g a order !! (off + i) = Some (Some (g i)).
Proof.
  induction order as [|k order IH] using rev_ind; intros Hin.
  - inversion Hin.
  - rewrite write_all_snoc.
    destruct (decide (i = k)) as [->|Hne]; [apply array_set_lookup|].
    apply elem_of_app in Hin as [Hin|Hin].
    + rewrite array_set_lookup_other by (auto using write_all_covers; lia).
      apply IH. exact Hin.
    + rewrite list_elem_of_singleton in Hin. contradiction.
Qed.

Lemma write_all_kept a order j :
  j < off -> j < length a -> write_all off g a order !! j = a !! j.
Proof.
  intros Hoff Hj. induction order as [|k order IH] using rev_ind; [reflexivity|].
  rewrite write_all_snoc, array_set_lookup_other; [exact IH | lia |].
  pose proof (write_all_length a order (S (list_max order))) as Hlen.
  assert (length a <= length (write_all off g a order)); [|lia].
  apply Hlen. apply Forall_forall. intros i Hi.
  pose proof (proj1 (list_max_le order (list_max order)) (Nat.le_refl _)) as Hmax.
  rewrite List.Forall_forall in Hmax. apply list_elem_of_In in Hi.
  specialize (Hmax i Hi). lia.
Qed.

(** Whatever the order in which the tasks settle, each result ends in the
    slot of its own index and the array has no hole. *)
Lemma write_all_fair a order n :
  order ≡ₚ seq 0 n -> length a = off ->
  write_all off g a order = a ++ map (fun i => Some (g i)) (seq 0 n).
Proof.
  intros Hperm Hoff. apply list_eq. intros j.
  assert (Hall : Forall (fun i => i < n) order).
  { apply Forall_forall. intros i Hi. rewrite Hperm in Hi.
    apply elem_of_seq in Hi. lia. }
  pose proof (write_all_length a order n Hall) as Hlen.
  destruct (decide (j < off)) as [Hlow|Hhigh].
  - rewrite write_all_kept by lia. rewrite lookup_app_l by lia. reflexivity.
  - rewrite lookup_app_r by lia. rewrite Hoff.
    destruct (decide (j - off < n)) as [Hin|Hout].
    + replace j with (off + (j - off)) at 1 by lia.
      rewrite write_all_written.
      * rewrite list_lookup_fmap, lookup_seq_lt by exact Hin. reflexivity.
      * rewrite Hperm. apply elem_of_seq. lia.
    + rewrite (proj2 (lookup_ge_None _ j)) by lia.
      symmetry. apply lookup_ge_None. rewrite length_map, length_seq. lia.
Qed.

End SparseArrays.

Section Settling.
(** A phase whose task of index [i] writes [slot_of i] at [off + i] and
    appends [reqs i] and [errs i] to the metrics. *)
Variables (off n : nat) (slot_of : nat -> slot).
Variables (reqs : nat -> list (json * nat)) (errs : nat -> list (json * string)).
Variable task : phase -> nat -> phase.

Hypothesis task_settles : forall st idx, idx < n ->
  task st idx
  = Phase (array_set (results st) (off + idx) (slot_of idx))
          (Metrics (requests (metrics st) ++ reqs idx)
                   (errors (metrics st) ++ errs idx)).

Lemma tasks_settle st order :
  Forall (fun i => i < n) order ->
  foldl task st order
  = Phase (write_all off slot_of (results st) order)
          (Metrics (requests (metrics st) ++ concat (map reqs order))
                   (errors (metrics st) ++ concat (map errs order))).
Proof.
  revert st. induction order as [|i order IH]; intros st Hall.
  - simpl. rewrite !app_nil_r. destruct st as [r [rq er]]. reflexivity.
  - apply Forall_cons in Hall as [Hi Hall]. simpl foldl.
    rewrite IH by exact Hall. rewrite task_settles by exact Hi.
    simpl. rewrite <- !app_assoc. reflexivity.
Qed.

Lemma fair_below order : order ≡ₚ seq 0 n -> Forall (fun i => i < n) order.
Proof.
  intros Hperm. apply Forall_forall. intros i Hi. rewrite Hperm in Hi.
  apply elem_of_seq in Hi. lia.
Qed.

(** The slots do not depend on the order in which the tasks settle. *)
Lemma tasks_results st order :
  order ≡ₚ seq 0 n -> length (results st) = off ->
  results (foldl task st order)
  = results st ++ map (fun i => Some (slot_of i)) (seq 0 n).
Proof.
  intros Hperm Hoff. rewrite tasks_settle by (apply fair_below; exact Hperm).
  simpl. apply write_all_fair; assumption.
Qed.

(** The error list is made of the errors of the tasks, in settling order. *)
Lemma tasks_errors st order :
  order ≡ₚ seq 0 n ->
  errors (metrics (foldl task st order))
  ≡ₚ errors (metrics st) ++ concat (map errs (seq 0 n)).
Proof.
  intros Hperm. rewrite tasks_settle by (apply fair_below; exact Hperm).
  simpl. rewrite Hperm. reflexivity.
Qed.

Lemma tasks_requests st order :
  order ≡ₚ seq 0 n ->
  requests (metrics (foldl task st order))
  ≡ₚ requests (metrics st) ++ concat (map reqs (seq 0 n)).
Proof.
  intros Hperm. rewrite tasks_settle by (apply fair_below; exact Hperm).
  simpl. rewrite Hperm. reflexivity.
Qed.

End Settling.

Section Phases.
Variable W : World.

Lemma module_task_settles modUrl answer idx st :
  module_task modUrl answer idx st
  = Phase (array_set (results st) (1 + idx) (module_slot modUrl answer))
          (Metrics (requests (metrics st) ++ module_requests modUrl answer)
                   (errors (metrics st) ++ module_errors modUrl answer)).
Proof.
  unfold module_task, settle, recordError, recordRequest.
  rewrite (Nat.add_comm idx 1).
  destruct answer as [statusCode modJson|message]; simpl.
  - destruct modJson; simpl; try reflexivity;
      match goal with
      | |- context [process_module ?u ?j] => destruct (process_module u j)
      end; simpl; rewrite ?app_nil_r; try reflexivity.
    all: destruct (metrics st); reflexivity.
  - rewrite app_nil_r. reflexivity.
Qed.

Lemma langshake_task_settles moduleUrls st idx :
  idx < length moduleUrls ->
  match moduleUrls !! idx with
  | Some modUrl => module_task modUrl (module_answer W idx) idx st
  | None => st
  end
  = Phase (array_set (results st) (1 + idx) (module_slot_at W moduleUrls idx))
          (Metrics (requests (metrics st)
                      ++ module_requests (module_url_at moduleUrls idx) (module_answer W idx))
                   (errors (metrics st)
                      ++ module_errors (module_url_at moduleUrls idx) (module_answer W idx))).
Proof.
  intros Hidx. unfold module_slot_at, module_url_at.
  destruct (lookup_lt_is_Some_2 moduleUrls idx Hidx) as [modUrl ->].
  apply module_task_settles.
Qed.

Lemma langshake_results order moduleUrls st :
  order ≡ₚ seq 0 (length moduleUrls) -> length (results st) = 1 ->
  results (langshake_tasks W order moduleUrls st)
  = results st ++ map (fun i => Some (module_slot_at W moduleUrls i))
                      (seq 0 (length moduleUrls)).
Proof.
  intros Hperm Hlen. unfold langshake_tasks.
  apply (tasks_results 1 (length moduleUrls) _ _ _ _
           (fun st idx => langshake_task_settles moduleUrls st idx));
    assumption.
Qed.

End Phases.

Lemma imap_map_seq {A B} (g : nat -> A -> B) (f : nat -> A) n :
  imap g (map f (seq 0 n)) = map (fun i => g i (f i)) (seq 0 n).
Proof.
  apply list_eq. intros i. rewrite list_lookup_imap, !list_lookup_fmap.
  destruct (decide (i < n)) as [Hi|Hi].
  - rewrite lookup_seq_lt by exact Hi. reflexivity.
  - rewrite lookup_seq_ge by lia. reflexivity.
Qed.

Lemma lookup_map_seq {A} (f : nat -> A) n i :
  i < n -> map f (seq 0 n) !! i = Some (f i).
Proof. intros Hi. rewrite list_lookup_fmap, lookup_seq_lt by exact Hi. reflexivity. Qed.

Section Pages.
Variable W : World.

Lemma page_task_settles e answer idx st :
  page_task e answer idx st
  = Phase (array_set (results st) (0 + idx) (page_slot e answer))
          (Metrics (requests (metrics st) ++ page_requests e answer)
                   (errors (metrics st) ++ page_errors e answer)).
Proof.
  unfold page_task, page_slot, page_errors, page_requests, settle,
    recordError, recordRequest.
  destruct answer as [traditionalArr bytes|x]; simpl.
  - fold (crawled_records traditionalArr).
    destruct (last (crawled_records traditionalArr)) as [l|]; simpl.
    + destruct l; simpl; rewrite ?app_nil_r;
        try match goal with
            | |- context [truthy ?c] => destruct (truthy c)
            end; reflexivity.
    + rewrite app_nil_r. reflexivity.
  - rewrite app_nil_r. reflexivity.
Qed.

Variable moduleUrls : list string.
Let n := length moduleUrls.
Let entries : sparse entry :=
  map (fun i => Some (entry_of (module_slot_at W moduleUrls i))) (seq 0 n).

Lemma mainEntityUrls_closed manifest_slot :
  mainEntityUrls_of
    ([Some manifest_slot] ++ map (fun i => Some (module_slot_at W moduleUrls i)) (seq 0 n))
  = entries.
Proof.
  unfold mainEntityUrls_of, sparse_map, entries. simpl. rewrite drop_0.
  rewrite imap_map_seq. reflexivity.
Qed.

Lemma entries_length : length entries = n.
Proof. unfold entries. rewrite length_map, length_seq. reflexivity. Qed.

Lemma traditional_task_settles st idx :
  idx < n ->
  match entries !! idx with
  | Some (Some e) => page_task e (crawl_answer W idx) idx st
  | _ => st
  end
  = Phase (array_set (results st) (0 + idx) (page_slot_at W moduleUrls idx))
          (Metrics (requests (metrics st)
                      ++ page_requests (entry_of (module_slot_at W moduleUrls idx))
                                       (crawl_answer W idx))
                   (errors (metrics st)
                      ++ page_errors (entry_of (module_slot_at W moduleUrls idx))
                                     (crawl_answer W idx))).
Proof.
  intros Hidx. unfold entries. rewrite lookup_map_seq by exact Hidx.
  apply page_task_settles.
Qed.

Lemma traditional_results order :
  order ≡ₚ seq 0 n ->
  results (traditional_tasks W order entries (Phase [] new_MetricsCollector))
  = map (fun i => Some (page_slot_at W moduleUrls i)) (seq 0 n).
Proof.
  intros Hperm. unfold traditional_tasks.
  rewrite (tasks_results 0 n _ _ _ _ traditional_task_settles) by (auto; reflexivity).
  reflexivity.
Qed.

Lemma compare_page_closed manifest_slot i :
  i < n ->
  compare_page
    ([Some manifest_slot] ++ map (fun i => Some (module_slot_at W moduleUrls i)) (seq 0 n))
    (map (fun i => Some (page_slot_at W moduleUrls i)) (seq 0 n))
    i (entry_of (module_slot_at W moduleUrls i))
  = page_at W moduleUrls i.
Proof.
  intros Hi. unfold page_at, compare_page, slot_field.
  rewrite (Nat.add_comm i 1). simpl lookup.
  rewrite !lookup_map_seq by exact Hi. reflexivity.
Qed.

Lemma pages_closed manifest_slot :
  sparse_map
    (compare_page
       ([Some manifest_slot] ++ map (fun i => Some (module_slot_at W moduleUrls i)) (seq 0 n))
       (map (fun i => Some (page_slot_at W moduleUrls i)) (seq 0 n)))
    entries
  = pages_of W moduleUrls.
Proof.
  unfold sparse_map, entries, pages_of. rewrite imap_map_seq. fold n.
  apply map_ext_in. intros i Hi. apply in_seq in Hi.
  rewrite <- (compare_page_closed manifest_slot i) by lia. reflexivity.
Qed.

End Pages.

Section Run.
Variables (W : World) (S : Schedule).
Hypothesis fair_langshake : fair (langshake_order S).
Hypothesis fair_traditional : fair (traditional_order S).

(** The slots of the LangShake phase: the manifest, then one slot per
    module URL at the index of the module. *)
Lemma langshake_phase_results llmUrl statusCode llmJson moduleUrls :
  results (langshake_phase W (langshake_order S) llmUrl statusCode llmJson moduleUrls)
  = [Some (Slot success (JStr llmUrl) (Some llmJson) None None None)]
    ++ map (fun i => Some (module_slot_at W moduleUrls i)) (seq 0 (length moduleUrls)).
Proof.
  unfold langshake_phase. rewrite langshake_results; auto.
Qed.

Lemma langshake_phase_errors llmUrl statusCode llmJson moduleUrls :
  errors (metrics (langshake_phase W (langshake_order S) llmUrl statusCode llmJson moduleUrls))
  ≡ₚ concat (map (fun i => module_errors (module_url_at moduleUrls i) (module_answer W i))
                 (seq 0 (length moduleUrls))).
Proof.
  unfold langshake_phase, langshake_tasks.
  rewrite (tasks_errors 1 (length moduleUrls) _ _ _ _
             (fun st idx => langshake_task_settles W moduleUrls st idx)) by auto.
  reflexivity.
Qed.

(** Once the second fetch of the manifest has answered, the benchmark
    completes, and its pages are those of the modules in manifest order. *)
Lemma run_phases_completes llmUrl root statusCode llmJson modules :
  manifest_second W = Response statusCode llmJson ->
  get llmJson "modules" = Ok modules ->
  let moduleUrls := module_urls W modules in
  let done := langshake_phase W (langshake_order S) llmUrl statusCode llmJson moduleUrls in
  exists traditionalMetrics,
    run_phases W S llmUrl root
    = ([Get (plain_request llmUrl)]
         ++ map (fun u => Get (plain_request u)) moduleUrls
         ++ map (fun i => Crawl (url (module_slot_at W moduleUrls i)))
                (seq 0 (length moduleUrls)),
       BenchmarkResult (pages_of W moduleUrls)
                       (summarize root (pages_of W moduleUrls))
                       (metrics done) traditionalMetrics).
Proof.
  intros Hsecond Hmodules moduleUrls done. unfold run_phases.
  rewrite Hsecond, Hmodules. cbv zeta. fold moduleUrls.
  rewrite langshake_phase_results.
  rewrite mainEntityUrls_closed. unfold traditional_phase.
  rewrite entries_length. rewrite traditional_results by auto.
  rewrite pages_closed.
  eexists. f_equal. f_equal. f_equal.
  generalize (seq 0 (length moduleUrls)). intros l.
  induction l as [|i l IH]; [reflexivity|]. simpl. rewrite <- IH. reflexivity.
Qed.

End Run.
(** ** Reading a module payload *)

Section Reading.

Lemma indexed_length {A} (l : list A) : length (indexed l) = length l.
Proof. unfold indexed. apply length_imap. Qed.

Lemma assoc_get_singleton {A} key k (v : A) :
  is_Some (assoc_get key [(k, v)]) -> k = key.
Proof.
  simpl. destruct (String.eqb_spec k key); [auto|]. intros [x Hx]. discriminate.
Qed.

Lemma checksum_form_exact modJson :
  checksum_form modJson = true <-> exact_checksum_form modJson.
Proof.
  unfold exact_checksum_form. split.
  - destruct modJson as [| | | |items|]; try discriminate. simpl.
    intros Hform. apply andb_true_iff in Hform as [Hlen Hlast].
    apply Nat.ltb_lt in Hlen.
    destruct (last items) as [[| | | |inner|fields]|] eqn:Hitems; try discriminate.
    + apply andb_true_iff in Hlast as [_ Hin]. discriminate.
    + apply andb_true_iff in Hlast as [Hkeys Hin].
      apply Nat.eqb_eq in Hkeys. unfold Object_keys in Hkeys. simpl in Hkeys.
      rewrite length_map in Hkeys.
      destruct fields as [|[k c] [|? ?]]; try discriminate.
      apply bool_decide_eq_true in Hin. apply assoc_get_singleton in Hin as ->.
      apply last_Some in Hitems as [records ->].
      exists records, c. split; [reflexivity|].
      intros ->. simpl in Hlen. lia.
  - intros (records & c & -> & Hne). simpl.
    rewrite last_snoc, length_app. simpl.
    destruct (Nat.ltb_spec 1 (length records + 1)) as [_|Hshort].
    + reflexivity.
    + destruct records; [contradiction | simpl in Hshort; lia].
Qed.

Lemma strict_equal_refl u : strict_equal true u u = true.
Proof.
  destruct u as [[|b|n|t|l|f]|]; simpl; auto.
  - destruct b; reflexivity.
  - apply Z.eqb_refl.
  - apply String.eqb_refl.
Qed.

Lemma getUrl_object fields :
  getUrl (JObj fields)
  = Ok (js_or (assoc_get "url" fields) (assoc_get "og:url" fields)).
Proof.
  unfold getUrl, js_or. simpl.
  destruct (truthy (assoc_get "url" fields)); reflexivity.
Qed.

Lemma allUrlsMatch_single fields : allUrlsMatch [JObj fields] = Ok true.
Proof.
  unfold allUrlsMatch, every_url. rewrite getUrl_object. simpl.
  rewrite strict_equal_refl. reflexivity.
Qed.

Lemma object_payload_succeeds modUrl statusCode fields :
  status (module_slot modUrl (Response statusCode (JObj fields))) = success.
Proof.
  unfold module_slot, process_module, read_module.
  rewrite getUrl_object. cbn -[allUrlsMatch].
  destruct (truthy (js_or _ _)); cbn -[allUrlsMatch].
  - rewrite allUrlsMatch_single. reflexivity.
  - reflexivity.
Qed.

End Reading.

Lemma bind_Ok {A B} (r : result A) (k : A -> result B) b :
  r ≫= k = Ok b -> exists a, r = Ok a /\ k a = Ok b.
Proof. destruct r as [a|e]; [eauto | discriminate]. Qed.

Lemma read_module_array items reading :
  read_module (JArr items) = Ok reading ->
  if checksum_form (JArr items)
  then filter_result has_url (removelast items) = Ok (schemasArr reading) /\
       get_opt (last items) "checksum" = Some (checksumOriginal reading)
  else filter_result has_url items = Ok (schemasArr reading) /\
       checksumOriginal reading = JNull.
Proof.
  unfold read_module.
  destruct (checksum_form (JArr items)) eqn:Hform; intros Hread.
  - apply checksum_form_exact in Hform as (records & c & Heq & _).
    injection Heq as ->. rewrite last_snoc in *. simpl in Hread.
    apply bind_Ok in Hread as (schemas & Hfilter & Hread).
    apply bind_Ok in Hread as (first & _ & Hread).
    injection Hread as <-. simpl. auto.
  - apply bind_Ok in Hread as (schemas & Hfilter & Hread).
    injection Hread as <-. auto.
Qed.

Section SubjectUrls.

Lemma getUrl_url_of r : r <> JNull -> getUrl r = Ok (url_of r).
Proof.
  destruct r; try contradiction; intros _; try reflexivity.
  apply getUrl_object.
Qed.

Lemma has_url_url_of r : r <> JNull -> has_url r = Ok (truthy (url_of r)).
Proof. intros Hr. unfold has_url. rewrite getUrl_url_of by exact Hr. reflexivity. Qed.

Lemma filter_result_has_url records :
  Forall (fun r => r <> JNull) records ->
  filter_result has_url records
  = Ok (filter (fun r => truthy (url_of r) = true) records).
Proof.
  induction 1 as [|r records Hr _ IH]; [reflexivity|].
  cbn [filter_result]. rewrite has_url_url_of by exact Hr. rewrite IH.
  cbn [mbind result_bind].
  destruct (truthy (url_of r)) eqn:Hu.
  - rewrite filter_cons_True by exact Hu. reflexivity.
  - rewrite filter_cons_False by congruence. reflexivity.
Qed.

Lemma strict_equal_eq same x y : strict_equal same x y = true -> same = false -> x = y.
Proof.
  intros Heq ->. destruct x as [[]|], y as [[]|]; simpl in Heq; try discriminate; auto.
  - apply Bool.eqb_prop in Heq. congruence.
  - apply Z.eqb_eq in Heq. congruence.
  - apply String.eqb_eq in Heq. congruence.
Qed.

(** The loop of [every]: it never throws on records that are not [null],
    and it answers [true] exactly when every record after the one the URL
    was read from has that URL, by [===]. *)
Lemma every_url_true u i schemas :
  Forall (fun r => r <> JNull) schemas ->
  every_url u i schemas = Ok true ->
  forall k r, schemas !! k = Some r -> i + k <> 0 -> url_of r = u.
Proof.
  intros Hall. revert i. induction Hall as [|r0 schemas Hr0 _ IH]; intros i Hevery k r Hk Hpos.
  - destruct k; discriminate.
  - cbn [every_url] in Hevery. rewrite getUrl_url_of in Hevery by exact Hr0.
    cbn [mbind result_bind] in Hevery.
    destruct (strict_equal (bool_decide (i = 0)) (url_of r0) u) eqn:Heq; [|discriminate].
    destruct k as [|k].
    + injection Hk as <-. apply (strict_equal_eq _ _ _ Heq).
      apply bool_decide_eq_false. lia.
    + apply (IH (S i) Hevery k r Hk). lia.
Qed.

Lemma every_url_total u i schemas :
  Forall (fun r => r <> JNull) schemas ->
  exists b, every_url u i schemas = Ok b.
Proof.
  intros Hall. revert i. induction Hall as [|r0 schemas Hr0 _ IH]; intros i.
  - exists true. reflexivity.
  - cbn [every_url]. rewrite getUrl_url_of by exact Hr0. cbn [mbind result_bind].
    destruct (strict_equal _ _ _); [apply IH | eauto].
Qed.

Lemma every_url_same (t : string) i schemas :
  Forall (fun r => url_of r = Some (JStr t)) schemas ->
  every_url (Some (JStr t)) i schemas = Ok true.
Proof.
  intros Hall. revert i. induction Hall as [|r0 schemas Hr0 _ IH]; intros i; [reflexivity|].
  cbn [every_url]. rewrite getUrl_url_of by (intros ->; discriminate).
  rewrite Hr0. cbn [mbind result_bind]. simpl strict_equal.
  rewrite String.eqb_refl. apply IH.
Qed.

Lemma allUrlsMatch_disagree schemas r1 r2 :
  Forall (fun r => r <> JNull) schemas ->
  r1 ∈ schemas -> r2 ∈ schemas -> url_of r1 <> url_of r2 ->
  allUrlsMatch schemas = Ok false.
Proof.
  intros Hall H1 H2 Hne. destruct schemas as [|first rest]; [inversion H1|].
  unfold allUrlsMatch. rewrite getUrl_url_of by (inversion Hall; assumption).
  cbn [mbind result_bind].
  destruct (every_url_total (url_of first) 0 (first :: rest) Hall) as [[|] Hevery];
    [|exact Hevery].
  exfalso. apply Hne.
  assert (Hsame : forall r, r ∈ first :: rest -> url_of r = url_of first).
  { intros r Hr. apply list_elem_of_lookup in Hr as [k Hk].
    destruct k as [|k]; [injection Hk as <-; reflexivity|].
    apply (every_url_true _ 0 _ Hall Hevery (S k) r Hk). lia. }
  rewrite (Hsame r1 H1), (Hsame r2 H2). reflexivity.
Qed.

Lemma allUrlsMatch_agree (t : string) schemas :
  Forall (fun r => url_of r = Some (JStr t)) schemas ->
  allUrlsMatch schemas = Ok true.
Proof.
  intros Hall. destruct schemas as [|first rest]; [reflexivity|].
  unfold allUrlsMatch. rewrite getUrl_url_of.
  - cbn [mbind result_bind]. inversion Hall as [|? ? Hfirst _]; subst.
    rewrite Hfirst. apply every_url_same. exact Hall.
  - inversion Hall as [|? ? Hfirst _]; subst. intros ->. discriminate.
Qed.

(** How an array payload whose records are not [null] is read. *)
Lemma read_module_records items :
  Forall (fun r => r <> JNull) (records_of items) ->
  read_module (JArr items)
  = Ok (Reading (filter (fun r => truthy (url_of r) = true) (records_of items))
                (declared_checksum items)
                (or_null (default None (url_of <$> head items)))).
Proof.
  unfold records_of, declared_checksum, read_module.
  destruct (checksum_form (JArr items)) eqn:Hform; intros Hall.
  - apply checksum_form_exact in Hform as (records & c & Heq & Hne).
    injection Heq as ->. rewrite last_snoc. rewrite removelast_last in *.
    rewrite filter_result_has_url by exact Hall.
    destruct records as [|first rest]; [contradiction|].
    cbn [app head default]. rewrite getUrl_url_of by (inversion Hall; assumption).
    reflexivity.
  - rewrite filter_result_has_url by exact Hall. cbn [mbind result_bind].
    destruct items as [|first rest]; [reflexivity|]. cbn [head].
    inversion Hall as [|? ? Hfirst _]; subst.
    destruct first; try contradiction; reflexivity.
Qed.

End SubjectUrls.

Section ModuleSlots.

Lemma filter_all {A} (P : A -> Prop) `{forall x, Decision (P x)} (l : list A) :
  Forall P l -> filter P l = l.
Proof.
  induction 1 as [|x l Hx _ IH]; [reflexivity|].
  rewrite filter_cons_True by exact Hx. rewrite IH. reflexivity.
Qed.

Lemma filter_none {A} (P : A -> Prop) `{forall x, Decision (P x)} (l : list A) :
  Forall (fun x => ~ P x) l -> filter P l = [].
Proof.
  induction 1 as [|x l Hx _ IH]; [reflexivity|].
  rewrite filter_cons_False by exact Hx. exact IH.
Qed.

Lemma null_or_not (records : list json) :
  Forall (fun r => r <> JNull) records \/ JNull ∈ records.
Proof.
  induction records as [|r records [IH|IH]].
  - left. constructor.
  - destruct r; try (left; constructor; [discriminate | exact IH]).
    right. constructor.
  - right. constructor. exact IH.
Qed.

Lemma filter_result_null records :
  JNull ∈ records -> exists e, filter_result has_url records = Throw e.
Proof.
  induction records as [|r records IH]; intros Hin; [inversion Hin|].
  cbn [filter_result]. destruct r; try (eexists; reflexivity);
    (apply elem_of_cons in Hin as [Hin|Hin]; [discriminate|]);
    destruct (IH Hin) as [e He]; rewrite He;
    match goal with
    | |- context [has_url ?r] => rewrite (has_url_url_of r) by discriminate
    end; eexists; reflexivity.
Qed.

Lemma read_module_null items :
  JNull ∈ records_of items -> exists e, read_module (JArr items) = Throw e.
Proof.
  unfold records_of, read_module.
  destruct (checksum_form (JArr items)) eqn:Hform; intros Hin.
  - apply checksum_form_exact in Hform as (records & c & Heq & Hne).
    injection Heq as ->. rewrite last_snoc. rewrite removelast_last in *.
    destruct (filter_result_null _ Hin) as [e He]. rewrite He.
    eexists. reflexivity.
  - destruct (filter_result_null _ Hin) as [e He]. rewrite He.
    eexists. reflexivity.
Qed.

Lemma module_task_caught modUrl statusCode items e idx st :
  process_module modUrl (JArr items) = Throw e ->
  module_task modUrl (Response statusCode (JArr items)) idx st
  = Phase (array_set (results st) (idx + 1) (error_slot (JStr modUrl)))
          (recordError (JStr modUrl) (exn_toString e)
             (recordRequest (JStr modUrl) statusCode (metrics st))).
Proof. intros Hthrow. unfold module_task. rewrite Hthrow. reflexivity. Qed.

Lemma module_task_success modUrl statusCode items r idx st :
  process_module modUrl (JArr items) = Ok r ->
  module_task modUrl (Response statusCode (JArr items)) idx st
  = Phase (array_set (results st) (idx + 1) r)
          (recordRequest (JStr modUrl) statusCode (metrics st)).
Proof. intros Hok. unfold module_task. rewrite Hok. reflexivity. Qed.

Lemma filter_subseteq_records items :
  forall r, r ∈ filter (fun r => truthy (url_of r) = true) (records_of items) ->
            r ∈ records_of items /\ truthy (url_of r) = true.
Proof. intros r Hr. apply list_elem_of_filter in Hr. tauto. Qed.

Lemma process_module_disagree modUrl items r1 r2 :
  r1 ∈ records_of items -> r2 ∈ records_of items ->
  truthy (url_of r1) = true -> truthy (url_of r2) = true ->
  url_of r1 <> url_of r2 ->
  exists e, process_module modUrl (JArr items) = Throw e /\
            (Forall (fun r => r <> JNull) (records_of items) -> e = differing_urls modUrl).
Proof.
  intros H1 H2 Ht1 Ht2 Hne. unfold process_module.
  destruct (null_or_not (records_of items)) as [Hall|Hnull].
  - rewrite read_module_records by exact Hall. cbn [mbind result_bind schemasArr].
    rewrite (allUrlsMatch_disagree _ r1 r2).
    + eexists. split; reflexivity.
    + apply Forall_forall. intros r Hr. apply filter_subseteq_records in Hr as [Hr _].
      rewrite Forall_forall in Hall. apply Hall. exact Hr.
    + apply list_elem_of_filter. auto.
    + apply list_elem_of_filter. auto.
    + exact Hne.
  - destruct (read_module_null items Hnull) as [e He]. rewrite He.
    exists e. split; [reflexivity|]. intros Hall.
    rewrite Forall_forall in Hall. exfalso. apply (Hall JNull Hnull). reflexivity.
Qed.

Lemma head_records items r :
  records_of items <> [] -> head items = Some r -> r ∈ records_of items.
Proof.
  unfold records_of. destruct (checksum_form (JArr items)) eqn:Hform; intros Hne Hhead.
  - apply checksum_form_exact in Hform as (records & c & Heq & _).
    injection Heq as ->. rewrite removelast_last in *.
    destruct records as [|first rest]; [contradiction|].
    simpl in Hhead. injection Hhead as <-. constructor.
  - destruct items; [discriminate|]. injection Hhead as <-. constructor.
Qed.

Lemma head_of_records items :
  records_of items <> [] -> exists r, head items = Some r /\ r ∈ records_of items.
Proof.
  intros Hne. destruct items as [|first rest] eqn:Hitems.
  - unfold records_of in Hne. simpl in Hne. contradiction.
  - exists first. split; [reflexivity|]. apply head_records; auto.
Qed.

Lemma process_module_agree modUrl items (t : string) :
  records_of items <> [] -> t <> "" ->
  Forall (fun r => url_of r = Some (JStr t)) (records_of items) ->
  process_module modUrl (JArr items)
  = Ok (Slot success (JStr t) None (Some (records_of items))
             (Some (declared_checksum items)) None).
Proof.
  intros Hne Ht Hall. unfold process_module.
  assert (Hnonnull : Forall (fun r => r <> JNull) (records_of items)).
  { eapply Forall_impl; [exact Hall|]. intros r Hr ->. discriminate. }
  rewrite read_module_records by exact Hnonnull.
  cbn [mbind result_bind schemasArr canonicalUrl checksumOriginal].
  assert (Hkept : filter (fun r => truthy (url_of r) = true) (records_of items)
                  = records_of items).
  { apply filter_all. eapply Forall_impl; [exact Hall|].
    intros r ->. simpl. destruct (String.eqb_spec t ""); [contradiction | reflexivity]. }
  rewrite Hkept, (allUrlsMatch_agree t) by exact Hall.
  destruct (head_of_records items Hne) as (first & -> & Hfirst).
  rewrite Forall_forall in Hall. cbn [fmap option_fmap option_map default].
  rewrite (Hall first Hfirst). simpl.
  destruct (String.eqb_spec t ""); [contradiction | reflexivity].
Qed.

Lemma lacks_url_url_of r : lacks_url r -> url_of r = None /\ r <> JNull.
Proof.
  intros (fields & -> & Hurl & Hog). split; [|discriminate].
  simpl. unfold js_or. rewrite Hurl, Hog. reflexivity.
Qed.

Lemma process_module_anonymous modUrl items :
  Forall lacks_url (records_of items) ->
  process_module modUrl (JArr items)
  = Ok (Slot success JNull None (Some []) (Some (declared_checksum items)) None).
Proof.
  intros Hall. unfold process_module.
  assert (Hnonnull : Forall (fun r => r <> JNull) (records_of items)).
  { eapply Forall_impl; [exact Hall|]. intros r Hr. apply lacks_url_url_of in Hr. tauto. }
  rewrite read_module_records by exact Hnonnull.
  cbn [mbind result_bind schemasArr canonicalUrl checksumOriginal].
  assert (Hkept : filter (fun r => truthy (url_of r) = true) (records_of items) = []).
  { apply filter_none. eapply Forall_impl; [exact Hall|].
    intros r Hr. apply lacks_url_url_of in Hr as [-> _]. discriminate. }
  rewrite Hkept. cbn [allUrlsMatch].
  assert (Hfirst : or_null (default None (url_of <$> head items)) = JNull).
  { destruct (head items) as [first|] eqn:Hhead; [|reflexivity].
    assert (Hin : first ∈ records_of items).
    { apply head_records; [|exact Hhead].
      unfold records_of. destruct (checksum_form (JArr items)) eqn:Hform.
      - apply checksum_form_exact in Hform as (records & c & Heq & Hne).
        injection Heq as ->. rewrite removelast_last. exact Hne.
      - destruct items; discriminate. }
    rewrite Forall_forall in Hall. specialize (Hall first Hin).
    apply lacks_url_url_of in Hall as [Hnone _].
    cbn [fmap option_fmap option_map default]. rewrite Hnone. reflexivity. }
  rewrite Hfirst. reflexivity.
Qed.

End ModuleSlots.

Lemma getUrl_inv r u : getUrl r = Ok u -> r <> JNull /\ u = url_of r.
Proof.
  intros Hget. assert (Hr : r <> JNull) by (intros ->; discriminate).
  split; [exact Hr|]. rewrite getUrl_url_of in Hget by exact Hr. congruence.
Qed.


(** *** The slot of a payload *)

Lemma not_null_Forall (records : list json) :
  JNull ∉ records <-> Forall (fun r => r <> JNull) records.
Proof.
  rewrite Forall_forall. split.
  - intros Hnot r Hr ->. contradiction.
  - intros Hall Hin. apply (Hall JNull Hin). reflexivity.
Qed.

Lemma url_bearing_not_null items : Forall (fun r => r <> JNull) (url_bearing items).
Proof.
  apply Forall_forall. intros r Hr ->.
  apply list_elem_of_filter in Hr as [Hr _]. discriminate.
Qed.

Lemma every_url_forallb u i schemas :
  Forall (fun r => r <> JNull) schemas -> i <> 0 ->
  every_url u i schemas
  = Ok (forallb (fun r => strict_equal false (url_of r) u) schemas).
Proof.
  intros Hall. revert i. induction Hall as [|r schemas Hr _ IH]; intros i Hi; [reflexivity|].
  cbn [every_url forallb]. rewrite getUrl_url_of by exact Hr. cbn [mbind result_bind].
  rewrite bool_decide_eq_false_2 by exact Hi.
  destruct (strict_equal false (url_of r) u); [apply IH; lia | reflexivity].
Qed.

(** On records that are not [null], [allUrlsMatch] answers whether every
    record has the subject URL of the first one. *)
Lemma allUrlsMatch_consistent kept :
  Forall (fun r => r <> JNull) kept -> allUrlsMatch kept = Ok (consistent kept).
Proof.
  destruct 1 as [|first rest Hfirst Hrest]; [reflexivity|].
  unfold allUrlsMatch. rewrite getUrl_url_of by exact Hfirst.
  cbn [mbind result_bind every_url]. rewrite getUrl_url_of by exact Hfirst.
  cbn [mbind result_bind]. rewrite bool_decide_eq_true_2 by reflexivity.
  rewrite strict_equal_refl. apply every_url_forallb; auto.
Qed.

Lemma process_module_array modUrl items :
  JNull ∉ records_of items ->
  process_module modUrl (JArr items)
  = if consistent (url_bearing items)
    then Ok (Slot success (or_null (first_url items)) None (Some (url_bearing items))
                  (Some (declared_checksum items)) None)
    else Throw (differing_urls modUrl).
Proof.
  intros Hall. apply not_null_Forall in Hall. unfold process_module.
  rewrite read_module_records by exact Hall.
  cbn [mbind result_bind schemasArr canonicalUrl checksumOriginal].
  fold (url_bearing items). fold (first_url items).
  rewrite allUrlsMatch_consistent by apply url_bearing_not_null.
  cbn [mbind result_bind]. destruct (consistent (url_bearing items)); reflexivity.
Qed.

Lemma process_module_null modUrl items :
  JNull ∈ records_of items -> exists e, process_module modUrl (JArr items) = Throw e.
Proof.
  intros Hin. destruct (read_module_null items Hin) as [e He].
  exists e. unfold process_module. rewrite He. reflexivity.
Qed.

Lemma or_null_falsy u : truthy u = false -> or_null u = JNull.
Proof. unfold or_null. destruct u as [v|]; [|reflexivity]. intros ->. reflexivity. Qed.

Lemma or_null_truthy v : truthy (Some v) = true -> or_null (Some v) = v.
Proof. unfold or_null. intros ->. reflexivity. Qed.

Lemma process_module_object modUrl fields :
  process_module modUrl (JObj fields)
  = Ok (Slot success (or_null (url_of (JObj fields))) None
             (Some (if truthy (url_of (JObj fields)) then [JObj fields] else []))
             (Some (or_null (assoc_get "checksum" fields))) None).
Proof.
  unfold process_module, read_module. rewrite getUrl_object. cbn [mbind result_bind].
  change (js_or (assoc_get "url" fields) (assoc_get "og:url" fields))
    with (url_of (JObj fields)).
  assert (Hsum : (if truthy (assoc_get "checksum" fields)
                  then default JNull (assoc_get "checksum" fields) else JNull)
                 = or_null (assoc_get "checksum" fields)).
  { unfold or_null. destruct (assoc_get "checksum" fields) as [c|]; reflexivity. }
  rewrite Hsum.
  destruct (truthy (url_of (JObj fields))) eqn:Hu;
    cbn [mbind result_bind schemasArr canonicalUrl checksumOriginal].
  - rewrite allUrlsMatch_single. reflexivity.
  - rewrite (or_null_falsy _ Hu). reflexivity.
Qed.

Lemma head_in_records items r : head items = Some r -> r ∈ records_of items.
Proof.
  intros Hhead. apply head_records; [|exact Hhead].
  unfold records_of. destruct (checksum_form (JArr items)) eqn:Hform.
  - apply checksum_form_exact in Hform as (records & c & Heq & Hne).
    injection Heq as ->. rewrite removelast_last. exact Hne.
  - destruct items; discriminate.
Qed.

(** When the kept records all have the subject URL [t], they are
    consistent, and the URL read from the first element of the payload is
    [t] or falsy. *)
Lemma shared_url_consistent items (t : string) :
  (forall r, r ∈ url_bearing items -> url_of r = Some (JStr t)) ->
  consistent (url_bearing items) = true /\
  or_null (first_url items) = if truthy (first_url items) then JStr t else JNull.
Proof.
  intros Hall. split.
  - destruct (url_bearing items) as [|first rest] eqn:Hkept; [reflexivity|].
    cbn [consistent]. apply forallb_forall. intros r Hr. unfold shares_url.
    rewrite (Hall first) by constructor.
    rewrite (Hall r) by (constructor; apply list_elem_of_In; exact Hr).
    cbn [strict_equal]. apply String.eqb_refl.
  - unfold first_url. destruct (head items) as [r|] eqn:Hhead; [|reflexivity].
    change (default None (url_of <$> Some r)) with (url_of r).
    destruct (truthy (url_of r)) eqn:Hu; [|apply or_null_falsy; exact Hu].
    assert (Hin : r ∈ url_bearing items).
    { apply list_elem_of_filter. split; [exact Hu | apply head_in_records; exact Hhead]. }
    rewrite (Hall r Hin) in *. apply or_null_truthy. exact Hu.
Qed.

Lemma differing_urls_inconsistent items r1 r2 :
  r1 ∈ url_bearing items -> r2 ∈ url_bearing items -> url_of r1 <> url_of r2 ->
  consistent (url_bearing items) = false.
Proof.
  intros H1 H2 Hne. destruct (consistent (url_bearing items)) eqn:Hsame; [|reflexivity].
  exfalso. apply Hne.
  destruct (url_bearing items) as [|first rest]; [inversion H1|].
  cbn [consistent] in Hsame. rewrite forallb_forall in Hsame.
  assert (Hfirst : forall r, r ∈ first :: rest -> url_of r = url_of first).
  { intros r Hr. apply elem_of_cons in Hr as [->|Hr]; [reflexivity|].
    apply (strict_equal_eq false); [|reflexivity].
    apply Hsame. apply list_elem_of_In. exact Hr. }
  rewrite (Hfirst r1 H1), (Hfirst r2 H2). reflexivity.
Qed.

Lemma module_slot_array modUrl statusCode items :
  JNull ∉ records_of items ->
  module_slot modUrl (Response statusCode (JArr items))
  = if consistent (url_bearing items)
    then Slot success (or_null (first_url items)) None (Some (url_bearing items))
              (Some (declared_checksum items)) None
    else Slot error (JStr modUrl) None None None None.
Proof.
  intros Hall. unfold module_slot. rewrite process_module_array by exact Hall.
  destruct (consistent (url_bearing items)); reflexivity.
Qed.

Lemma module_slot_null modUrl statusCode items :
  JNull ∈ records_of items ->
  module_slot modUrl (Response statusCode (JArr items))
  = Slot error (JStr modUrl) None None None None.
Proof.
  intros Hin. unfold module_slot.
  destruct (process_module_null modUrl items Hin) as [e ->]. reflexivity.
Qed.

Lemma module_slot_object modUrl statusCode fields :
  module_slot modUrl (Response statusCode (JObj fields))
  = Slot success (or_null (url_of (JObj fields))) None
         (Some (if truthy (url_of (JObj fields)) then [JObj fields] else []))
         (Some (or_null (assoc_get "checksum" fields))) None.
Proof. unfold module_slot. rewrite process_module_object. reflexivity. Qed.

Lemma null_in_or_not (records : list json) : JNull ∈ records \/ JNull ∉ records.
Proof.
  destruct (null_or_not records) as [Hall|Hin]; [right | left; exact Hin].
  apply not_null_Forall. exact Hall.
Qed.

(** ** The manifest stage *)

(** The manifest stage on a manifest whose [modules] can be read (any body
    but JSON [null]).  When the fetch of the manifest fails, when the
    [modules] field read from the manifest is missing or not a list, or when
    it is the empty list, [runDomainBenchmark] resolves to an object that
    carries only [error]: no pages, no summary.  The only request made is
    the one for the manifest: no module is fetched and no page is crawled.
    Each error message names its failure, and the message for a missing or
    non-list [modules] differs from the one for an empty list.  A failure of
    the second, timed fetch of the manifest ends the run the same way before
    any module is fetched. *)
Theorem manifest_faults_abort (W : World) (S : Schedule) (llmUrl : string)
    (Hurl : resolve W (JStr llm_path) = Some llmUrl) :
  (forall message, manifest_first W = Failure message ->
     runDomainBenchmark W S
     = ([Get (plain_request llmUrl)], ErrorResult not_found_error None)) /\
  (forall statusCode llmJson modules,
     manifest_first W = Response statusCode llmJson ->
     get llmJson "modules" = Ok modules -> isArray modules = false ->
     runDomainBenchmark W S
     = ([Get (plain_request llmUrl)], ErrorResult no_modules_error None)) /\
  (forall statusCode llmJson,
     manifest_first W = Response statusCode llmJson ->
     get llmJson "modules" = Ok (Some (JArr [])) ->
     runDomainBenchmark W S
     = ([Get (plain_request llmUrl)], ErrorResult empty_modules_error None)) /\
  (forall statusCode llmJson path paths message,
     manifest_first W = Response statusCode llmJson ->
     get llmJson "modules" = Ok (Some (JArr (path :: paths))) ->
     manifest_second W = Failure message ->
     exists langshakeMetrics,
       runDomainBenchmark W S
       = ([Get (plain_request llmUrl); Get (plain_request llmUrl)],
          ErrorResult fetch_failed_error (Some langshakeMetrics)) /\
       requests langshakeMetrics = []) /\
  (includes not_found_error "llm.json" = true /\
   includes fetch_failed_error "llm.json" = true /\
   includes no_modules_error "no modules" = true /\
   includes empty_modules_error "modules array" = true /\
   includes empty_modules_error "is empty" = true /\
   no_modules_error <> empty_modules_error).
Proof.
  repeat split.
  - intros message Hfirst. unfold runDomainBenchmark. rewrite Hurl, Hfirst. reflexivity.
  - intros statusCode llmJson modules Hfirst Hget Harr.
    unfold runDomainBenchmark. rewrite Hurl, Hfirst, Hget.
    destruct modules as [[]|]; try reflexivity. discriminate.
  - intros statusCode llmJson Hfirst Hget.
    unfold runDomainBenchmark. rewrite Hurl, Hfirst, Hget. reflexivity.
  - intros statusCode llmJson path paths message Hfirst Hget Hsecond.
    unfold runDomainBenchmark, run_phases. rewrite Hurl, Hfirst, Hget, Hsecond.
    eexists. split; reflexivity.
  - discriminate.
Qed.

Lemma manifest_faults_abort_witness :
  runDomainBenchmark unreachable_world in_order
  = ([Get (plain_request example_llm_url)], ErrorResult not_found_error None).
Proof.
  apply (proj1 (manifest_faults_abort unreachable_world in_order
                  example_llm_url eq_refl)
               "404 Not Found" eq_refl).
Defined.

(** C3 at a manifest whose body is JSON [null], a manifest without a
    [modules] field.  The read of [llmJson.modules] at line 93 stands outside
    the [try] of lines 77-89 and throws: after the one request the promise
    of [runDomainBenchmark] is rejected with the [TypeError] of the read,
    and no object with an [error] field is returned.  The same body at the
    second, timed fetch, where the read of [modules] stands inside the
    [try] of lines 173-215, is caught and gives the object with [error]. *)
Theorem null_manifest_rejects (W : World) (S : Schedule) (llmUrl : string)
    (Hurl : resolve W (JStr llm_path) = Some llmUrl) :
  (forall statusCode,
     manifest_first W = Response statusCode JNull ->
     runDomainBenchmark W S
     = ([Get (plain_request llmUrl)],
        Rejected (TypeError "Cannot read properties of null (reading 'modules')")) /\
     forall message langshakeMetrics,
       snd (runDomainBenchmark W S) <> ErrorResult message langshakeMetrics) /\
  (forall statusCode llmJson path paths statusCode',
     manifest_first W = Response statusCode llmJson ->
     get llmJson "modules" = Ok (Some (JArr (path :: paths))) ->
     manifest_second W = Response statusCode' JNull ->
     exists langshakeMetrics,
       runDomainBenchmark W S
       = ([Get (plain_request llmUrl); Get (plain_request llmUrl)],
          ErrorResult fetch_failed_error (Some langshakeMetrics))).
Proof.
  split.
  - intros statusCode Hfirst.
    assert (Hrun : runDomainBenchmark W S
                   = ([Get (plain_request llmUrl)], Rejected (null_read "modules"))).
    { unfold runDomainBenchmark. rewrite Hurl, Hfirst. reflexivity. }
    split; [exact Hrun|]. intros message langshakeMetrics. rewrite Hrun. discriminate.
  - intros statusCode llmJson path paths statusCode' Hfirst Hget Hsecond.
    unfold runDomainBenchmark, run_phases. rewrite Hurl, Hfirst, Hget, Hsecond.
    eexists. reflexivity.
Qed.

Lemma null_manifest_rejects_witness :
  runDomainBenchmark null_manifest_world in_order
  = ([Get (plain_request example_llm_url)],
     Rejected (TypeError "Cannot read properties of null (reading 'modules')")).
Proof.
  apply (proj1 (proj1 (null_manifest_rejects null_manifest_world in_order
                         example_llm_url eq_refl)
                      200 eq_refl)).
Defined.

(** ** The run as a whole *)

Lemma in_order_fair : fair (langshake_order in_order) /\ fair (traditional_order in_order).
Proof. split; intros n; reflexivity. Qed.

Lemma last_first_fair : fair (langshake_order last_first) /\ fair (traditional_order last_first).
Proof. split; intros n; simpl; apply reverse_Permutation. Qed.

(** A manifest that passes the tests of lines 93-108 and a second fetch that
    answers: the benchmark completes with one page per module URL, in the
    order of the module URLs, whatever the schedule. *)
Lemma runDomainBenchmark_completes (W : World) (S : Schedule) llmUrl
    statusCode llmJson path paths statusCode' llmJson' modules :
  fair (langshake_order S) -> fair (traditional_order S) ->
  resolve W (JStr llm_path) = Some llmUrl ->
  manifest_first W = Response statusCode llmJson ->
  get llmJson "modules" = Ok (Some (JArr (path :: paths))) ->
  manifest_second W = Response statusCode' llmJson' ->
  get llmJson' "modules" = Ok modules ->
  let moduleUrls := module_urls W modules in
  exists log traditionalMetrics,
    runDomainBenchmark W S
    = (log,
       BenchmarkResult (pages_of W moduleUrls)
         (summarize (declared_root llmJson) (pages_of W moduleUrls))
         (metrics (langshake_phase W (langshake_order S) llmUrl statusCode' llmJson' moduleUrls))
         traditionalMetrics).
Proof.
  intros HfairL HfairT Hurl Hfirst Hget Hsecond Hget' moduleUrls.
  destruct (run_phases_completes W S HfairL HfairT llmUrl (declared_root llmJson)
              statusCode' llmJson' modules Hsecond Hget') as [mT Hrun].
  unfold runDomainBenchmark. rewrite Hurl, Hfirst, Hget, Hrun.
  eexists. exists mT. reflexivity.
Qed.

(** ** The summary *)

Lemma sha256_hex_nonempty s : sha256_hex s <> "".
Proof. unfold sha256_hex, SHA256.hex_state, SHA256.hex_word. discriminate. Qed.

Lemma string_equal_iff text v : string_equal text v = true <-> v = JStr text.
Proof.
  unfold string_equal, strict_equal. destruct v; try (split; [discriminate | congruence]).
  rewrite String.eqb_eq. split; congruence.
Qed.

Lemma filter_Boolean_cons (c : string) (a : sparse string) :
  filter_Boolean (Some c :: a)
  = if String.eqb c "" then filter_Boolean a else c :: filter_Boolean a.
Proof. unfold filter_Boolean. simpl. destruct (String.eqb c ""); reflexivity. Qed.

Lemma filter_Boolean_nonempty {A} (g : A -> string) (l : list A) :
  (forall x, g x <> "") ->
  filter_Boolean (map (fun x => Some (g x)) l) = map g l.
Proof.
  intros Hg. induction l as [|x l IH]; [reflexivity|].
  cbn [map]. rewrite filter_Boolean_cons, IH.
  destruct (String.eqb_spec (g x) "") as [Hempty|_]; [|reflexivity].
  exfalso. exact (Hg x Hempty).
Qed.

Lemma summarize_roots (W : World) (moduleUrls : list string) (root : json) :
  let s := summarize root (pages_of W moduleUrls) in
  merkleRootLangshake s
  = calculateMerkleRoot
      (map (fun i => langshakeChecksum (page_comparison (page_at W moduleUrls i)))
           (seq 0 (length moduleUrls))) /\
  merkleRootTraditional s
  = calculateMerkleRoot
      (map (fun i => traditionalChecksum (page_comparison (page_at W moduleUrls i)))
           (seq 0 (length moduleUrls))).
Proof.
  unfold summarize, pages_of, sparse_map.
  cbn [merkleRootLangshake merkleRootTraditional]. rewrite !imap_map_seq.
  split; f_equal.
  - apply (filter_Boolean_nonempty
             (fun i => langshakeChecksum (page_comparison (page_at W moduleUrls i)))).
    intros i. apply sha256_hex_nonempty.
  - apply (filter_Boolean_nonempty
             (fun i => traditionalChecksum (page_comparison (page_at W moduleUrls i)))).
    intros i. apply sha256_hex_nonempty.
Qed.

(** C7, as the code has it.  The root of the LangShake side is built over
    the LangShake checksums of all pages and the root of the Traditional
    side over their Traditional checksums; [merkleRootLangshakeValid] and
    [merkleRootTraditionalValid] say that the respective root equals the
    root the manifest declares; [merkleRootsMatch] says that the two roots
    are equal and also equal to the declared root, that is, that both other
    flags hold. *)
Theorem summary_flags (W : World) (S : Schedule) llmUrl
    statusCode llmJson path paths statusCode' llmJson' modules :
  fair (langshake_order S) -> fair (traditional_order S) ->
  resolve W (JStr llm_path) = Some llmUrl ->
  manifest_first W = Response statusCode llmJson ->
  get llmJson "modules" = Ok (Some (JArr (path :: paths))) ->
  manifest_second W = Response statusCode' llmJson' ->
  get llmJson' "modules" = Ok modules ->
  exists log pages s langshakeMetrics traditionalMetrics,
    runDomainBenchmark W S
    = (log, BenchmarkResult (map Some pages) s langshakeMetrics traditionalMetrics) /\
    merkleRootLlmJson s = declared_root llmJson /\
    merkleRootLangshake s
    = calculateMerkleRoot (map (fun p => langshakeChecksum (page_comparison p)) pages) /\
    merkleRootTraditional s
    = calculateMerkleRoot (map (fun p => traditionalChecksum (page_comparison p)) pages) /\
    (merkleRootLangshakeValid s = true
     <-> merkleRootLlmJson s = JStr (merkleRootLangshake s)) /\
    (merkleRootTraditionalValid s = true
     <-> merkleRootLlmJson s = JStr (merkleRootTraditional s)) /\
    (merkleRootsMatch s = true
     <-> merkleRootLangshake s = merkleRootTraditional s /\
         merkleRootLlmJson s = JStr (merkleRootLangshake s)) /\
    merkleRootsMatch s = merkleRootLangshakeValid s && merkleRootTraditionalValid s.
Proof.
  intros HfairL HfairT Hurl Hfirst Hget Hsecond Hget'.
  destruct (runDomainBenchmark_completes W S llmUrl statusCode llmJson path paths
              statusCode' llmJson' modules HfairL HfairT Hurl Hfirst Hget Hsecond Hget')
    as (log & mT & Hrun).
  set (moduleUrls := module_urls W modules) in *.
  exists log, (map (page_at W moduleUrls) (seq 0 (length moduleUrls))).
  eexists. eexists. exists mT.
  split.
  { rewrite Hrun. unfold pages_of. rewrite map_map. reflexivity. }
  destruct (summarize_roots W moduleUrls (declared_root llmJson)) as [HL HT].
  split; [reflexivity|]. rewrite !map_map.
  split; [exact HL|]. split; [exact HT|].
  unfold summarize. cbn [merkleRootLangshakeValid merkleRootTraditionalValid
    merkleRootsMatch merkleRootLlmJson merkleRootLangshake merkleRootTraditional].
  split; [apply string_equal_iff|]. split; [apply string_equal_iff|]. split.
  - rewrite andb_true_iff, String.eqb_eq, string_equal_iff. reflexivity.
  - match goal with
    | |- String.eqb ?a ?b && string_equal ?a ?r = _ =>
        destruct (String.eqb_spec a b) as [->|Hne]; simpl
    end.
    + destruct (string_equal _ _); reflexivity.
    + match goal with
      | |- false = string_equal ?a ?r && string_equal ?b ?r =>
          destruct (string_equal a r) eqn:Ha; destruct (string_equal b r) eqn:Hb;
            try reflexivity
      end.
      apply string_equal_iff in Ha, Hb. congruence.
Qed.

Lemma summary_flags_witness :
  exists log pages s langshakeMetrics traditionalMetrics,
    runDomainBenchmark wrong_root_world last_first
    = (log, BenchmarkResult (map Some pages) s langshakeMetrics traditionalMetrics) /\
    (merkleRootsMatch s = true
     <-> merkleRootLangshake s = merkleRootTraditional s /\
         merkleRootLlmJson s = JStr (merkleRootLangshake s)).
Proof.
  destruct (summary_flags wrong_root_world last_first example_llm_url
              200 (manifest_of ["/langshake/article.json"] "irrelevant")
              (JStr "/langshake/article.json") []
              200 (manifest_of ["/langshake/article.json"] "irrelevant")
              (Some (JArr [JStr "/langshake/article.json"]))
              (proj1 last_first_fair) (proj2 last_first_fair)
              eq_refl eq_refl eq_refl eq_refl eq_refl)
    as (log & pages & s & mL & mT & Hrun & _ & _ & _ & _ & _ & Hmatch & _).
  exists log, pages, s, mL, mT. split; assumption.
Defined.

(** The statement of C7 on [merkleRootsMatch] fails: in this run the two
    computed roots are equal and the flag is false, because the manifest
    declares another root. *)
Lemma merkleRootsMatch_is_not_root_equality :
  exists log pages s langshakeMetrics traditionalMetrics,
    runDomainBenchmark wrong_root_world in_order
    = (log, BenchmarkResult pages s langshakeMetrics traditionalMetrics) /\
    merkleRootLangshake s = merkleRootTraditional s /\
    merkleRootsMatch s = false.
Proof.
  eexists _, _, _, _, _. split; [vm_compute; reflexivity|].
  split; reflexivity.
Qed.

(** ** Fetching *)

Section Fetch.

Lemma assoc_get_set_property {A} key (value : A) obj :
  assoc_get key (set_property key value obj) = Some value.
Proof.
  induction obj as [|[k v] obj IH]; simpl.
  - rewrite String.eqb_refl. reflexivity.
  - destruct (String.eqb k key) eqn:Hk; simpl; rewrite Hk; auto.
Qed.

Lemma assoc_get_set_property_other {A} key key' (value : A) obj :
  key <> key' ->
  assoc_get key' (set_property key value obj) = assoc_get key' obj.
Proof.
  intros Hne. induction obj as [|[k v] obj IH]; simpl.
  - destruct (String.eqb_spec key key'); [contradiction | reflexivity].
  - destruct (String.eqb_spec k key) as [->|Hk]; simpl.
    + destruct (String.eqb_spec key key'); [contradiction | reflexivity].
    + rewrite IH. reflexivity.
Qed.

Lemma retry_request_policy url opts : policy_request url (retry_request url opts).
Proof.
  unfold policy_request, no_cache_headers, retry_request. simpl.
  repeat split.
  - rewrite assoc_get_set_property_other by discriminate.
    apply assoc_get_set_property.
  - apply assoc_get_set_property.
Qed.

Lemma retry_loop_policy net url opts attempt remaining :
  attempt + remaining = 3 ->
  policy_fetch net url attempt
    (fst (retry_loop net (retry_request url opts) 500 attempt remaining))
    (snd (retry_loop net (retry_request url opts) 500 attempt remaining)).
Proof.
  revert attempt. induction remaining as [|remaining IH]; intros attempt Hsum; simpl.
  - replace attempt with 3 by lia.
    destruct (net 3) as [statusCode data|message] eqn:Hnet; simpl.
    + apply fetch_answered; auto using retry_request_policy.
    + apply fetch_gave_up; auto using retry_request_policy.
  - destruct (net attempt) as [statusCode data|message] eqn:Hnet; simpl.
    + apply fetch_answered; auto using retry_request_policy.
    + specialize (IH (S attempt) ltac:(lia)).
      destruct (retry_loop net (retry_request url opts) 500 (S attempt) remaining)
        as [log res]; simpl in *.
      apply fetch_retried with (message := message); auto using retry_request_policy.
      lia.
Qed.

Lemma axiosGetWithRetry_policy net url opts :
  exists log res,
    axiosGetWithRetry net url opts 3 500 = (log, Some <$> res) /\
    policy_fetch net url 1 log res.
Proof.
  pose proof (retry_loop_policy net url opts 1 2 eq_refl) as Hloop.
  unfold axiosGetWithRetry.
  destruct (retry_loop net (retry_request url opts) 500 1 2) as [log res].
  exists log, res. split; [reflexivity | exact Hloop].
Qed.

(** A fetch under the policy makes at most three requests. *)
Lemma policy_fetch_attempts net url attempt log res :
  policy_fetch net url attempt log res ->
  attempt <= 3 -> attempts log <= 4 - attempt.
Proof.
  induction 1 as [| |attempt r message log res Hlt _ _ _ IH]; intros Hge; simpl.
  - lia.
  - lia.
  - specialize (IH ltac:(lia)). lia.
Qed.

Lemma run_phases_events W S llmUrl root :
  Forall coordinator_event (fst (run_phases W S llmUrl root)).
Proof.
  unfold run_phases.
  destruct (manifest_second W) as [statusCode llmJson|message]; simpl.
  - destruct (get llmJson "modules") as [modules|e]; simpl.
    + constructor; [reflexivity|]. apply Forall_app. split.
      * apply Forall_forall. intros ev Hev. apply list_elem_of_fmap in Hev.
        destruct Hev as (u & -> & _). reflexivity.
      * apply Forall_forall. intros ev Hev. apply list_elem_of_omap in Hev.
        destruct Hev as ([e|] & _ & Heq); simpl in Heq; [|discriminate].
        injection Heq as <-. exact I.
    + repeat constructor.
  - repeat constructor.
Qed.

Lemma runDomainBenchmark_events W S :
  Forall coordinator_event (fst (runDomainBenchmark W S)).
Proof.
  unfold runDomainBenchmark.
  destruct (resolve W (JStr llm_path)) as [llmUrl|]; [|constructor].
  destruct (manifest_first W) as [statusCode llmJson|message]; [|repeat constructor].
  destruct (get llmJson "modules") as [[[| | | |[|path paths]|]|]|e];
    try (repeat constructor; fail).
  pose proof (run_phases_events W S llmUrl (declared_root llmJson)) as Hphases.
  destruct (run_phases W S llmUrl (declared_root llmJson)) as [log r]. simpl in *.
  constructor; [reflexivity | exact Hphases].
Qed.

End Fetch.

(** C8, as the code has it.  Every manifest or module request that goes
    through [axiosGetWithRetry] with its default parameters, which is every
    request of the LangShake crawler, follows the policy: no-cache headers
    whatever the options passed, a timeout of 10 seconds on each attempt, at
    most 3 attempts, 500 ms between attempts, and the failure of the third
    attempt is the failure of the call.  The requests of the domain
    benchmark coordinator carry the no-cache headers and are made once each:
    its log has no delay, and a failed request is not repeated. *)
Theorem fetch_policy :
  (forall net url opts,
     exists log res,
       axiosGetWithRetry net url opts 3 500 = (log, Some <$> res) /\
       policy_fetch net url 1 log res /\ attempts log <= 3) /\
  (forall net llmUrl, fetch_manifest net llmUrl = axiosGetWithRetry net llmUrl no_options 3 500) /\
  (forall resolve net modPath modUrl,
     resolve modPath = Some modUrl ->
     fst (validateModule resolve net modPath)
     = fst (axiosGetWithRetry (net modUrl) modUrl no_options 3 500)) /\
  (forall W S,
     Forall coordinator_event (fst (runDomainBenchmark W S)) /\
     forall r, Get r ∈ fst (runDomainBenchmark W S) -> no_cache_headers r) /\
  (forall W S llmUrl statusCode llmJson path paths statusCode' llmJson' modules,
     resolve W (JStr llm_path) = Some llmUrl ->
     manifest_first W = Response statusCode llmJson ->
     get llmJson "modules" = Ok (Some (JArr (path :: paths))) ->
     manifest_second W = Response statusCode' llmJson' ->
     get llmJson' "modules" = Ok modules ->
     exists crawls,
       fst (runDomainBenchmark W S)
       = [Get (plain_request llmUrl); Get (plain_request llmUrl)]
         ++ map (fun u => Get (plain_request u)) (module_urls W modules)
         ++ crawls /\
       attempts crawls = 0).
Proof.
  split; [|split; [|split; [|split]]].
  - intros net url opts.
    destruct (axiosGetWithRetry_policy net url opts) as (log & res & Hrun & Hpolicy).
    exists log, res. split; [exact Hrun|]. split; [exact Hpolicy|].
    pose proof (policy_fetch_attempts net url 1 log res Hpolicy ltac:(lia)). lia.
  - reflexivity.
  - intros resolve net modPath modUrl Hresolve. unfold validateModule.
    rewrite Hresolve.
    destruct (axiosGetWithRetry (net modUrl) modUrl no_options 3 500) as [log [[[st d]|]|e]];
      reflexivity.
  - intros W S. split; [apply runDomainBenchmark_events|].
    intros r Hr. pose proof (runDomainBenchmark_events W S) as Hall.
    rewrite Forall_forall in Hall. specialize (Hall _ Hr). simpl in Hall.
    rewrite Hall. split; reflexivity.
  - intros W S llmUrl statusCode llmJson path paths statusCode' llmJson' modules
      Hurl Hfirst Hget Hsecond Hget'.
    unfold runDomainBenchmark, run_phases.
    rewrite Hurl, Hfirst, Hget, Hsecond, Hget'. simpl.
    eexists. split; [reflexivity|].
    match goal with |- attempts (omap _ ?l) = 0 => generalize l end.
    intros entries. induction entries as [|[e|] entries IH]; simpl; auto.
Qed.

(** The statement of C8 fails for the coordinator: when the manifest cannot
    be fetched, the only request it makes has no timeout and is not tried
    again, so its events are not those of a fetch under the policy. *)
Lemma coordinator_fetch_outside_policy :
  fst (runDomainBenchmark unreachable_world in_order)
  = [Get (Request example_llm_url no_cache None)] /\
  ~ exists res,
      policy_fetch (fun _ => Failure "404 Not Found") example_llm_url 1
                   (fst (runDomainBenchmark unreachable_world in_order)) res.
Proof.
  split; [reflexivity|].
  intros [res Hpolicy]. change (fst (runDomainBenchmark unreachable_world in_order))
    with [Get (Request example_llm_url no_cache None)] in Hpolicy.
  inversion Hpolicy; subst; discriminate.
Qed.

Lemma fetch_policy_witness :
  resolve_path "/langshake/article.json" = Some "https://example.com/langshake/article.json" /\
  fst (validateModule resolve_path (one_answer extra_field_payload) "/langshake/article.json")
  = fst (axiosGetWithRetry
           (one_answer extra_field_payload "https://example.com/langshake/article.json")
           "https://example.com/langshake/article.json" no_options 3 500).
Proof.
  split; [reflexivity|].
  apply (proj1 (proj2 (proj2 fetch_policy)) resolve_path (one_answer extra_field_payload)).
  reflexivity.
Defined.

(** ** The shape of a module payload *)

Section Shape.

Lemma validate_payload_accepts modPath modJson :
  is_Some (v_modJson (validate_payload modPath modJson)) <-> has_checksum_holder modJson.
Proof.
  unfold has_checksum_holder. split.
  - intros [payload Hsome]. destruct modJson as [| | | |items|]; try discriminate.
    unfold validate_payload in Hsome.
    destruct (length items <? 2)%nat eqn:Hlen; [discriminate|].
    apply Nat.ltb_ge in Hlen.
    destruct (last items) as [[| | | | |fields]|] eqn:Hlast; try discriminate.
    destruct (truthy (assoc_get "checksum" fields)) eqn:Htruthy; [|discriminate].
    destruct (assoc_get "checksum" fields) as [c|] eqn:Hc; [|discriminate].
    exists items, fields, c. auto.
  - intros (items & fields & c & -> & Hlen & Hlast & Hc & Htruthy).
    unfold validate_payload.
    destruct (Nat.ltb_spec (length items) 2) as [|_]; [lia|].
    rewrite Hlast, Hc, Htruthy. simpl. eauto.
Qed.

Lemma validate_payload_rejects modPath modJson :
  v_modJson (validate_payload modPath modJson) = None ->
  validate_payload modPath modJson
  = invalid ("Module " +:+ modPath +:+ " is not a valid array with checksum.") \/
  validate_payload modPath modJson
  = invalid ("Module " +:+ modPath +:+ " missing checksum object.").
Proof.
  unfold validate_payload. destruct modJson as [| | | |items|]; auto.
  destruct (length items <? 2)%nat; auto.
  destruct (last items) as [[| | | | |fields]|]; auto.
  destruct (truthy (assoc_get "checksum" fields)); auto. discriminate.
Qed.

Lemma validateModule_payload resolve net modPath payload :
  v_modJson (snd (validateModule resolve net modPath)) = Some payload ->
  v_modJson (validate_payload modPath payload) = Some payload.
Proof.
  unfold validateModule. destruct (resolve modPath) as [modUrl|]; [|discriminate].
  destruct (axiosGetWithRetry (net modUrl) modUrl no_options 3 500)
    as [log [[[statusCode modJson]|]|e]]; simpl; try discriminate.
  intros Hsome. assert (modJson = payload) as ->; [|exact Hsome].
  unfold validate_payload in Hsome. destruct modJson as [| | | |items|]; try discriminate.
  destruct (length items <? 2)%nat; [discriminate|].
  destruct (last items) as [[| | | | |fields]|]; try discriminate.
  destruct (truthy (assoc_get "checksum" fields)); [|discriminate].
  simpl in Hsome. congruence.
Qed.

End Shape.

(** C5, as the code has it.  [validateModule] yields module data exactly
    when the payload is a list of at least two elements whose last element
    is an object with a truthy [checksum] field, whatever other fields that
    object has; any other payload yields an error message and no module
    data.  In the coordinator the test for a list of at least two elements
    whose last element has [checksum] as its only field decides how the
    payload is read, not whether it is accepted: when it holds, the last
    element gives the declared checksum and the elements before it are the
    candidate records; when it fails, every element of an array payload is a
    candidate record and no checksum is declared; the candidate records
    with a truthy [url] or [og:url] are kept.  An object payload always gets
    a success slot, with the object as its single record when it has a
    truthy [url] or [og:url] and with no record otherwise.  The slot of a
    payload is an error slot, [{ status: 'error', url: modUrl }], exactly
    when the payload is neither an array nor an object, or is an array with
    a [null] candidate record, or is an array whose kept records do not all
    have the same subject URL; for a payload that is neither an array nor
    an object the error recorded is the one about its shape. *)
Theorem payload_shapes :
  (forall modPath modJson,
     (is_Some (v_modJson (validate_payload modPath modJson))
      <-> has_checksum_holder modJson) /\
     (v_modJson (validate_payload modPath modJson) = None ->
      exists message,
        validate_payload modPath modJson = Validation None None None (Some message))) /\
  (forall resolve net modPath payload,
     v_modJson (snd (validateModule resolve net modPath)) = Some payload ->
     has_checksum_holder payload) /\
  (forall modJson, checksum_form modJson = true <-> exact_checksum_form modJson) /\
  (forall modJson, exact_checksum_form modJson -> has_checksum_holder modJson \/
     exists records c, modJson = JArr (records ++ [JObj [("checksum", c)]]) /\
                       truthy (Some c) = false) /\
  (forall items reading,
     read_module (JArr items) = Ok reading ->
     if checksum_form (JArr items)
     then filter_result has_url (removelast items) = Ok (schemasArr reading) /\
          get_opt (last items) "checksum" = Some (checksumOriginal reading)
     else filter_result has_url items = Ok (schemasArr reading) /\
          checksumOriginal reading = JNull) /\
  (forall modUrl answer idx st,
     results (module_task modUrl answer idx st) !! (idx + 1)
     = Some (Some (module_slot modUrl answer))) /\
  (forall modUrl statusCode fields,
     module_slot modUrl (Response statusCode (JObj fields))
     = Slot success (or_null (url_of (JObj fields))) None
            (Some (if truthy (url_of (JObj fields)) then [JObj fields] else []))
            (Some (or_null (assoc_get "checksum" fields))) None) /\
  (forall modUrl statusCode items,
     JNull ∉ records_of items -> consistent (url_bearing items) = true ->
     module_slot modUrl (Response statusCode (JArr items))
     = Slot success (or_null (first_url items)) None (Some (url_bearing items))
            (Some (declared_checksum items)) None) /\
  (forall modUrl statusCode modJson,
     (status (module_slot modUrl (Response statusCode modJson)) = error <->
      is_primitive modJson = true \/
      exists items, modJson = JArr items /\
        (JNull ∈ records_of items \/ consistent (url_bearing items) = false)) /\
     (status (module_slot modUrl (Response statusCode modJson)) = error ->
      module_slot modUrl (Response statusCode modJson)
      = Slot error (JStr modUrl) None None None None)) /\
  (forall modUrl statusCode modJson idx st,
     is_primitive modJson = true ->
     module_task modUrl (Response statusCode modJson) idx st
     = Phase (array_set (results st) (idx + 1) (Slot error (JStr modUrl) None None None None))
             (recordError (JStr modUrl) (malformed_message modUrl modJson)
                (recordRequest (JStr modUrl) statusCode (metrics st)))).
Proof.
  split; [|split; [|split; [|split; [|split; [|split; [|split; [|split; [|split]]]]]]]].
  - intros modPath modJson. split; [apply validate_payload_accepts|].
    intros Hnone. destruct (validate_payload_rejects modPath modJson Hnone) as [-> | ->];
      eexists; reflexivity.
  - intros resolve net modPath payload Hsome.
    apply (validate_payload_accepts modPath).
    rewrite (validateModule_payload _ _ _ _ Hsome). eauto.
  - apply checksum_form_exact.
  - intros modJson (records & c & -> & Hne).
    destruct (truthy (Some c)) eqn:Htruthy; [left | right; eauto].
    exists (records ++ [JObj [("checksum", c)]]), [("checksum", c)], c.
    rewrite last_snoc, length_app. simpl.
    repeat split; auto. destruct records; [contradiction | simpl; lia].
  - apply read_module_array.
  - intros modUrl answer idx st.
    rewrite module_task_settles. simpl results. rewrite (Nat.add_comm idx 1).
    apply array_set_lookup.
  - apply module_slot_object.
  - intros modUrl statusCode items Hnull Hsame.
    rewrite module_slot_array by exact Hnull. rewrite Hsame. reflexivity.
  - intros modUrl statusCode modJson.
    destruct modJson as [|b|n|t|items|fields];
      try (split; [split; [left; reflexivity | reflexivity] | reflexivity]).
    + destruct (null_in_or_not (records_of items)) as [Hin|Hnot].
      * rewrite (module_slot_null modUrl statusCode items Hin).
        split; [|reflexivity]. split; [|reflexivity].
        intros _. right. exists items. auto.
      * rewrite (module_slot_array modUrl statusCode items Hnot).
        destruct (consistent (url_bearing items)) eqn:Hsame.
        -- split; [|discriminate]. split; [discriminate|].
           intros [Hprim | (items' & Heq & [Hin | Hdiffer])]; [discriminate| |];
             injection Heq as <-; [contradiction | congruence].
        -- split; [|reflexivity]. split; [|reflexivity].
           intros _. right. exists items. auto.
    + rewrite module_slot_object. split; [|discriminate]. split; [discriminate|].
      intros [Hprim | (items & Heq & _)]; discriminate.
  - intros modUrl statusCode modJson idx st Hprim.
    destruct modJson; try discriminate; reflexivity.
Qed.

(** The statement of C5 fails on a payload whose last element has a second
    field next to [checksum]: [validateModule] returns it as module data,
    and the coordinator gives the module a success slot. *)
Lemma extra_field_payload_accepted :
  ~ exact_checksum_form extra_field_payload /\
  v_modJson (snd (validateModule resolve_path (one_answer extra_field_payload)
                                 "/langshake/article.json"))
  = Some extra_field_payload /\
  results (module_task "https://example.com/langshake/article.json"
             (Response 200 extra_field_payload) 0 (Phase [] new_MetricsCollector))
  = [None; Some (Slot success (JStr "https://example.com/a") None (Some [article])
                      (Some JNull) None)].
Proof.
  split; [|split].
  - intros Hexact. apply checksum_form_exact in Hexact. discriminate.
  - vm_compute. reflexivity.
  - vm_compute. reflexivity.
Qed.

Lemma payload_shapes_witness :
  is_primitive (JStr "Not Found") = true /\
  module_task "https://example.com/langshake/article.json"
              (Response 200 (JStr "Not Found")) 0 idle
  = Phase (array_set (results idle) (0 + 1)
                     (Slot error (JStr "https://example.com/langshake/article.json")
                           None None None None))
          (recordError (JStr "https://example.com/langshake/article.json")
             (malformed_message "https://example.com/langshake/article.json"
                                (JStr "Not Found"))
             (recordRequest (JStr "https://example.com/langshake/article.json") 200
                            (metrics idle))).
Proof.
  split; [reflexivity|].
  apply (proj2 (proj2 (proj2 (proj2 (proj2 (proj2 (proj2 (proj2 (proj2 payload_shapes))))))))).
  reflexivity.
Defined.

(** ** Subject URLs of a module *)

(** C6, as the code has it.  The records of an array payload without a
    truthy [url] or [og:url] are dropped before the subject URLs are
    checked, and the check runs on the records kept.  When two kept records
    carry subject URLs that differ, the task of the module catches an error,
    writes the error slot [{ status: 'error', url: modUrl }], without
    records, at the index of the module and records the error; when no
    record is [null] the recorded error is the one that reports differing
    [url] fields.  When the kept records all have the subject URL of the
    first of them, the slot is a success slot that holds the kept records
    and nothing of the others, and its [url] is read from the first element
    of the payload: the shared URL when that element is a kept record,
    [null] when it has no subject URL.  A [null] among the records gives the
    error slot as well.  When every record carries one and the same subject
    URL, the slot holds all of them under that URL. *)
Theorem subject_url_consistency (modUrl : string) (statusCode : nat) (items : list json)
    (idx : nat) (st : phase) :
  let done := module_task modUrl (Response statusCode (JArr items)) idx st in
  let failed e :=
    Phase (array_set (results st) (idx + 1) (Slot error (JStr modUrl) None None None None))
          (recordError (JStr modUrl) (exn_toString e)
             (recordRequest (JStr modUrl) statusCode (metrics st))) in
  let kept url records :=
    Phase (array_set (results st) (idx + 1)
             (Slot success url None (Some records) (Some (declared_checksum items)) None))
          (recordRequest (JStr modUrl) statusCode (metrics st)) in
  (forall r1 r2,
     r1 ∈ url_bearing items -> r2 ∈ url_bearing items -> url_of r1 <> url_of r2 ->
     exists e, done = failed e /\
               (JNull ∉ records_of items -> e = differing_urls modUrl)) /\
  (JNull ∉ records_of items -> consistent (url_bearing items) = false ->
   done = failed (differing_urls modUrl)) /\
  (JNull ∉ records_of items -> consistent (url_bearing items) = true ->
   done = kept (or_null (first_url items)) (url_bearing items)) /\
  (forall t,
     JNull ∉ records_of items ->
     (forall r, r ∈ url_bearing items -> url_of r = Some (JStr t)) ->
     done = kept (if truthy (first_url items) then JStr t else JNull) (url_bearing items)) /\
  (JNull ∈ records_of items -> exists e, done = failed e) /\
  (forall t,
     records_of items <> [] -> t <> "" ->
     Forall (fun r => url_of r = Some (JStr t)) (records_of items) ->
     done = kept (JStr t) (records_of items)).
Proof.
  intros done failed kept.
  assert (Hsame : JNull ∉ records_of items -> consistent (url_bearing items) = true ->
                  done = kept (or_null (first_url items)) (url_bearing items)).
  { intros Hnull Hsame. apply module_task_success.
    rewrite process_module_array by exact Hnull. rewrite Hsame. reflexivity. }
  split; [|split; [|split; [|split; [|split]]]].
  - intros r1 r2 H1 H2 Hne.
    apply list_elem_of_filter in H1 as [Ht1 H1]. apply list_elem_of_filter in H2 as [Ht2 H2].
    destruct (process_module_disagree modUrl items r1 r2 H1 H2 Ht1 Ht2 Hne)
      as (e & Hthrow & He).
    exists e. split; [apply module_task_caught; exact Hthrow|].
    intros Hnull. apply He. apply not_null_Forall. exact Hnull.
  - intros Hnull Hdiffer. apply module_task_caught.
    rewrite process_module_array by exact Hnull. rewrite Hdiffer. reflexivity.
  - exact Hsame.
  - intros t Hnull Hall. destruct (shared_url_consistent items t Hall) as [Hok Hurl].
    rewrite <- Hurl. apply Hsame; assumption.
  - intros Hin. destruct (process_module_null modUrl items Hin) as [e He].
    exists e. apply module_task_caught. exact He.
  - intros t Hne Ht Hall. apply module_task_success.
    apply process_module_agree; auto.
Qed.

(** The statement of C6 fails on a module that has a record without
    subject URL next to a record with one.  The two records do not have the
    same subject URL, yet no error is recorded and the slot is a success
    slot that holds the second record alone; and when the record without
    subject URL comes first, the [url] of the slot is [null] although the
    one subject URL among the records is that of the article. *)
Lemma mixed_records_partial_slot :
  url_of anonymous <> url_of article /\
  module_task "https://example.com/langshake/mixed.json"
              (Response 200 (JArr url_less_first)) 0 idle
  = Phase [None; Some (Slot success JNull None (Some [article])
                            (Some (JStr "irrelevant")) None)]
          (Metrics [(JStr "https://example.com/langshake/mixed.json", 200)] []) /\
  module_task "https://example.com/langshake/mixed.json"
              (Response 200 (JArr url_less_last)) 0 idle
  = Phase [None; Some (Slot success (JStr "https://example.com/a") None (Some [article])
                            (Some (JStr "irrelevant")) None)]
          (Metrics [(JStr "https://example.com/langshake/mixed.json", 200)] []).
Proof.
  split; [discriminate|]. split; vm_compute; reflexivity.
Qed.

Lemma bad_schemas_not_null : JNull ∉ records_of bad_schemas.
Proof. apply not_null_Forall. vm_compute. repeat constructor; discriminate. Qed.

Lemma subject_url_consistency_witness :
  module_task "https://example.com/langshake/bad-schemas.json"
              (Response 200 (JArr bad_schemas)) 0 idle
  = Phase [None; Some (Slot error (JStr "https://example.com/langshake/bad-schemas.json")
                            None None None None)]
          (Metrics [(JStr "https://example.com/langshake/bad-schemas.json", 200)]
                   [(JStr "https://example.com/langshake/bad-schemas.json",
                     exn_toString (differing_urls "https://example.com/langshake/bad-schemas.json"))]) /\
  module_task "https://example.com/langshake/article.json"
              (Response 200 (JArr article_schemas)) 0 idle
  = Phase [None; Some (Slot success (JStr "https://example.com/a") None
                            (Some [article; article_reordered])
                            (Some (JStr "irrelevant")) None)]
          (Metrics [(JStr "https://example.com/langshake/article.json", 200)] []).
Proof.
  split.
  - destruct (proj1 (subject_url_consistency
                       "https://example.com/langshake/bad-schemas.json" 200 bad_schemas 0 idle)
                    article product)
      as (e & Htask & He).
    + vm_compute. constructor.
    + vm_compute. constructor. constructor.
    + discriminate.
    + rewrite Htask, (He bad_schemas_not_null). reflexivity.
  - apply (proj2 (proj2 (proj2 (proj2 (proj2 (subject_url_consistency
                    "https://example.com/langshake/article.json" 200 article_schemas 0 idle)))))
                 "https://example.com/a").
    + vm_compute. discriminate.
    + discriminate.
    + vm_compute. repeat constructor.
Defined.

(** C10. A record of an array payload that has neither a [url] nor an
    [og:url] field is not among the records the module keeps; the check of
    the subject URLs runs on the kept records, and they are the records of
    the slot that the comparison reads.  When all records lack both fields,
    the task writes a success slot with an empty record list and a [null]
    URL, and records no error. *)
Theorem records_without_url_dropped (modUrl : string) (statusCode : nat)
    (items : list json) (idx : nat) (st : phase) :
  (forall reading r,
     read_module (JArr items) = Ok reading -> lacks_url r ->
     r ∉ schemasArr reading) /\
  (forall slot,
     process_module modUrl (JArr items) = Ok slot ->
     exists reading,
       read_module (JArr items) = Ok reading /\
       allUrlsMatch (schemasArr reading) = Ok true /\
       langshake slot = Some (schemasArr reading)) /\
  (Forall lacks_url (records_of items) ->
     module_task modUrl (Response statusCode (JArr items)) idx st
     = Phase (array_set (results st) (idx + 1)
                (Slot success JNull None (Some []) (Some (declared_checksum items)) None))
             (recordRequest (JStr modUrl) statusCode (metrics st))).
Proof.
  split; [|split].
  - intros reading r Hread Hlacks Hin.
    assert (Hkept : exists l, filter_result has_url l = Ok (schemasArr reading)).
    { pose proof (read_module_array items reading Hread) as Harr.
      destruct (checksum_form (JArr items)); destruct Harr as [Hfilter _]; eauto. }
    destruct Hkept as [l Hfilter].
    assert (Hpred : forall l kept, filter_result has_url l = Ok kept ->
                      forall x, x ∈ kept -> has_url x = Ok true).
    { clear. induction l as [|y l IH]; intros kept Hfilter x Hx.
      - injection Hfilter as <-. inversion Hx.
      - cbn [filter_result] in Hfilter.
        apply bind_Ok in Hfilter as (keep & Hkeep & Hfilter).
        apply bind_Ok in Hfilter as (rest & Hrest & Hfilter).
        injection Hfilter as <-. destruct keep.
        + apply elem_of_cons in Hx as [->|Hx]; [exact Hkeep | eauto].
        + eauto. }
    specialize (Hpred l _ Hfilter r Hin).
    destruct (lacks_url_url_of r Hlacks) as [Hnone Hnonnull].
    rewrite has_url_url_of, Hnone in Hpred by exact Hnonnull. discriminate.
  - intros slot Hprocess. unfold process_module in Hprocess.
    apply bind_Ok in Hprocess as (reading & Hread & Hprocess).
    apply bind_Ok in Hprocess as (same & Hsame & Hprocess).
    destruct same; [|discriminate]. injection Hprocess as <-.
    exists reading. auto.
  - intros Hall. apply module_task_success. apply process_module_anonymous. exact Hall.
Qed.

Lemma records_without_url_dropped_witness :
  module_task "https://example.com/langshake/anonymous.json"
              (Response 200 (JArr anonymous_schemas)) 0 idle
  = Phase [None; Some (Slot success JNull None (Some []) (Some (JStr "irrelevant")) None)]
          (Metrics [(JStr "https://example.com/langshake/anonymous.json", 200)] []).
Proof.
  apply (proj2 (proj2 (records_without_url_dropped
                         "https://example.com/langshake/anonymous.json" 200
                         anonymous_schemas 0 idle))).
  vm_compute. repeat constructor; exists [("@type", JStr "Thing"); ("name", JStr "x")];
    repeat split.
Defined.

(** ** One failing module among N *)

Section Alignment.

Lemma resolve_all_Forall2 W paths moduleUrls :
  Forall2 (fun p u => resolve W p = Some u) paths moduleUrls ->
  resolve_all W paths = moduleUrls.
Proof.
  unfold resolve_all. induction 1 as [|p u paths moduleUrls Hp _ IH]; [reflexivity|].
  change (omap (resolve W) (p :: paths))
    with (match resolve W p with
          | Some y => y :: omap (resolve W) paths
          | None => omap (resolve W) paths
          end).
  rewrite Hp, IH. reflexivity.
Qed.

Lemma seq_split k n : k < n -> seq 0 n = seq 0 k ++ k :: seq (S k) (n - S k).
Proof.
  intros Hk. replace n with (k + S (n - S k)) at 1 by lia.
  rewrite seq_app. simpl. reflexivity.
Qed.

Lemma count_status_map s (f : nat -> slot) l :
  count_status s (map (fun i => Some (f i)) l)
  = length (filter (fun i => status (f i) = s) l).
Proof.
  unfold count_status. induction l as [|i l IH]; [reflexivity|]. cbn [map].
  destruct (decide (status (f i) = s)) as [Hs|Hs].
  - rewrite !filter_cons_True; [|exact Hs | simpl; congruence]. simpl. rewrite IH. reflexivity.
  - rewrite !filter_cons_False; [exact IH | exact Hs | simpl; congruence].
Qed.

Lemma count_one s (f : nat -> slot) k n :
  k < n -> status (f k) = s ->
  (forall i, i < n -> i <> k -> status (f i) <> s) ->
  length (filter (fun i => status (f i) = s) (seq 0 n)) = 1.
Proof.
  intros Hk Hs Hothers. rewrite (seq_split k n Hk), filter_app.
  rewrite filter_cons_True by exact Hs.
  rewrite !filter_none; [reflexivity | |].
  - apply Forall_forall. intros i Hi. apply elem_of_seq in Hi. apply Hothers; lia.
  - apply Forall_forall. intros i Hi. apply elem_of_seq in Hi. apply Hothers; lia.
Qed.

Lemma count_all_but_one s (f : nat -> slot) k n :
  k < n -> status (f k) <> s ->
  (forall i, i < n -> i <> k -> status (f i) = s) ->
  length (filter (fun i => status (f i) = s) (seq 0 n)) = n - 1.
Proof.
  intros Hk Hs Hothers. rewrite (seq_split k n Hk), filter_app.
  rewrite filter_cons_False by exact Hs.
  rewrite !filter_all.
  - rewrite length_app, !length_seq. lia.
  - apply Forall_forall. intros i Hi. apply elem_of_seq in Hi. apply Hothers; lia.
  - apply Forall_forall. intros i Hi. apply elem_of_seq in Hi. apply Hothers; lia.
Qed.

Lemma module_slot_failure modUrl message :
  module_slot modUrl (Failure message) = error_slot (JStr modUrl).
Proof. reflexivity. Qed.

Lemma module_slot_succeeds W moduleUrls i :
  module_succeeds W moduleUrls i ->
  exists statusCode modJson,
    module_answer W i = Response statusCode modJson /\
    process_module (module_url_at moduleUrls i) modJson = Ok (module_slot_at W moduleUrls i) /\
    status (module_slot_at W moduleUrls i) = success.
Proof.
  intros (statusCode & modJson & r & Hanswer & Hprim & Hprocess & Hstatus).
  exists statusCode, modJson. unfold module_slot_at, module_slot. rewrite Hanswer.
  destruct modJson; try discriminate; rewrite Hprocess; auto.
Qed.

Lemma page_at_url W moduleUrls i :
  page_url (page_at W moduleUrls i) = url (module_slot_at W moduleUrls i) /\
  page_langshake (page_at W moduleUrls i)
  = default [] (langshake (module_slot_at W moduleUrls i)).
Proof. split; reflexivity. Qed.

End Alignment.

(** C4. A manifest declares N modules, all of which have a URL; the fetch
    of module [k] fails, every other module is fetched and processed with
    success.  Then, whatever the order in which the module tasks and the
    page tasks settle: after the slot of the manifest the LangShake phase
    has exactly N slots and no hole; the slot at index [i] is the one of
    module [i], an error slot carrying the URL of the module for [i = k] and
    the result of processing the payload of module [i] otherwise; exactly
    one slot is marked [error] and N - 1 are marked [success]; and the
    benchmark completes with N pages, the page at index [i] having the URL
    and the records of the slot of module [i]. *)
Theorem one_failure_among_modules (W : World) (S : Schedule) (llmUrl : string)
    (statusCode : nat) (llmJson : json) (path : json) (paths : list json)
    (moduleUrls : list string) (k : nat) (message : string) :
  fair (langshake_order S) -> fair (traditional_order S) ->
  resolve W (JStr llm_path) = Some llmUrl ->
  manifest_first W = Response statusCode llmJson ->
  manifest_second W = Response statusCode llmJson ->
  get llmJson "modules" = Ok (Some (JArr (path :: paths))) ->
  Forall2 (fun p u => resolve W p = Some u) (path :: paths) moduleUrls ->
  k < length (path :: paths) ->
  module_answer W k = Failure message ->
  (forall i, i < length (path :: paths) -> i <> k -> module_succeeds W moduleUrls i) ->
  let N := length (path :: paths) in
  let slots :=
    drop 1 (results (langshake_phase W (langshake_order S) llmUrl statusCode llmJson
                                     moduleUrls)) in
  length slots = N /\
  (forall i, i < N -> exists r, slots !! i = Some (Some r) /\
     if decide (i = k)
     then r = error_slot (JStr (module_url_at moduleUrls k))
     else status r = success /\
          exists statusCode' modJson,
            module_answer W i = Response statusCode' modJson /\
            process_module (module_url_at moduleUrls i) modJson = Ok r) /\
  count_status error slots = 1 /\
  count_status success slots = N - 1 /\
  exists log pages s langshakeMetrics traditionalMetrics,
    runDomainBenchmark W S
    = (log, BenchmarkResult pages s langshakeMetrics traditionalMetrics) /\
    length pages = N /\
    forall i, i < N -> exists r p,
      slots !! i = Some (Some r) /\ pages !! i = Some (Some p) /\
      page_url p = url r /\ page_langshake p = default [] (langshake r).
Proof.
  intros HfairL HfairT Hurl Hfirst Hsecond Hget Hresolved Hk Hfail Hothers N slots.
  assert (Hlen : length moduleUrls = N).
  { symmetry. apply (Forall2_length _ _ _ Hresolved). }
  assert (Hslots : slots = map (fun i => Some (module_slot_at W moduleUrls i)) (seq 0 N)).
  { unfold slots. rewrite langshake_phase_results by exact HfairL.
    rewrite Hlen. reflexivity. }
  assert (Hslot_k : module_slot_at W moduleUrls k
                    = error_slot (JStr (module_url_at moduleUrls k))).
  { unfold module_slot_at. rewrite Hfail. reflexivity. }
  assert (Hstatus : forall i, i < N -> i <> k ->
                      status (module_slot_at W moduleUrls i) = success).
  { intros i Hi Hne.
    destruct (module_slot_succeeds W moduleUrls i (Hothers i Hi Hne))
      as (_ & _ & _ & _ & Hs). exact Hs. }
  split; [|split; [|split; [|split]]].
  - rewrite Hslots, length_map, length_seq. reflexivity.
  - intros i Hi. exists (module_slot_at W moduleUrls i).
    rewrite Hslots, lookup_map_seq by exact Hi. split; [reflexivity|].
    destruct (decide (i = k)) as [->|Hne]; [exact Hslot_k|].
    destruct (module_slot_succeeds W moduleUrls i (Hothers i Hi Hne))
      as (statusCode' & modJson & Hanswer & Hprocess & Hs).
    split; [exact Hs|]. exists statusCode', modJson. auto.
  - rewrite Hslots, count_status_map. apply (count_one error _ k N Hk).
    + rewrite Hslot_k. reflexivity.
    + intros i Hi Hne. rewrite (Hstatus i Hi Hne). discriminate.
  - rewrite Hslots, count_status_map. apply (count_all_but_one success _ k N Hk).
    + rewrite Hslot_k. discriminate.
    + exact Hstatus.
  - destruct (runDomainBenchmark_completes W S llmUrl statusCode llmJson path paths
                statusCode llmJson (Some (JArr (path :: paths)))
                HfairL HfairT Hurl Hfirst Hget Hsecond Hget) as (log & mT & Hrun).
    cbn [module_urls] in Hrun. rewrite (resolve_all_Forall2 _ _ _ Hresolved) in Hrun.
    eexists log, _, _, _, mT. split; [exact Hrun|].
    unfold pages_of. rewrite Hlen, length_map, length_seq. split; [reflexivity|].
    intros i Hi. exists (module_slot_at W moduleUrls i), (page_at W moduleUrls i).
    rewrite Hslots, !lookup_map_seq by exact Hi.
    repeat split; reflexivity.
Qed.

Lemma one_failure_among_modules_witness :
  count_status error
    (drop 1 (results (langshake_phase one_failure_world (langshake_order last_first)
                        example_llm_url 200 (manifest_of three_paths "irrelevant")
                        three_urls))) = 1 /\
  exists log pages s langshakeMetrics traditionalMetrics,
    runDomainBenchmark one_failure_world last_first
    = (log, BenchmarkResult pages s langshakeMetrics traditionalMetrics) /\
    length pages = 3.
Proof.
  destruct (one_failure_among_modules one_failure_world last_first example_llm_url 200
              (manifest_of three_paths "irrelevant")
              (JStr "/langshake/article.json")
              [JStr "/langshake/missing.json"; JStr "/langshake/products.json"]
              three_urls 1 "connect ECONNREFUSED"
              (proj1 last_first_fair) (proj2 last_first_fair)
              eq_refl eq_refl eq_refl eq_refl)
    as (_ & _ & Herrors & _ & log & pages & s & mL & mT & Hrun & Hlen & _).
  - repeat constructor.
  - simpl. lia.
  - reflexivity.
  - intros i Hi Hne. destruct i as [|[|[|i]]]; simpl in Hi; try lia.
    + eexists 200, (JArr article_schemas), _. repeat split.
    + eexists 200, (JArr [product; checksum_holder "irrelevant"]), _. repeat split.
  - split; [exact Herrors|]. exists log, pages, s, mL, mT. split; assumption.
Defined.

(** ** The canonical text *)

Section Canonical.

Lemma stableStringify_arr items :
  stableStringify (JArr items)
  = "[" +:+ String.concat "," (map stableStringify items) +:+ "]".
Proof. reflexivity. Qed.

Lemma stableStringify_obj fields :
  stableStringify (JObj fields)
  = "{" +:+ String.concat "," (map (entry_text (render fields))
                                   (sort_keys (map fst fields))) +:+ "}".
Proof. reflexivity. Qed.

Lemma assoc_get_in {A} (l : list (string * A)) k v :
  NoDup (map fst l) -> (k, v) ∈ l -> assoc_get k l = Some v.
Proof.
  induction l as [|[k0 v0] l IH]; intros Hnodup Hin; [inversion Hin|].
  simpl in *. apply NoDup_cons in Hnodup as [Hfresh Hnodup].
  apply elem_of_cons in Hin as [Heq|Hin].
  - injection Heq as -> ->. rewrite String.eqb_refl. reflexivity.
  - destruct (String.eqb_spec k0 k) as [->|_]; [|auto].
    exfalso. apply Hfresh. apply list_elem_of_fmap. exists (k, v). auto.
Qed.

Lemma assoc_get_Some {A} (l : list (string * A)) k v :
  assoc_get k l = Some v -> (k, v) ∈ l.
Proof.
  induction l as [|[k0 v0] l IH]; [discriminate|]. simpl.
  destruct (String.eqb_spec k0 k) as [->|_].
  - intros [= ->]. constructor.
  - intros Hget. constructor. auto.
Qed.

Lemma assoc_get_None {A} (l : list (string * A)) k :
  assoc_get k l = None <-> k ∉ map fst l.
Proof.
  induction l as [|[k0 v0] l IH]; simpl.
  - split; [intros _ Hin; inversion Hin | reflexivity].
  - destruct (String.eqb_spec k0 k) as [->|Hne].
    + split; [discriminate|]. intros Hnot. exfalso. apply Hnot. constructor.
    + rewrite IH. rewrite not_elem_of_cons. split; [auto | tauto].
Qed.

Lemma assoc_get_perm {A} (l l' : list (string * A)) k :
  NoDup (map fst l) -> l ≡ₚ l' -> assoc_get k l = assoc_get k l'.
Proof.
  intros Hnodup Hperm.
  assert (Hnodup' : NoDup (map fst l')) by (rewrite <- Hperm; exact Hnodup).
  destruct (assoc_get k l) as [v|] eqn:Hget.
  - symmetry. apply assoc_get_in; [exact Hnodup'|].
    rewrite <- Hperm. apply assoc_get_Some. exact Hget.
  - symmetry. apply assoc_get_None. rewrite <- Hperm. apply assoc_get_None. exact Hget.
Qed.

Lemma assoc_get_render fields k :
  assoc_get k (render fields) = stableStringify <$> assoc_get k fields.
Proof.
  unfold render. induction fields as [|[k0 v0] fields IH]; [reflexivity|].
  simpl. destruct (String.eqb k0 k); [reflexivity | exact IH].
Qed.

Lemma render_keys fields : map fst (render fields) = map fst fields.
Proof. unfold render. rewrite map_map. reflexivity. Qed.

Lemma sort_keys_sorted keys : Sorted String.le (sort_keys keys).
Proof. apply Sorted_merge_sort. apply _. Qed.

Lemma sort_keys_perm keys : sort_keys keys ≡ₚ keys.
Proof. apply merge_sort_Permutation. Qed.

(** The sorted list of keys does not depend on the order of the keys. *)
Lemma sort_keys_unique keys keys' : keys ≡ₚ keys' -> sort_keys keys = sort_keys keys'.
Proof.
  intros Hperm. apply (Sorted_unique String.le); try apply sort_keys_sorted.
  rewrite !sort_keys_perm. exact Hperm.
Qed.

Lemma Forall2_keys (fields reordered : list (string * json)) :
  Forall2 (fun kv kv' => fst kv = fst kv' /\ key_equiv (snd kv) (snd kv')) fields reordered ->
  map fst fields = map fst reordered.
Proof.
  induction 1 as [|kv kv' fields reordered [Hk _] _ IH]; [reflexivity|].
  simpl. rewrite Hk, IH. reflexivity.
Qed.

(** Values that are equal up to the order of keys have the same canonical
    text. *)
Lemma stableStringify_equiv a :
  forall a', key_equiv a a' -> wf_json a -> stableStringify a = stableStringify a'.
Proof.
  induction a as [| | | |items IH|fields IH] using json_ind; intros a' Hequiv Hwf;
    inversion Hequiv; subst; try reflexivity.
  - rewrite !stableStringify_arr. do 3 f_equal.
    apply wf_json_arr in Hwf. clear Hequiv.
    match goal with H : Forall2 key_equiv _ _ |- _ => rename H into Hall end.
    induction Hall as [|x y items items' Hxy _ IHall]; [reflexivity|].
    inversion IH; subst. inversion Hwf; subst.
    simpl. f_equal; auto.
  - rewrite !stableStringify_obj.
    apply wf_json_obj in Hwf as [Hnodup Hwf].
    match goal with H : Forall2 _ _ _ |- _ => rename H into Hall end.
    match goal with H : _ ≡ₚ _ |- _ => rename H into Hperm end.
    assert (Hrender : render fields = render reordered).
    { clear Hperm Hnodup Hequiv. unfold render.
      induction Hall as [|kv kv' fields reordered [Hk Hv] _ IHall]; [reflexivity|].
      inversion IH; subst. inversion Hwf; subst.
      simpl. f_equal; [|auto]. f_equal; [exact Hk | auto]. }
    assert (Hkeys : sort_keys (map fst fields) = sort_keys (map fst fields')).
    { apply sort_keys_unique. rewrite (Forall2_keys _ _ Hall), Hperm. reflexivity. }
    rewrite <- Hkeys. do 3 f_equal. apply map_ext. intros key.
    unfold entry_text. do 3 f_equal. rewrite Hrender.
    apply assoc_get_perm.
    + rewrite render_keys, <- (Forall2_keys _ _ Hall). exact Hnodup.
    + unfold render. rewrite Hperm. reflexivity.
Qed.

End Canonical.

Section ArraysAsObjects.

Lemma indexed_lookup {A} (l : list A) i :
  indexed l !! i = (fun x => (pretty i, x)) <$> l !! i.
Proof. unfold indexed. rewrite list_lookup_imap. reflexivity. Qed.

Lemma indexed_keys {A} (l : list A) :
  map fst (indexed l) = map pretty (seq 0 (length l)).
Proof.
  apply list_eq. intros i. rewrite !list_lookup_fmap, indexed_lookup.
  destruct (l !! i) as [x|] eqn:Hx; simpl.
  - rewrite lookup_seq_lt by (apply lookup_lt_Some in Hx; exact Hx). reflexivity.
  - rewrite lookup_seq_ge by (apply lookup_ge_None in Hx; exact Hx). reflexivity.
Qed.

Lemma indexed_nodup {A} (l : list A) : NoDup (map fst (indexed l)).
Proof.
  rewrite indexed_keys. apply (NoDup_fmap_2 pretty). apply NoDup_seq.
Qed.

Lemma indexed_get {A} (l : list A) i : assoc_get (pretty i) (indexed l) = l !! i.
Proof.
  destruct (l !! i) as [x|] eqn:Hx.
  - apply assoc_get_in; [apply indexed_nodup|].
    apply list_elem_of_lookup. exists i. rewrite indexed_lookup, Hx. reflexivity.
  - apply assoc_get_None. rewrite indexed_keys. intros Hin.
    apply list_elem_of_fmap in Hin as (j & Heq & Hj).
    apply (inj pretty) in Heq as <-. apply elem_of_seq in Hj.
    apply lookup_ge_None in Hx. lia.
Qed.

Lemma indexed_wf records :
  Forall wf_json records -> wf_json (JObj (indexed records)).
Proof.
  intros Hwf. apply wf_json_obj. split; [apply indexed_nodup|].
  apply Forall_forall. intros [k v] Hin. simpl.
  apply list_elem_of_lookup in Hin as [i Hi]. rewrite indexed_lookup in Hi.
  destruct (records !! i) as [x|] eqn:Hx; [|discriminate].
  injection Hi as _ <-. rewrite Forall_forall in Hwf. apply Hwf.
  apply list_elem_of_lookup. eauto.
Qed.

Lemma indexed_Forall2 {A B} (R : A -> B -> Prop) l l' :
  Forall2 R l l' ->
  Forall2 (fun kv kv' => fst kv = fst kv' /\ R (snd kv) (snd kv')) (indexed l) (indexed l').
Proof.
  intros Hall. apply Forall2_same_length_lookup. split.
  - rewrite !indexed_length. apply (Forall2_length _ _ _ Hall).
  - intros i kv kv' Hkv Hkv'. rewrite indexed_lookup in Hkv. rewrite indexed_lookup in Hkv'.
    destruct (l !! i) as [x|] eqn:Hx; [|discriminate].
    destruct (l' !! i) as [y|] eqn:Hy; [|discriminate].
    injection Hkv as <-. injection Hkv' as <-. simpl. split; [reflexivity|].
    apply (Forall2_lookup_lr _ _ _ _ _ _ Hall Hx Hy).
Qed.

Lemma indexed_no_checksum {A} (l : list A) :
  filter (fun kv => negb (String.eqb (fst kv) "checksum") = true) (indexed l) = indexed l.
Proof.
  apply filter_all. apply Forall_forall. intros [k v] Hin. simpl.
  apply list_elem_of_lookup in Hin as [i Hi]. rewrite indexed_lookup in Hi.
  destruct (l !! i); [|discriminate]. injection Hi as <- _.
  rewrite pretty_nat_not_checksum. reflexivity.
Qed.

Lemma calculateModuleChecksum_array records :
  calculateModuleChecksum (JArr records) = Ok (array_checksum records).
Proof.
  unfold calculateModuleChecksum, checksum_preimage. simpl.
  rewrite indexed_no_checksum. reflexivity.
Qed.

Lemma array_preimage_equiv records records' :
  Forall2 key_equiv records records' -> Forall wf_json records ->
  array_preimage records = array_preimage records'.
Proof.
  intros Hall Hwf. unfold array_preimage.
  apply stableStringify_equiv; [|apply indexed_wf; exact Hwf].
  apply equiv_obj with (reordered := indexed records'); [|reflexivity].
  apply indexed_Forall2. exact Hall.
Qed.

(** In a sorted list of distinct strings the smaller of two members comes
    first. *)
Lemma sorted_before (keys : list string) a b :
  Sorted String.le keys -> a ∈ keys -> b ∈ keys -> ~ String.le b a ->
  exists l1 l2 l3, keys = l1 ++ a :: l2 ++ b :: l3.
Proof.
  intros Hsorted. apply Sorted_StronglySorted in Hsorted; [|apply _].
  induction Hsorted as [|x keys Hsorted IH Hall]; intros Ha Hb Hnle; [inversion Ha|].
  assert (Hab : a <> b) by (intros ->; apply Hnle; reflexivity).
  apply elem_of_cons in Ha as [->|Ha].
  - apply elem_of_cons in Hb as [->|Hb]; [contradiction|].
    apply list_elem_of_split in Hb as (l2 & l3 & ->).
    exists [], l2, l3. reflexivity.
  - apply elem_of_cons in Hb as [->|Hb].
    + exfalso. apply Hnle. rewrite List.Forall_forall in Hall.
      apply Hall. apply list_elem_of_In. exact Ha.
    + destruct (IH Ha Hb Hnle) as (l1 & l2 & l3 & ->).
      exists (x :: l1), l2, l3. reflexivity.
Qed.

(** The text hashed for a list of records: the records keyed by their
    decimal indices, the keys in the order of their texts. *)
Lemma array_preimage_text records :
  exists order,
    order ≡ₚ seq 0 (length records) /\
    map pretty order = sort_keys (map pretty (seq 0 (length records))) /\
    array_preimage records
    = "{" +:+ String.concat ","
                (map (fun i => quote (pretty i) +:+ ":" +:+
                               default "" (stableStringify <$> records !! i)) order)
          +:+ "}".
Proof.
  pose proof (sort_keys_perm (map pretty (seq 0 (length records)))) as Hperm.
  apply Permutation_map_inv in Hperm as (order & Hkeys & Horder).
  exists order. split; [symmetry; exact Horder|]. split; [symmetry; exact Hkeys|].
  unfold array_preimage. rewrite stableStringify_obj, indexed_keys, Hkeys, map_map.
  do 3 f_equal. apply map_ext. intros i. unfold entry_text.
  rewrite assoc_get_render, indexed_get. reflexivity.
Qed.

End ArraysAsObjects.

(** C9. The checksum of a list of records is the SHA-256 digest of the
    canonical text of the object whose keys are the decimal indices of the
    list: the entries of that text are the records keyed by their indices,
    in the order of the key texts, so that with 11 records or more the entry
    of index 10 stands before the entry of index 2.  That text is not the
    canonical text of the list itself.  For the empty list it is the text of
    the empty object. *)
Theorem checksum_of_indexed_object :
  (forall records : list json,
     calculateModuleChecksum (JArr records)
     = Ok (sha256_hex (stableStringify (JObj (indexed records)))) /\
     map fst (indexed records) = map pretty (seq 0 (length records)) /\
     (exists order,
        order ≡ₚ seq 0 (length records) /\
        map pretty order = sort_keys (map pretty (seq 0 (length records))) /\
        Sorted String.le (map pretty order) /\
        stableStringify (JObj (indexed records))
        = "{" +:+ String.concat ","
                    (map (fun i => quote (pretty i) +:+ ":" +:+
                                   default "" (stableStringify <$> records !! i)) order)
              +:+ "}") /\
     stableStringify (JObj (indexed records)) <> stableStringify (JArr records)) /\
  (forall records : list json, 11 <= length records ->
     exists l1 l2 l3,
       sort_keys (map fst (indexed records)) = l1 ++ "10" :: l2 ++ "2" :: l3) /\
  calculateModuleChecksum (JArr []) = Ok (sha256_hex "{}") /\
  sha256_hex "{}" = "44136fa355b3678a1146ad16f7e8649e94fb4fc21fe77e8310c060f61caaff8a".
Proof.
  split; [|split; [|split]].
  - intros records. split; [apply calculateModuleChecksum_array|].
    split; [apply indexed_keys|]. split.
    + destruct (array_preimage_text records) as (order & Hperm & Hkeys & Htext).
      exists order. split; [exact Hperm|]. split; [exact Hkeys|]. split; [|exact Htext].
      rewrite Hkeys. apply sort_keys_sorted.
    + rewrite stableStringify_obj, stableStringify_arr. discriminate.
  - intros records Hlen. rewrite indexed_keys.
    apply sorted_before.
    + apply sort_keys_sorted.
    + rewrite sort_keys_perm. apply list_elem_of_fmap. exists 10. split; [reflexivity|].
      apply elem_of_seq. lia.
    + rewrite sort_keys_perm. apply list_elem_of_fmap. exists 2. split; [reflexivity|].
      apply elem_of_seq. lia.
    + vm_compute. auto.
  - apply calculateModuleChecksum_array.
  - vm_compute. reflexivity.
Qed.

Lemma checksum_of_indexed_object_witness :
  11 <= length (replicate 12 article) /\
  exists l1 l2 l3,
    sort_keys (map fst (indexed (replicate 12 article))) = l1 ++ "10" :: l2 ++ "2" :: l3.
Proof.
  split; [simpl; lia|].
  apply (proj1 (proj2 checksum_of_indexed_object)). simpl. lia.
Defined.

(** ** The canonical text determines the value *)

Section Strings.

Lemma append_cons c (a b : string) : String c a +:+ b = String c (a +:+ b).
Proof. reflexivity. Qed.

Lemma append_nil (b : string) : "" +:+ b = b.
Proof. reflexivity. Qed.

Lemma append_assoc (a b c : string) : (a +:+ b) +:+ c = a +:+ (b +:+ c).
Proof.
  induction a as [|x a IH]; [reflexivity|].
  rewrite !append_cons, IH. reflexivity.
Qed.

Lemma append_inv_head (a x y : string) : a +:+ x = a +:+ y -> x = y.
Proof.
  induction a as [|c a IH]; [auto|]. rewrite !append_cons. intros [= H]. auto.
Qed.

Lemma unescape_char c r : unescape (escape_char c +:+ r) = push c (unescape r).
Proof.
  destruct c as [[] [] [] [] [] [] [] []]; reflexivity.
Qed.

Lemma unescape_escape s x : unescape (escape s +:+ String dquote x) = Some (s, x).
Proof.
  induction s as [|c s IH]; [reflexivity|].
  cbn [escape]. rewrite append_assoc, unescape_char, IH. reflexivity.
Qed.

Lemma quote_append s x : quote s +:+ x = String dquote (escape s +:+ String dquote x).
Proof. unfold quote. rewrite append_cons, append_assoc. reflexivity. Qed.

(** A quoted string can be read back, whatever follows it. *)
Lemma quote_inj s t x y : quote s +:+ x = quote t +:+ y -> s = t /\ x = y.
Proof.
  rewrite !quote_append. intros [= Heq].
  pose proof (unescape_escape s x) as Hs. rewrite Heq, unescape_escape in Hs.
  injection Hs as -> ->. auto.
Qed.

End Strings.

Section Numbers.

Lemma delimited_not_digit c rest : delimited (String c rest) -> is_digit c = false.
Proof. simpl. intros [->|[->| ->]]; reflexivity. Qed.

Lemma digits_run s : forall s' x y,
  all_digits s = true -> all_digits s' = true -> delimited x -> delimited y ->
  s +:+ x = s' +:+ y -> s = s' /\ x = y.
Proof.
  induction s as [|c s IH]; intros [|c' s'] x y Hs Hs' Hx Hy Heq.
  - auto.
  - rewrite append_nil, append_cons in Heq. subst x.
    apply delimited_not_digit in Hx. simpl in Hs'. rewrite Hx in Hs'. discriminate.
  - rewrite append_nil, append_cons in Heq. subst y.
    apply delimited_not_digit in Hy. simpl in Hs. rewrite Hy in Hs. discriminate.
  - rewrite !append_cons in Heq. injection Heq as <- Heq.
    simpl in Hs, Hs'. apply andb_true_iff in Hs as [_ Hs].
    apply andb_true_iff in Hs' as [_ Hs'].
    destruct (IH s' x y Hs Hs' Hx Hy Heq) as [-> ->]. auto.
Qed.

(** A decimal text: an optional minus sign, then digits. *)
Lemma pretty_Z_shape (n : Z) :
  (all_digits (pretty n) = true /\ pretty n <> "") \/
  (exists digits, pretty n = String "-" digits /\
                  all_digits digits = true /\ digits <> "").
Proof.
  destruct n as [|p|p].
  - left. split; [reflexivity | discriminate].
  - left. apply (pretty_N_digits (Npos p)).
  - right. exists (pretty (Npos p)). split; [reflexivity|].
    apply (pretty_N_digits (Npos p)).
Qed.

Lemma pretty_Z_run (n m : Z) x y :
  delimited x -> delimited y ->
  pretty n +:+ x = pretty m +:+ y -> n = m /\ x = y.
Proof.
  intros Hx Hy Heq.
  assert (Htext : pretty n = pretty m /\ x = y).
  { destruct (pretty_Z_shape n) as [[Hn Hn']|(dn & Hn & Hdn & Hdn')],
             (pretty_Z_shape m) as [[Hm Hm']|(dm & Hm & Hdm & Hdm')].
    - apply digits_run; assumption.
    - rewrite Hm in Heq. destruct (pretty n) as [|c s]; [contradiction|].
      rewrite !append_cons in Heq. injection Heq as -> _. discriminate.
    - rewrite Hn in Heq. destruct (pretty m) as [|c s]; [contradiction|].
      rewrite !append_cons in Heq. injection Heq as <- _. discriminate.
    - rewrite Hn, Hm in Heq |- *. rewrite !append_cons in Heq. injection Heq as Heq.
      destruct (digits_run dn dm x y Hdn Hdm Hx Hy Heq) as [-> ->]. auto. }
  destruct Htext as [Htext ->]. split; [|reflexivity].
  apply (inj pretty). exact Htext.
Qed.

Lemma pretty_Z_class (n : Z) x :
  exists c r, pretty n +:+ x = String c r /\ class_of_char c = 3.
Proof.
  destruct (pretty_Z_shape n) as [[Hn Hn']|(dn & Hn & _)].
  - destruct (pretty n) as [|c s]; [contradiction|]. exists c, (s +:+ x).
    split; [reflexivity|]. simpl in Hn. apply andb_true_iff in Hn as [Hc _].
    unfold class_of_char. rewrite Hc.
    destruct c as [[] [] [] [] [] [] [] []]; try discriminate; reflexivity.
  - rewrite Hn. eexists _, _. split; [reflexivity | reflexivity].
Qed.

End Numbers.

Section Classes.

Lemma stableStringify_class v x :
  exists c r, stableStringify v +:+ x = String c r /\ class_of_char c = class_of v.
Proof.
  destruct v as [|[]|n|s|items|fields].
  - eexists _, _. split; reflexivity.
  - eexists _, _. split; reflexivity.
  - eexists _, _. split; reflexivity.
  - apply pretty_Z_class.
  - eexists _, _. split; reflexivity.
  - eexists _, _. split; reflexivity.
  - eexists _, _. split; reflexivity.
Qed.

Lemma same_class a b x y :
  stableStringify a +:+ x = stableStringify b +:+ y -> class_of a = class_of b.
Proof.
  intros Heq.
  destruct (stableStringify_class a x) as (c & r & Ha & <-).
  destruct (stableStringify_class b y) as (c' & r' & Hb & <-).
  rewrite Ha, Hb in Heq. injection Heq as -> _. reflexivity.
Qed.

(** No canonical text starts with a comma or a closing bracket or brace. *)
Lemma not_a_value v x c rest :
  class_of_char c = 7 -> stableStringify v +:+ x <> String c rest.
Proof.
  intros Hc Heq. destruct (stableStringify_class v x) as (c' & r & Hv & Hclass).
  rewrite Hv in Heq. injection Heq as -> _. rewrite Hc in Hclass.
  destruct v as [|[]| | | |]; discriminate.
Qed.

Lemma concat_more s rest close :
  String.concat "," (s :: rest) +:+ close = s +:+ more rest close.
Proof.
  revert s. induction rest as [|t rest IH]; intros s; [reflexivity|].
  change (String.concat "," (s :: t :: rest))
    with (s +:+ "," +:+ String.concat "," (t :: rest)).
  rewrite !append_assoc, IH. reflexivity.
Qed.

Lemma more_delimited texts c x :
  c = "]"%char \/ c = "}"%char -> delimited (more texts (String c x)).
Proof. intros Hc. destruct texts; simpl; tauto. Qed.

End Classes.

Section Readable.

Lemma arr_text items x :
  stableStringify (JArr items) +:+ x
  = String "[" (match map stableStringify items with
                | [] => String "]" x
                | t :: rest => t +:+ more rest (String "]" x)
                end).
Proof.
  rewrite stableStringify_arr.
  destruct (map stableStringify items) as [|t rest].
  - reflexivity.
  - change (String "[" ((String.concat "," (t :: rest) +:+ "]") +:+ x)
            = String "[" (t +:+ more rest (String "]" x))).
    rewrite append_assoc. change ("]" +:+ x) with (String "]" x).
    rewrite concat_more. reflexivity.
Qed.

Lemma obj_text fields x :
  stableStringify (JObj fields) +:+ x
  = String "{" (match map (entry_text (render fields)) (sort_keys (map fst fields)) with
                | [] => String "}" x
                | t :: rest => t +:+ more rest (String "}" x)
                end).
Proof.
  rewrite stableStringify_obj.
  destruct (map (entry_text (render fields)) (sort_keys (map fst fields))) as [|t rest].
  - reflexivity.
  - change (String "{" ((String.concat "," (t :: rest) +:+ "}") +:+ x)
            = String "{" (t +:+ more rest (String "}" x))).
    rewrite append_assoc. change ("}" +:+ x) with (String "}" x).
    rewrite concat_more. reflexivity.
Qed.

Lemma string_tail_eq c c' (a b : string) : String c a = String c' b -> a = b.
Proof. intros [= _ H]. exact H. Qed.

Lemma more_cons t rest close :
  more (t :: rest) close = String "," (t +:+ more rest close).
Proof. reflexivity. Qed.

Lemma more_arr items :
  Forall readable items ->
  forall items' x y,
    Forall wf_json items -> Forall wf_json items' -> delimited x -> delimited y ->
    more (map stableStringify items) (String "]" x)
    = more (map stableStringify items') (String "]" y) ->
    Forall2 key_equiv items items' /\ x = y.
Proof.
  induction 1 as [|a items Ha _ IH]; intros [|b items'] x y Hwf Hwf' Hx Hy Heq.
  - injection Heq as ->. auto.
  - discriminate.
  - discriminate.
  - cbn [map] in Heq. rewrite !more_cons in Heq.
    apply string_tail_eq in Heq. inversion Hwf; subst. inversion Hwf'; subst.
    destruct (Ha b _ _ ltac:(assumption) ltac:(assumption)
                (more_delimited _ "]" x (or_introl eq_refl))
                (more_delimited _ "]" y (or_introl eq_refl)) Heq) as [Hab Hmore].
    destruct (IH items' x y ltac:(assumption) ltac:(assumption) Hx Hy Hmore) as [Hall ->].
    split; [constructor; assumption | reflexivity].
Qed.

Lemma readable_arr items : Forall readable items -> readable (JArr items).
Proof.
  intros Hall b x y Hwf Hwf' Hx Hy Heq.
  pose proof (same_class _ _ _ _ Heq) as Hclass.
  destruct b as [|[]| | |items'|]; try discriminate. clear Hclass.
  rewrite !arr_text in Heq. apply string_tail_eq in Heq.
  apply wf_json_arr in Hwf, Hwf'.
  destruct items as [|a items], items' as [|a' items']; cbn [map] in Heq.
  - injection Heq as ->. split; [repeat constructor | reflexivity].
  - symmetry in Heq. apply not_a_value in Heq; [contradiction | reflexivity].
  - apply not_a_value in Heq; [contradiction | reflexivity].
  - inversion Hall; subst. inversion Hwf; subst. inversion Hwf'; subst.
    match goal with H : readable a |- _ => rename H into Ha end.
    destruct (Ha a' _ _ ltac:(assumption) ltac:(assumption)
                (more_delimited _ "]" x (or_introl eq_refl))
                (more_delimited _ "]" y (or_introl eq_refl)) Heq) as [Haa Hmore].
    destruct (more_arr items ltac:(assumption) items' x y
                ltac:(assumption) ltac:(assumption) Hx Hy Hmore) as [Hrest ->].
    split; [|reflexivity]. constructor. constructor; assumption.
Qed.

(** One entry of an object, read back. *)
Lemma entry_step fields fields' k k' v v' X X' :
  assoc_get k fields = Some v -> readable v -> wf_json v ->
  assoc_get k' fields' = Some v' -> wf_json v' ->
  delimited X -> delimited X' ->
  entry_text (render fields) k +:+ X = entry_text (render fields') k' +:+ X' ->
  k = k' /\ key_equiv v v' /\ X = X'.
Proof.
  intros Hv Hread Hwf Hv' Hwf' HX HX' Heq. unfold entry_text in Heq.
  rewrite !assoc_get_render, Hv, Hv' in Heq. cbn [fmap option_fmap option_map default] in Heq.
  rewrite !append_assoc in Heq. apply quote_inj in Heq as [-> Heq].
  rewrite !append_cons, !append_nil in Heq. injection Heq as Heq.
  destruct (Hread v' X X' Hwf Hwf' HX HX' Heq) as [Hequiv ->]. auto.
Qed.

Lemma more_obj fields fields' keys :
  forall keys' x y,
    known fields keys -> present fields' keys' -> delimited x -> delimited y ->
    more (map (entry_text (render fields)) keys) (String "}" x)
    = more (map (entry_text (render fields')) keys') (String "}" y) ->
    keys = keys' /\ matched fields fields' keys /\ x = y.
Proof.
  induction keys as [|k keys IH]; intros [|k' keys'] x y Hknown Hpresent Hx Hy Heq.
  - injection Heq as ->. split; [reflexivity|]. split; [|reflexivity].
    intros k Hk. inversion Hk.
  - discriminate.
  - discriminate.
  - cbn [map] in Heq. rewrite !more_cons in Heq.
    apply string_tail_eq in Heq.
    destruct (Hknown k ltac:(constructor)) as (v & Hv & Hread & Hwf).
    destruct (Hpresent k' ltac:(constructor)) as (v' & Hv' & Hwf').
    destruct (entry_step _ _ _ _ _ _ _ _ Hv Hread Hwf Hv' Hwf'
                (more_delimited _ "}" x (or_intror eq_refl))
                (more_delimited _ "}" y (or_intror eq_refl)) Heq)
      as (<- & Hequiv & Hmore).
    destruct (IH keys' x y) as (<- & Hmatched & ->); auto.
    + intros j Hj. apply Hknown. constructor. exact Hj.
    + intros j Hj. apply Hpresent. constructor. exact Hj.
    + split; [reflexivity|]. split; [|reflexivity].
      intros j Hj. apply elem_of_cons in Hj as [->|Hj]; [eauto | auto].
Qed.

End Readable.

Section Objects.

Lemma key_has_value (fields : list (string * json)) k :
  k ∈ map fst fields -> exists v, (k, v) ∈ fields.
Proof.
  intros Hk. apply list_elem_of_fmap in Hk as ([k' v] & -> & Hin). eauto.
Qed.

Lemma known_sorted fields :
  NoDup (map fst fields) ->
  Forall (fun kv => readable (snd kv)) fields ->
  Forall (fun kv => wf_json (snd kv)) fields ->
  known fields (sort_keys (map fst fields)).
Proof.
  intros Hnodup Hread Hwf k Hk. rewrite sort_keys_perm in Hk.
  destruct (key_has_value fields k Hk) as [v Hv]. exists v.
  rewrite Forall_forall in Hread, Hwf.
  split; [apply assoc_get_in; assumption|].
  split; [apply (Hread (k, v) Hv) | apply (Hwf (k, v) Hv)].
Qed.

Lemma present_sorted fields :
  NoDup (map fst fields) ->
  Forall (fun kv => wf_json (snd kv)) fields ->
  present fields (sort_keys (map fst fields)).
Proof.
  intros Hnodup Hwf k Hk. rewrite sort_keys_perm in Hk.
  destruct (key_has_value fields k Hk) as [v Hv]. exists v.
  rewrite Forall_forall in Hwf.
  split; [apply assoc_get_in; assumption | apply (Hwf (k, v) Hv)].
Qed.

Lemma fields_by_key (fields : list (string * json)) :
  NoDup (map fst fields) ->
  map (fun k => (k, default JNull (assoc_get k fields))) (map fst fields) = fields.
Proof.
  intros Hnodup. rewrite map_map. rewrite <- (map_id fields) at 2.
  apply map_ext_in. intros [k v] Hin. simpl.
  rewrite (assoc_get_in fields k v Hnodup); [reflexivity|].
  apply list_elem_of_In. exact Hin.
Qed.

(** Two objects with the same sorted keys and values that agree key by key
    are equal up to the order of keys. *)
Lemma obj_equiv fields fields' :
  NoDup (map fst fields) -> NoDup (map fst fields') ->
  sort_keys (map fst fields) = sort_keys (map fst fields') ->
  matched fields fields' (sort_keys (map fst fields)) ->
  key_equiv (JObj fields) (JObj fields').
Proof.
  intros Hnodup Hnodup' Hkeys Hmatched.
  assert (Hperm : map fst fields ≡ₚ map fst fields').
  { rewrite <- (sort_keys_perm (map fst fields)), Hkeys. apply sort_keys_perm. }
  apply equiv_obj
    with (reordered := map (fun k => (k, default JNull (assoc_get k fields')))
                           (map fst fields)).
  - rewrite map_map. apply Forall2_fmap_r. apply Forall_Forall2_diag.
    apply Forall_forall. intros [k v] Hin. simpl. split; [reflexivity|].
    destruct (Hmatched k) as (w & w' & Hw & Hw' & Hequiv).
    { rewrite sort_keys_perm. apply list_elem_of_fmap. exists (k, v). auto. }
    rewrite (assoc_get_in fields k v Hnodup Hin) in Hw. injection Hw as <-.
    rewrite Hw'. exact Hequiv.
  - etransitivity; [apply Permutation_map; exact Hperm|].
    rewrite (fields_by_key fields' Hnodup'). reflexivity.
Qed.

Lemma entry_not_close rendered k rest x : entry_text rendered k +:+ rest <> String "}" x.
Proof.
  unfold entry_text, quote. rewrite !append_cons. intros Heq. discriminate.
Qed.

Lemma readable_obj fields :
  Forall (fun kv => readable (snd kv)) fields -> readable (JObj fields).
Proof.
  intros Hall b x y Hwf Hwf' Hx Hy Heq.
  pose proof (same_class _ _ _ _ Heq) as Hclass.
  destruct b as [|[]| | | |fields']; try discriminate. clear Hclass.
  rewrite !obj_text in Heq. apply string_tail_eq in Heq.
  apply wf_json_obj in Hwf as [Hnodup Hwf]. apply wf_json_obj in Hwf' as [Hnodup' Hwf'].
  pose proof (known_sorted fields Hnodup Hall Hwf) as Hknown.
  pose proof (present_sorted fields' Hnodup' Hwf') as Hpresent.
  assert (Hread : sort_keys (map fst fields) = sort_keys (map fst fields') /\
                  matched fields fields' (sort_keys (map fst fields)) /\ x = y).
  { destruct (sort_keys (map fst fields)) as [|k keys],
             (sort_keys (map fst fields')) as [|k' keys']; cbn [map] in Heq.
    - injection Heq as ->. split; [reflexivity|]. split; [|reflexivity].
      intros k Hk. inversion Hk.
    - symmetry in Heq. apply entry_not_close in Heq. contradiction.
    - apply entry_not_close in Heq. contradiction.
    - apply (more_obj fields fields' (k :: keys) (k' :: keys') x y); auto.
      cbn [map]. rewrite !more_cons. f_equal. exact Heq. }
  destruct Hread as (Hkeys & Hmatched & ->).
  split; [|reflexivity]. apply obj_equiv; assumption.
Qed.

(** Every value can be read back from its canonical text. *)
Lemma all_readable a : readable a.
Proof.
  induction a as [| | | |items IH|fields IH] using json_ind.
  - intros b x y _ _ _ _ Heq. pose proof (same_class _ _ _ _ Heq) as Hclass.
    destruct b as [|[]| | | |]; try discriminate.
    apply append_inv_head in Heq. split; [constructor | exact Heq].
  - intros v x y _ _ _ _ Heq. pose proof (same_class _ _ _ _ Heq) as Hclass.
    destruct b, v as [|[]| | | |]; try discriminate;
      apply append_inv_head in Heq; (split; [constructor | exact Heq]).
  - intros b x y _ _ Hx Hy Heq. pose proof (same_class _ _ _ _ Heq) as Hclass.
    destruct b as [|[]|m| | |]; try discriminate.
    destruct (pretty_Z_run n m x y Hx Hy Heq) as [-> ->].
    split; [constructor | reflexivity].
  - intros b x y _ _ _ _ Heq. pose proof (same_class _ _ _ _ Heq) as Hclass.
    destruct b as [|[]| |t| |]; try discriminate.
    apply quote_inj in Heq as [-> ->]. split; [constructor | reflexivity].
  - apply readable_arr. exact IH.
  - apply readable_obj. exact IH.
Qed.

(** The canonical text determines the value up to the order of keys. *)
Lemma stableStringify_inj a b :
  wf_json a -> wf_json b -> stableStringify a = stableStringify b -> key_equiv a b.
Proof.
  intros Hwf Hwf' Heq.
  apply (all_readable a b "" "" Hwf Hwf' I I). rewrite Heq. reflexivity.
Qed.

End Objects.

(** ** The checksum of a record list *)

Section ChecksumOrder.

Lemma equiv_indexed records records' :
  key_equiv (JObj (indexed records)) (JObj (indexed records')) ->
  Forall2 key_equiv records records'.
Proof.
  intros Hequiv. inversion Hequiv as [| | | | |? reordered ? Hall Hperm]; subst.
  assert (Hkeys : map fst reordered = map pretty (seq 0 (length records))).
  { rewrite <- (Forall2_keys _ _ Hall). apply indexed_keys. }
  assert (Hlen : length records = length records').
  { apply (f_equal length) in Hkeys. rewrite !length_map, length_seq in Hkeys.
    rewrite <- Hkeys, Hperm. apply indexed_length. }
  apply Forall2_same_length_lookup. split; [exact Hlen|].
  intros i a b Ha Hb.
  assert (Hkv : indexed records !! i = Some (pretty i, a)).
  { rewrite indexed_lookup, Ha. reflexivity. }
  destruct (Forall2_lookup_l _ _ _ _ _ Hall Hkv) as ([k w] & Hw & Hk & Haw).
  simpl in Hk, Haw. subst k.
  assert (Hin : (pretty i, w) ∈ indexed records').
  { rewrite <- Hperm. apply list_elem_of_lookup. eauto. }
  apply (assoc_get_in _ _ _ (indexed_nodup records')) in Hin.
  rewrite indexed_get, Hb in Hin. injection Hin as ->. exact Haw.
Qed.

(** The text that is hashed is the same exactly for record lists that are
    equal up to the order of keys, position by position. *)
Lemma array_preimage_inj records records' :
  Forall wf_json records -> Forall wf_json records' ->
  array_preimage records = array_preimage records' ->
  Forall2 key_equiv records records'.
Proof.
  intros Hwf Hwf' Heq. apply equiv_indexed.
  apply stableStringify_inj; auto using indexed_wf.
Qed.

End ChecksumOrder.

(** C2. Record lists that are equal up to the order of the keys inside
    their records, at any depth, have the same checksum.  Record lists that
    are not, as when two records that differ by more than the order of
    their keys change places, are hashed from different texts: their
    checksums differ unless SHA-256 has the same digest for these two
    texts. *)
Theorem checksum_key_order_and_record_order :
  (forall records records',
     Forall wf_json records -> Forall2 key_equiv records records' ->
     array_preimage records = array_preimage records' /\
     calculateModuleChecksum (JArr records) = calculateModuleChecksum (JArr records')) /\
  (forall records records',
     Forall wf_json records -> Forall wf_json records' ->
     ~ Forall2 key_equiv records records' ->
     array_preimage records <> array_preimage records' /\
     (calculateModuleChecksum (JArr records) <> calculateModuleChecksum (JArr records') \/
      sha256_collision (array_preimage records) (array_preimage records'))) /\
  (forall before a b after,
     Forall wf_json (before ++ a :: b :: after) -> ~ key_equiv a b ->
     before ++ a :: b :: after ≡ₚ before ++ b :: a :: after /\
     ~ Forall2 key_equiv (before ++ a :: b :: after) (before ++ b :: a :: after)).
Proof.
  split; [|split].
  - intros records records' Hwf Hall.
    pose proof (array_preimage_equiv records records' Hall Hwf) as Heq.
    split; [exact Heq|]. rewrite !calculateModuleChecksum_array.
    unfold array_checksum. rewrite Heq. reflexivity.
  - intros records records' Hwf Hwf' Hdiffer.
    assert (Htexts : array_preimage records <> array_preimage records').
    { intros Heq. apply Hdiffer. apply array_preimage_inj; assumption. }
    split; [exact Htexts|]. rewrite !calculateModuleChecksum_array.
    destruct (decide (array_checksum records = array_checksum records')) as [Hsame|Hnot].
    + right. split; assumption.
    + left. congruence.
  - intros before a b after Hwf Hab. split.
    + apply Permutation_app_head. constructor.
    + intros Hall. apply Hab.
      apply (Forall2_lookup_lr _ _ _ (length before) a b Hall).
      * rewrite lookup_app_r by lia. rewrite Nat.sub_diag. reflexivity.
      * rewrite lookup_app_r by lia. rewrite Nat.sub_diag. reflexivity.
Qed.

Ltac distinct_keys :=
  repeat (apply NoDup_cons_2;
          [rewrite ?elem_of_cons, ?elem_of_nil; intuition discriminate|]);
  apply NoDup_nil_2.

Lemma example_records_wf :
  Forall wf_json [article; product] /\ Forall wf_json [product; article] /\
  Forall wf_json [article].
Proof.
  assert (Harticle : wf_json article).
  { simpl. split; [distinct_keys | tauto]. }
  assert (Hproduct : wf_json product).
  { simpl. split; [distinct_keys | tauto]. }
  repeat split; repeat (apply List.Forall_cons; [assumption|]); apply List.Forall_nil.
Qed.

Lemma article_is_not_product : ~ key_equiv article product.
Proof.
  intros Hequiv.
  apply stableStringify_equiv in Hequiv.
  - vm_compute in Hequiv. discriminate.
  - destruct example_records_wf as (_ & _ & Hwf). inversion Hwf; assumption.
Qed.

Lemma article_reordered_equiv : Forall2 key_equiv [article] [article_reordered].
Proof.
  repeat constructor.
  apply equiv_obj
    with (reordered := [("@type", JStr "Article"); ("url", JStr "https://example.com/a")]).
  - repeat constructor.
  - constructor.
Qed.

Lemma swap_digests_differ :
  array_checksum [article; product] <> array_checksum [product; article].
Proof. vm_compute. discriminate. Qed.

Lemma checksum_key_order_and_record_order_witness :
  calculateModuleChecksum (JArr [article])
  = calculateModuleChecksum (JArr [article_reordered]) /\
  array_preimage [article; product] <> array_preimage [product; article] /\
  calculateModuleChecksum (JArr [article; product])
  <> calculateModuleChecksum (JArr [product; article]).
Proof.
  destruct checksum_key_order_and_record_order as (Hsame & Hdiffer & Hswap).
  split; [|].
  - apply (Hsame [article] [article_reordered]).
    + apply example_records_wf.
    + apply article_reordered_equiv.
  - destruct (Hdiffer [article; product] [product; article]) as [Htexts Hsums].
    + apply example_records_wf.
    + apply example_records_wf.
    + apply (Hswap [] article product []); [apply example_records_wf|].
      apply article_is_not_product.
    + split; [exact Htexts|].
      destruct Hsums as [Hsums|[_ Hcollision]]; [exact Hsums|].
      exfalso. exact (swap_digests_differ Hcollision).
Defined.
(** * Further properties *)

(** ** Canonical texts and checksums *)

Lemma articles_wf : wf_json article /\ wf_json article_reordered /\ wf_json product.
Proof. repeat split; simpl; (distinct_keys || tauto). Qed.

(** X1. Two well-formed documents have the same canonical text exactly when
    they are equal up to the order of the keys of their objects, at any
    depth. *)
Theorem stableStringify_canonical (a b : json)
    (Hwf : wf_json a) (Hwf' : wf_json b) :
  stableStringify a = stableStringify b <-> key_equiv a b.
Proof.
  split.
  - apply stableStringify_inj; assumption.
  - intros Hequiv. apply stableStringify_equiv; assumption.
Qed.

Lemma stableStringify_canonical_witness :
  stableStringify article = stableStringify article_reordered
  <-> key_equiv article article_reordered.
Proof.
  apply stableStringify_canonical; apply articles_wf.
Defined.

Lemma filter_set_checksum (c : json) (fields : list (string * json)) :
  filter (fun kv => negb (String.eqb (fst kv) "checksum") = true)
         (set_property "checksum" c fields)
  = filter (fun kv => negb (String.eqb (fst kv) "checksum") = true) fields.
Proof.
  induction fields as [|[k v] fields IH]; [reflexivity|].
  simpl. destruct (String.eqb k "checksum") eqn:Hk.
  - rewrite !filter_cons. simpl. rewrite Hk. reflexivity.
  - rewrite !filter_cons. simpl. rewrite Hk. simpl. rewrite IH. reflexivity.
Qed.

Lemma key_equiv_singleton k v k' v' :
  key_equiv (JObj [(k, v)]) (JObj [(k', v')]) -> k = k' /\ key_equiv v v'.
Proof.
  intros Hequiv. inversion Hequiv as [| | | | |? reordered ? Hall Hperm]; subst.
  apply Permutation_singleton_r in Hperm as ->.
  inversion Hall as [|? ? ? ? [Hk Hv] Hrest]; subst. simpl in *. auto.
Qed.

Lemma Ok_inj {A} (a b : A) : Ok a = Ok b -> a = b.
Proof. congruence. Qed.

Lemma checksum_preimage_single k v :
  k <> "checksum" ->
  checksum_preimage (JObj [(k, v)]) = Ok (stableStringify (JObj [(k, v)])).
Proof.
  intros Hk. apply String.eqb_neq in Hk.
  change (checksum_preimage (JObj [(k, v)]))
    with (Ok (stableStringify
                (JObj (filter (fun kv => negb (String.eqb (fst kv) "checksum") = true)
                              [(k, v)])))).
  rewrite filter_cons, filter_nil. cbn [fst]. rewrite Hk. reflexivity.
Qed.

(** X2. The checksum of a module object does not depend on its own
    [checksum] property: setting or replacing it leaves the checksum as it
    is.  Only the top level is exempt: a [checksum] property of a nested
    object is part of the hashed text. *)
Theorem checksum_excludes_top_level_checksum :
  (forall fields c,
     calculateModuleChecksum (JObj (set_property "checksum" c fields))
     = calculateModuleChecksum (JObj fields)) /\
  (forall k c c', k <> "checksum" -> wf_json c -> wf_json c' ->
     checksum_preimage (JObj [(k, JObj [("checksum", c)])])
     = checksum_preimage (JObj [(k, JObj [("checksum", c')])]) ->
     key_equiv c c').
Proof.
  split.
  - intros fields c. unfold calculateModuleChecksum, checksum_preimage. simpl.
    rewrite filter_set_checksum. reflexivity.
  - intros k c c' Hk Hwf Hwf' Heq.
    rewrite !checksum_preimage_single in Heq by exact Hk.
    apply Ok_inj in Heq.
    apply stableStringify_inj in Heq.
    + apply key_equiv_singleton in Heq as [_ Heq].
      apply key_equiv_singleton in Heq as [_ Heq]. exact Heq.
    + simpl. repeat split; try assumption; distinct_keys.
    + simpl. repeat split; try assumption; distinct_keys.
Qed.

Lemma checksum_excludes_top_level_checksum_witness :
  key_equiv (JStr "one") (JStr "one").
Proof.
  apply (proj2 checksum_excludes_top_level_checksum "item" (JStr "one") (JStr "one"));
    [discriminate | exact I | exact I | reflexivity].
Defined.

Lemma empty_object_digest :
  sha256_hex "{}" = "44136fa355b3678a1146ad16f7e8649e94fb4fc21fe77e8310c060f61caaff8a".
Proof. vm_compute. reflexivity. Qed.

(** A text with a code unit above 127 is hashed in its UTF-8 encoding. *)
Lemma accented_text_digest :
  sha256_hex (String (ascii_of_nat 233) "")
  = "4a99557e4033c3539de2eb65472017cad5f9557f7a0625a09f1c3f6e2ba69c4c".
Proof. vm_compute. reflexivity. Qed.

(** X3. [calculateModuleChecksum] throws on [null]; a number, a boolean, the
    empty array, the empty object and an object whose only property is
    [checksum] all have the checksum of the text of the empty object. *)
Theorem checksum_of_propertyless_values :
  calculateModuleChecksum JNull
  = Throw (TypeError "Cannot convert undefined or null to object") /\
  (forall v,
     (exists n, v = JNum n) \/ (exists b, v = JBool b) \/ v = JArr [] \/ v = JObj [] \/
     (exists c, v = JObj [("checksum", c)]) ->
     calculateModuleChecksum v
     = Ok "44136fa355b3678a1146ad16f7e8649e94fb4fc21fe77e8310c060f61caaff8a").
Proof.
  split; [reflexivity|].
  intros v Hv. rewrite <- empty_object_digest.
  destruct Hv as [[n ->]|[[b ->]|[->|[->|[c ->]]]]]; reflexivity.
Qed.

Lemma checksum_of_propertyless_values_witness :
  calculateModuleChecksum (JNum 7)
  = Ok "44136fa355b3678a1146ad16f7e8649e94fb4fc21fe77e8310c060f61caaff8a".
Proof.
  apply (proj2 checksum_of_propertyless_values). left. exists 7%Z. reflexivity.
Defined.

(** ** Merkle roots *)

Lemma next_level_app level rest :
  Nat.even (length level) = true ->
  next_level (level ++ rest) = next_level level ++ next_level rest.
Proof.
  induction level as [|a|a b level IH] using pair_induction; intros Heven.
  - reflexivity.
  - discriminate.
  - simpl in *. rewrite IH by exact Heven. reflexivity.
Qed.

(** X4. A list with an odd number of leaves, three or more, has the root of
    the list extended by a copy of its last leaf. *)
Theorem merkle_root_duplicated_last_leaf (leaves : list string) (last_leaf : string)
    (Heven : Nat.even (length leaves) = true) (Hlen : 2 <= length leaves) :
  calculateMerkleRoot (leaves ++ [last_leaf])
  = calculateMerkleRoot (leaves ++ [last_leaf; last_leaf]).
Proof.
  rewrite (calculateMerkleRoot_step (leaves ++ [last_leaf]))
    by (rewrite length_app; simpl; lia).
  rewrite (calculateMerkleRoot_step (leaves ++ [last_leaf; last_leaf]))
    by (rewrite length_app; simpl; lia).
  rewrite !next_level_app by exact Heven. reflexivity.
Qed.

Lemma merkle_root_duplicated_last_leaf_witness :
  calculateMerkleRoot (["aa"; "bb"] ++ ["cc"])
  = calculateMerkleRoot (["aa"; "bb"] ++ ["cc"; "cc"]).
Proof.
  apply merkle_root_duplicated_last_leaf; [reflexivity | simpl; lia].
Defined.

Lemma hex_digit_lower_hex (d : Z) :
  (0 <= d < 16)%Z -> is_lower_hex (SHA256.hex_digit d) = true.
Proof.
  intros Hd.
  assert (Hcases : (d = 0 \/ d = 1 \/ d = 2 \/ d = 3 \/ d = 4 \/ d = 5 \/ d = 6 \/ d = 7 \/
                    d = 8 \/ d = 9 \/ d = 10 \/ d = 11 \/ d = 12 \/ d = 13 \/ d = 14 \/
                    d = 15)%Z) by lia.
  repeat (destruct Hcases as [->|Hcases]; [reflexivity|]). subst. reflexivity.
Qed.

Lemma hex_word_lower_hex x rest :
  all_lower_hex rest = true -> all_lower_hex (SHA256.hex_word x rest) = true.
Proof.
  intros Hrest. unfold SHA256.hex_word. cbn [all_lower_hex].
  rewrite !hex_digit_lower_hex by (apply Z.mod_pos_bound; lia).
  exact Hrest.
Qed.

Lemma sha256_hex_format s :
  String.length (sha256_hex s) = 64 /\ all_lower_hex (sha256_hex s) = true.
Proof.
  unfold sha256_hex. generalize (SHA256.digest (SHA256.bytes_of_string s)).
  intros st. split; [reflexivity|].
  unfold SHA256.hex_state. repeat apply hex_word_lower_hex. reflexivity.
Qed.

Lemma next_level_digests (P : string -> Prop) level :
  (forall s, P (sha256_hex s)) -> Forall P (next_level level).
Proof.
  intros Hdigest.
  induction level as [|x|x y l IHl] using pair_induction; simpl; repeat constructor; auto.
Qed.

Lemma root_of_digests (P : string -> Prop) :
  (forall s, P (sha256_hex s)) ->
  forall n level, length level = n -> level <> [] -> Forall P level ->
  P (calculateMerkleRoot level).
Proof.
  intros Hdigest n. induction n as [n IH] using lt_wf_ind.
  intros level Hn Hne Hall.
  destruct level as [|a [|b level]]; [contradiction| |].
  - inversion Hall; assumption.
  - rewrite calculateMerkleRoot_step by (simpl; lia).
    apply (IH (length (next_level (a :: b :: level)))); try reflexivity.
    + rewrite next_level_length. subst n.
      change (length (a :: b :: level)) with (S (S (length level))).
      change (Nat.div2 (S (S (S (length level)))))
        with (S (Nat.div2 (S (length level)))).
      pose proof (Nat.div2_decr (S (length level)) (length level)). lia.
    + apply next_level_nonempty. discriminate.
    + apply next_level_digests. exact Hdigest.
Qed.

(** X5. The root of two or more leaves is a SHA-256 digest in text form: 64
    characters, each a digit or a letter from a to f, whatever the leaves
    are. *)
Theorem merkle_root_is_hex_digest (leaves : list string) (Hlen : 2 <= length leaves) :
  String.length (calculateMerkleRoot leaves) = 64 /\
  all_lower_hex (calculateMerkleRoot leaves) = true.
Proof.
  rewrite calculateMerkleRoot_step by exact Hlen.
  apply (root_of_digests (fun r => String.length r = 64 /\ all_lower_hex r = true)
           sha256_hex_format (length (next_level leaves))); [reflexivity | |].
  - apply next_level_nonempty. destruct leaves; [simpl in Hlen; lia | discriminate].
  - apply next_level_digests. exact sha256_hex_format.
Qed.

Lemma merkle_root_is_hex_digest_witness :
  String.length (calculateMerkleRoot ["not a hash"; ""; "x"]) = 64 /\
  all_lower_hex (calculateMerkleRoot ["not a hash"; ""; "x"]) = true.
Proof.
  apply merkle_root_is_hex_digest. simpl. lia.
Defined.

(** ** The comparison of a page *)

Lemma key_equiv_arr items items' :
  key_equiv (JArr items) (JArr items') <-> Forall2 key_equiv items items'.
Proof.
  split.
  - intros Hequiv. inversion Hequiv; assumption.
  - apply equiv_arr.
Qed.

(** X6. For a page whose records are well formed on both sides,
    [schemasMatch] holds exactly when the two record lists are equal, record
    by record, up to the order of keys; then the two checksums are equal and
    the page has no [diff], and otherwise it has one.  Equal checksums in
    turn mean that the schemas match, unless SHA-256 has one digest for the
    two hashed texts. *)
Theorem schemas_match_and_checksums (langshakeResults traditionalResults : sparse slot)
    (idx : nat) (e : entry) :
  let p := compare_page langshakeResults traditionalResults idx e in
  let c := page_comparison p in
  Forall wf_json (page_langshake p) -> Forall wf_json (page_traditional p) ->
  (schemasMatch c = true <-> Forall2 key_equiv (page_langshake p) (page_traditional p)) /\
  (schemasMatch c = true ->
   traditionalChecksumMatchesLangshake c = true /\ diff c = None) /\
  (schemasMatch c = false -> is_Some (diff c)) /\
  (traditionalChecksumMatchesLangshake c = true ->
   schemasMatch c = true \/
   sha256_collision (array_preimage (page_traditional p))
                    (array_preimage (page_langshake p))).
Proof.
  intros p c. unfold c, p, compare_page. cbn [page_comparison page_langshake page_traditional
    schemasMatch traditionalChecksumMatchesLangshake diff].
  set (ls := default [] (slot_field langshake langshakeResults (idx + 1))).
  set (tr := default [] (slot_field traditional traditionalResults idx)).
  intros Hwf Hwf'.
  assert (Hmatch : String.eqb (stableStringify (JArr ls)) (stableStringify (JArr tr)) = true
                   <-> Forall2 key_equiv ls tr).
  { rewrite String.eqb_eq, <- key_equiv_arr. split.
    - apply stableStringify_inj; apply wf_json_arr; assumption.
    - intros Hequiv. apply stableStringify_equiv; [exact Hequiv|].
      apply wf_json_arr. exact Hwf. }
  split; [exact Hmatch|]. split; [|split].
  - intros Hsame. rewrite Hsame. split; [|reflexivity].
    apply String.eqb_eq. unfold array_checksum.
    rewrite (array_preimage_equiv ls tr); [reflexivity | apply Hmatch; exact Hsame | exact Hwf].
  - intros Hdiffer. rewrite Hdiffer. eexists. reflexivity.
  - intros Hsums. apply String.eqb_eq in Hsums. unfold array_checksum in Hsums.
    destruct (decide (array_preimage tr = array_preimage ls)) as [Heq|Hne].
    + left. apply Hmatch. apply array_preimage_inj; auto.
    + right. split; assumption.
Qed.

Lemma schemas_match_and_checksums_witness :
  let p := compare_page [None; Some (article_slot [article])]
                        [Some (article_page_slot [article_reordered])] 0 article_entry in
  schemasMatch (page_comparison p) = true
  <-> Forall2 key_equiv (page_langshake p) (page_traditional p).
Proof.
  apply (schemas_match_and_checksums
           [None; Some (article_slot [article])]
           [Some (article_page_slot [article_reordered])] 0 article_entry).
  - apply List.Forall_cons; [apply articles_wf | apply List.Forall_nil].
  - apply List.Forall_cons; [apply articles_wf | apply List.Forall_nil].
Defined.

(** ** The LangShake crawler *)

Lemma append_empty (s : string) : s +:+ "" = s.
Proof. induction s as [|c s IH]; [reflexivity|]. rewrite append_cons, IH. reflexivity. Qed.

(** *** One validation *)

Lemma validateModule_validated resolve net modPath payload :
  v_modJson (snd (validateModule resolve net modPath)) = Some payload ->
  snd (validateModule resolve net modPath) = validate_payload modPath payload.
Proof.
  unfold validateModule. destruct (resolve modPath) as [modUrl|]; [|discriminate].
  destruct (axiosGetWithRetry (net modUrl) modUrl no_options 3 500)
    as [log [[[statusCode modJson]|]|e]]; simpl; try discriminate.
  intros Hsome. assert (modJson = payload) as ->; [|reflexivity].
  unfold validate_payload in Hsome. destruct modJson as [| | | |items|]; try discriminate.
  destruct (length items <? 2)%nat; [discriminate|].
  destruct (last items) as [[| | | | |fields]|]; try discriminate.
  destruct (truthy (assoc_get "checksum" fields)); [|discriminate].
  simpl in Hsome. congruence.
Qed.

Lemma validate_payload_kept modPath payload :
  v_modJson (validate_payload modPath payload) = Some payload ->
  exists items fields c,
    payload = JArr items /\ 2 <= length items /\
    last items = Some (JObj fields) /\
    assoc_get "checksum" fields = Some c /\ truthy (Some c) = true /\
    let calculated := array_checksum (removelast items) in
    validate_payload modPath payload
    = Validation (Some payload)
        (Some (Trust modPath c calculated (string_equal calculated c)))
        (Some c)
        (if string_equal calculated c then None
         else Some ("Checksum mismatch for " +:+ modPath +:+ ". ")).
Proof.
  intros Hsome. destruct payload as [| | | |items|]; try discriminate.
  unfold validate_payload in *.
  destruct (Nat.ltb_spec (length items) 2) as [|Hlen]; [discriminate|].
  destruct (last items) as [[| | | | |fields]|] eqn:Hlast; try discriminate.
  destruct (truthy (assoc_get "checksum" fields)) eqn:Htruthy; [|discriminate].
  destruct (assoc_get "checksum" fields) as [c|] eqn:Hc; [|discriminate].
  exists items, fields, c. repeat split; auto.
Qed.

(** X7. When [validateModule] returns a payload, the last element of the
    payload declares a checksum [c]; the trust entry records [c], the
    checksum calculated over the elements before the last one and whether
    the two are the same string; the validation has no error message exactly
    when they are, and the message of a mismatch otherwise.  The payload is
    returned in both cases. *)
Theorem validateModule_checksum_verdict (resolve : string -> option string)
    (net : string -> nat -> response) (modPath : string) (payload : json)
    (Hpayload : v_modJson (snd (validateModule resolve net modPath)) = Some payload) :
  let r := snd (validateModule resolve net modPath) in
  exists items fields c t,
    payload = JArr items /\ last items = Some (JObj fields) /\
    assoc_get "checksum" fields = Some c /\
    v_checksum r = Some c /\ v_trust r = Some t /\
    trust_path t = modPath /\ trust_checksum t = c /\
    calculateModuleChecksum (JArr (removelast items)) = Ok (calculatedChecksum t) /\
    (checksumValid t = true <-> c = JStr (calculatedChecksum t)) /\
    (v_error r = None <-> checksumValid t = true) /\
    (checksumValid t = false ->
     v_error r = Some ("Checksum mismatch for " +:+ modPath +:+ ". ")).
Proof.
  intros r. unfold r. rewrite (validateModule_validated _ _ _ _ Hpayload).
  apply validateModule_payload in Hpayload.
  destruct (validate_payload_kept modPath payload Hpayload)
    as (items & fields & c & -> & Hlen & Hlast & Hc & Htruthy & Heq).
  cbv zeta in Heq. rewrite Heq.
  exists items, fields, c. eexists. cbn [v_checksum v_trust v_error].
  repeat split; try reflexivity; try assumption;
    cbn [checksumValid calculatedChecksum trust_checksum trust_path].
  - apply calculateModuleChecksum_array.
  - apply string_equal_iff.
  - intros ->. apply string_equal_iff. reflexivity.
  - destruct (string_equal _ c); [reflexivity | discriminate].
  - intros ->. reflexivity.
  - intros ->. reflexivity.
Qed.

Section Crawler.
Variable W : CrawlerWorld.

Lemma foldl_gather (items : list (json * validation)) : forall acc,
  foldl gather acc items
  = Gathered (g_modules acc ++ kept_modules (map snd items))
             (g_trust acc ++ kept_trust (map fst items) (map snd items))
             (g_checksums acc ++ kept_checksums (map snd items))
             (g_details acc +:+ error_texts (map snd items)).
Proof.
  induction items as [|[p r] items IH]; intros [ms ts cs d].
  - cbn. rewrite !app_nil_r, append_empty. reflexivity.
  - cbn [foldl]. rewrite IH. clear IH.
    unfold kept_modules, kept_trust, kept_checksums.
    cbn [map zip zip_with omap list_omap error_texts foldr gather fst snd
         g_modules g_trust g_checksums g_details].
    destruct (truthy (v_modJson r));
      cbn [g_modules g_trust g_checksums g_details];
      rewrite <- ?app_assoc, ?append_assoc; reflexivity.
Qed.

Lemma imap_fst_snd {A B C} (f : nat -> A -> B * C) (l : list A) :
  map fst (imap f l) = imap (fun i x => fst (f i x)) l /\
  map snd (imap f l) = imap (fun i x => snd (f i x)) l.
Proof.
  revert f. induction l as [|x l IH]; intros f; [split; reflexivity|].
  cbn. destruct (IH (f ∘ S)) as [-> ->]. split; reflexivity.
Qed.

Lemma imap_const {A B} (f : A -> B) (l : list A) : imap (fun _ x => f x) l = map f l.
Proof.
  induction l as [|x l IH]; [reflexivity|]. cbn. f_equal. exact IH.
Qed.

(** The crawler once the manifest has been fetched and lists modules. *)
Lemma runLangshakeCrawler_fetched llmUrl log statusCode llmJson modPath rest :
  manifest_url W = Some llmUrl ->
  axiosGetWithRetry (manifest_reply W) llmUrl no_options 3 500
  = (log, Ok (Some (statusCode, llmJson))) ->
  get llmJson "modules" = Ok (Some (JArr (modPath :: rest))) ->
  runLangshakeCrawler W
  = (log ++ module_events W (modPath :: rest),
     assembled (update_rejects W) llmJson (modPath :: rest)
               (module_validations W (modPath :: rest))).
Proof.
  intros Hurl Hfetch Hmodules. unfold runLangshakeCrawler.
  rewrite Hurl, Hfetch, Hmodules. cbv zeta.
  set (paths := modPath :: rest).
  set (moduleResults := imap (fun i p => (p, validate_module_at W i p)) paths).
  rewrite foldl_gather. cbn [g_modules g_trust g_checksums g_details].
  rewrite append_nil. cbn [app].
  assert (Hpaths : map fst (map (fun x => (fst x, snd (snd x))) moduleResults) = paths).
  { rewrite map_map. cbn [fst]. unfold moduleResults.
    change (fun x : json * (list event * validation) => fst x) with (@fst json (list event * validation)).
    rewrite (proj1 (imap_fst_snd _ _)). cbn [fst]. rewrite imap_const. apply map_id. }
  assert (Hvals : map snd (map (fun x => (fst x, snd (snd x))) moduleResults)
                  = module_validations W paths).
  { rewrite map_map. cbn [snd]. unfold moduleResults, module_validations.
    rewrite <- (map_map snd snd). rewrite (proj2 (imap_fst_snd _ _)). cbn [snd].
    rewrite (proj2 (imap_fst_snd _ _)). reflexivity. }
  assert (Hlog : concat (map (fun x => fst (snd x)) moduleResults) = module_events W paths).
  { unfold module_events, moduleResults. f_equal.
    rewrite <- (map_map snd fst). rewrite (proj2 (imap_fst_snd _ _)). cbn [snd].
    rewrite (proj1 (imap_fst_snd _ _)). reflexivity. }
  rewrite Hpaths, Hvals, Hlog. unfold assembled.
  destruct (calculateMerkleRoot_any _ _); reflexivity.
Qed.

End Crawler.

Lemma validateModule_checksum_verdict_witness :
  exists items fields c t,
    valid_module = JArr items /\ last items = Some (JObj fields) /\
    assoc_get "checksum" fields = Some c /\
    v_checksum (snd (validateModule resolve_path (one_answer valid_module)
                                    "/langshake/article.json")) = Some c /\
    v_trust (snd (validateModule resolve_path (one_answer valid_module)
                                 "/langshake/article.json")) = Some t /\
    trust_path t = "/langshake/article.json" /\ trust_checksum t = c /\
    calculateModuleChecksum (JArr (removelast items)) = Ok (calculatedChecksum t) /\
    (checksumValid t = true <-> c = JStr (calculatedChecksum t)) /\
    (v_error (snd (validateModule resolve_path (one_answer valid_module)
                                  "/langshake/article.json")) = None
     <-> checksumValid t = true) /\
    (checksumValid t = false ->
     v_error (snd (validateModule resolve_path (one_answer valid_module)
                                  "/langshake/article.json"))
     = Some ("Checksum mismatch for " +:+ "/langshake/article.json" +:+ ". ")).
Proof.
  apply (validateModule_checksum_verdict resolve_path (one_answer valid_module)
           "/langshake/article.json" valid_module).
  reflexivity.
Defined.

(** X8. When the address of the manifest cannot be built, or when the three
    attempts to fetch it fail, the crawler returns no module, no trust
    entry, a [null] declared root and an invalid root, with the message of
    the last failure in [details]; in the second case it has made three
    requests 500 ms apart and none for a module. *)
Theorem crawler_manifest_unreachable (W : CrawlerWorld) :
  (manifest_url W = None ->
   runLangshakeCrawler W
   = ([], CrawlResult (JArr []) [] JNull false "Could not fetch .llm.json: Invalid URL")) /\
  (forall llmUrl m1 m2 m3,
     manifest_url W = Some llmUrl ->
     manifest_reply W 1 = Failure m1 -> manifest_reply W 2 = Failure m2 ->
     manifest_reply W 3 = Failure m3 ->
     let req := retry_request llmUrl no_options in
     policy_request llmUrl req /\
     runLangshakeCrawler W
     = ([Get req; Delay 500; Get req; Delay 500; Get req],
        CrawlResult (JArr []) [] JNull false ("Could not fetch .llm.json: " +:+ m3))).
Proof.
  split.
  - intros Hurl. unfold runLangshakeCrawler. rewrite Hurl. reflexivity.
  - intros llmUrl m1 m2 m3 Hurl H1 H2 H3 req. split; [apply retry_request_policy|].
    unfold runLangshakeCrawler, axiosGetWithRetry. rewrite Hurl.
    cbn [retry_loop]. rewrite H1, H2, H3. reflexivity.
Qed.

Lemma crawler_manifest_unreachable_witness :
  let req := retry_request example_llm_url no_options in
  policy_request example_llm_url req /\
  runLangshakeCrawler dead_site
  = ([Get req; Delay 500; Get req; Delay 500; Get req],
     CrawlResult (JArr []) [] JNull false
       ("Could not fetch .llm.json: " +:+ "connect ECONNREFUSED")).
Proof.
  apply (proj2 (crawler_manifest_unreachable dead_site) example_llm_url
           "timeout of 10000ms exceeded" "timeout of 10000ms exceeded"
           "connect ECONNREFUSED"); reflexivity.
Defined.

(** X9. A manifest that was fetched and whose [modules] is missing, not an
    array or empty: the crawler asks for no module and returns no module
    and no trust entry, the root the manifest declares, an invalid root and
    a fixed message.  A manifest that is [null] is reported as one that
    could not be fetched, with a [null] declared root. *)
Theorem crawler_without_modules (W : CrawlerWorld) (llmUrl : string) (log : list event)
    (statusCode : nat) (llmJson : json)
    (Hurl : manifest_url W = Some llmUrl)
    (Hfetch : axiosGetWithRetry (manifest_reply W) llmUrl no_options 3 500
              = (log, Ok (Some (statusCode, llmJson)))) :
  (forall modules,
     get llmJson "modules" = Ok modules ->
     (forall modPath rest, modules <> Some (JArr (modPath :: rest))) ->
     runLangshakeCrawler W
     = (log, CrawlResult (JArr []) [] (declared_root llmJson) false
               "No modules found in .llm.json.")) /\
  (llmJson = JNull ->
   runLangshakeCrawler W
   = (log, CrawlResult (JArr []) [] JNull false
             "Could not fetch .llm.json: Cannot read properties of null (reading 'modules')")).
Proof.
  split.
  - intros modules Hmodules Hnone. unfold runLangshakeCrawler.
    rewrite Hurl, Hfetch, Hmodules.
    destruct modules as [[| | | |[|modPath rest]|]|]; try reflexivity.
    destruct (Hnone modPath rest). reflexivity.
  - intros ->. unfold runLangshakeCrawler. rewrite Hurl, Hfetch. reflexivity.
Qed.

Lemma crawler_without_modules_witness :
  runLangshakeCrawler empty_site
  = ([Get (retry_request example_llm_url no_options)],
     CrawlResult (JArr []) [] (JStr "0f3c") false "No modules found in .llm.json.").
Proof.
  apply (proj1 (crawler_without_modules empty_site example_llm_url
                  [Get (retry_request example_llm_url no_options)] 200 rootless_manifest
                  eq_refl eq_refl) None); [reflexivity | discriminate].
Defined.

(** *** The modules of a manifest *)

Section Kept.
Variable W : CrawlerWorld.

Lemma module_validations_validated paths r :
  r ∈ module_validations W paths ->
  exists resolve net modPath, r = snd (validateModule resolve net modPath).
Proof.
  unfold module_validations. intros Hr.
  apply elem_of_lookup_imap in Hr as (i & p & -> & _).
  unfold validate_module_at. eauto.
Qed.

Lemma validated_truthy resolve net modPath payload :
  v_modJson (snd (validateModule resolve net modPath)) = Some payload ->
  truthy (Some payload) = true.
Proof.
  intros Hsome. apply validateModule_payload in Hsome.
  apply validate_payload_kept in Hsome as (items & _ & _ & -> & _). reflexivity.
Qed.

Lemma kept_modules_payloads paths :
  kept_modules (module_validations W paths) = omap v_modJson (module_validations W paths).
Proof.
  unfold kept_modules.
  assert (Hall : Forall (fun r => exists resolve net modPath,
                           r = snd (validateModule resolve net modPath))
                        (module_validations W paths)).
  { apply Forall_forall. intros r. apply module_validations_validated. }
  induction Hall as [|r rs (resolve & net & modPath & ->) _ IH]; [reflexivity|].
  cbn [omap list_omap]. rewrite IH.
  destruct (v_modJson (snd (validateModule resolve net modPath))) as [payload|] eqn:Hsome.
  - rewrite (validated_truthy _ _ _ _ Hsome). reflexivity.
  - reflexivity.
Qed.

Lemma kept_trust_present paths validations :
  Forall (fun r => exists resolve net modPath,
            r = snd (validateModule resolve net modPath)) validations ->
  length paths = length validations ->
  length (kept_trust paths validations) = length (omap v_modJson validations) /\
  Forall is_Some (kept_trust paths validations).
Proof.
  intros Hall. revert paths.
  induction Hall as [|r rs (resolve & net & modPath & ->) _ IH]; intros [|p paths] Hlen;
    try discriminate; [split; [reflexivity | constructor]|].
  injection Hlen as Hlen. destruct (IH paths Hlen) as [IHlen IHall].
  unfold kept_trust in *. cbn [zip zip_with omap list_omap fst snd].
  destruct (v_modJson (snd (validateModule resolve net modPath))) as [payload|] eqn:Hsome.
  - rewrite (validated_truthy _ _ _ _ Hsome).
    rewrite (validateModule_validated _ _ _ _ Hsome).
    apply validateModule_payload in Hsome.
    destruct (validate_payload_kept modPath payload Hsome)
      as (items & fields & c & _ & _ & _ & _ & _ & Heq).
    cbv zeta in Heq. rewrite Heq. cbn [v_trust fmap option_fmap option_map length].
    split; [f_equal; exact IHlen|]. constructor; [eexists; reflexivity | exact IHall].
  - cbn [truthy]. split; assumption.
Qed.

Lemma module_validations_length paths :
  length (module_validations W paths) = length paths.
Proof. unfold module_validations. apply length_imap. Qed.

End Kept.

(** X10. A manifest that was fetched and lists modules, when the root of the
    declared checksums can be computed: the crawler returns the payloads of
    the modules whose validation has one, in the order of the manifest, as
    their list, or a single payload as it is, not as a list of one; one
    trust entry for each of them; the root the manifest declares; and in
    [details] the error messages of all validations, the verdict on the
    root and the number of payloads. *)
Theorem crawler_result_assembly (W : CrawlerWorld) (llmUrl : string) (log : list event)
    (statusCode : nat) (llmJson modPath : json) (rest : list json) (calculated : json)
    (Hurl : manifest_url W = Some llmUrl)
    (Hfetch : axiosGetWithRetry (manifest_reply W) llmUrl no_options 3 500
              = (log, Ok (Some (statusCode, llmJson))))
    (Hmodules : get llmJson "modules" = Ok (Some (JArr (modPath :: rest))))
    (Hroot : calculateMerkleRoot_any (update_rejects W)
               (kept_checksums (module_validations W (modPath :: rest)))
             = Ok calculated) :
  let validations := module_validations W (modPath :: rest) in
  let payloads := omap v_modJson validations in
  let r := snd (runLangshakeCrawler W) in
  length validations = length (modPath :: rest) /\
  crawl_modules r = match payloads with [single] => single | _ => JArr payloads end /\
  length (crawl_trust r) = length payloads /\
  Forall is_Some (crawl_trust r) /\
  crawl_merkleRoot r = declared_root llmJson /\
  crawl_details r
  = error_texts validations
    +:+ (if crawl_merkleRootValid r then " Merkle root valid."
         else " Merkle root mismatch or invalid.")
    +:+ " Fetched " +:+ pretty (length payloads) +:+ " modules.".
Proof.
  intros validations payloads r. unfold r.
  rewrite (runLangshakeCrawler_fetched W llmUrl log statusCode llmJson modPath rest
             Hurl Hfetch Hmodules).
  cbn [snd]. unfold assembled. rewrite Hroot.
  cbn [crawl_modules crawl_trust crawl_merkleRoot crawl_merkleRootValid crawl_details].
  rewrite kept_modules_payloads. fold validations. fold payloads.
  split; [apply module_validations_length|].
  split; [generalize payloads; intros [|? [|? ?]]; reflexivity|].
  destruct (kept_trust_present (modPath :: rest) validations) as [Hlen Hall].
  { apply Forall_forall. intros v. apply module_validations_validated. }
  { symmetry. apply module_validations_length. }
  repeat split; auto.
Qed.

Lemma next_level_any_strings rejects (leaves : list string) :
  next_level_any rejects (map JStr leaves) = Ok (next_level leaves).
Proof.
  induction leaves as [|a|a b leaves IH] using pair_induction; try reflexivity.
  cbn [map next_level_any]. rewrite IH. reflexivity.
Qed.

(** On strings the root is the one of [calculateMerkleRoot]. *)
Lemma calculateMerkleRoot_any_strings rejects (leaves : list string) :
  calculateMerkleRoot_any rejects (map JStr leaves) = Ok (JStr (calculateMerkleRoot leaves)).
Proof.
  destruct leaves as [|a [|b leaves]]; try reflexivity.
  unfold calculateMerkleRoot_any. cbn [map].
  change (JStr a :: JStr b :: map JStr leaves) with (map JStr (a :: b :: leaves)).
  rewrite next_level_any_strings. cbn [mbind result_bind].
  rewrite <- calculateMerkleRoot_step by (simpl; lia). reflexivity.
Qed.

Lemma declared_root_not_empty llmJson : declared_root llmJson <> JStr "".
Proof.
  unfold declared_root, or_null.
  destruct (get_opt (get_opt (Some llmJson) "verification") "merkleRoot") as [v|];
    [|discriminate].
  destruct (truthy (Some v)) eqn:Htruthy; [|discriminate].
  intros ->. discriminate.
Qed.

(** X11. When the declared checksums of the kept modules are strings, the
    crawler reports a valid root exactly when the manifest declares, as a
    string, the Merkle root of these checksums in the order of the manifest.
    With no module kept the root is never valid. *)
Theorem crawler_merkle_root_valid (W : CrawlerWorld) (llmUrl : string) (log : list event)
    (statusCode : nat) (llmJson modPath : json) (rest : list json) (checksums : list string)
    (Hurl : manifest_url W = Some llmUrl)
    (Hfetch : axiosGetWithRetry (manifest_reply W) llmUrl no_options 3 500
              = (log, Ok (Some (statusCode, llmJson))))
    (Hmodules : get llmJson "modules" = Ok (Some (JArr (modPath :: rest))))
    (Hstrings : kept_checksums (module_validations W (modPath :: rest))
                = map JStr checksums) :
  let r := snd (runLangshakeCrawler W) in
  (crawl_merkleRootValid r = true
   <-> declared_root llmJson = JStr (calculateMerkleRoot checksums)) /\
  (crawl_merkleRootValid r = true -> checksums <> []).
Proof.
  intros r. unfold r.
  rewrite (runLangshakeCrawler_fetched W llmUrl log statusCode llmJson modPath rest
             Hurl Hfetch Hmodules).
  cbn [snd]. unfold assembled. rewrite Hstrings, calculateMerkleRoot_any_strings.
  cbn [crawl_merkleRootValid].
  change (strict_equal false (Some (JStr (calculateMerkleRoot checksums)))
                       (Some (declared_root llmJson)))
    with (string_equal (calculateMerkleRoot checksums) (declared_root llmJson)).
  rewrite string_equal_iff. split; [reflexivity|].
  intros Hvalid ->. apply (declared_root_not_empty llmJson). exact Hvalid.
Qed.

(** X12. When the first two kept modules declare checksums that are numbers
    or booleans, hashing their sum throws inside the [try] block: the
    crawler, which has fetched the manifest and every module, returns no
    module and no trust entry, a [null] declared root, and reports after
    the error messages of the validations that the manifest could not be
    fetched. *)
Theorem crawler_numeric_checksums (W : CrawlerWorld) (llmUrl : string) (log : list event)
    (statusCode : nat) (llmJson modPath : json) (rest : list json)
    (a b : json) (others : list json)
    (Hurl : manifest_url W = Some llmUrl)
    (Hfetch : axiosGetWithRetry (manifest_reply W) llmUrl no_options 3 500
              = (log, Ok (Some (statusCode, llmJson))))
    (Hmodules : get llmJson "modules" = Ok (Some (JArr (modPath :: rest))))
    (Hkept : kept_checksums (module_validations W (modPath :: rest)) = a :: b :: others)
    (Hnumbers : adds_numbers a b = true) :
  runLangshakeCrawler W
  = (log ++ module_events W (modPath :: rest),
     CrawlResult (JArr []) [] JNull false
       (error_texts (module_validations W (modPath :: rest))
        +:+ "Could not fetch .llm.json: " +:+ update_rejects W a b)).
Proof.
  rewrite (runLangshakeCrawler_fetched W llmUrl log statusCode llmJson modPath rest
             Hurl Hfetch Hmodules).
  unfold assembled. rewrite Hkept.
  unfold calculateMerkleRoot_any, next_level_any, hash_pair. rewrite Hnumbers.
  reflexivity.
Qed.

Lemma site_fetch :
  axiosGetWithRetry (manifest_reply site) example_llm_url no_options 3 500
  = ([Get (retry_request example_llm_url no_options); Delay 500;
      Get (retry_request example_llm_url no_options)],
     Ok (Some (200, manifest_of ["/langshake/article.json"; "/langshake/bad.json"]
                                "irrelevant"))).
Proof. reflexivity. Qed.

Lemma site_root :
  calculateMerkleRoot_any (update_rejects site)
    (kept_checksums (module_validations site
                       [JStr "/langshake/article.json"; JStr "/langshake/bad.json"]))
  = Ok (JStr (calculateMerkleRoot [article_checksum; "irrelevant"])).
Proof. vm_compute. reflexivity. Qed.

Lemma crawler_result_assembly_witness :
  let validations :=
    module_validations site [JStr "/langshake/article.json"; JStr "/langshake/bad.json"] in
  let payloads := omap v_modJson validations in
  let r := snd (runLangshakeCrawler site) in
  length validations = 2 /\
  crawl_modules r = match payloads with [single] => single | _ => JArr payloads end /\
  length (crawl_trust r) = length payloads /\
  Forall is_Some (crawl_trust r) /\
  crawl_merkleRoot r = JStr "irrelevant" /\
  crawl_details r
  = error_texts validations
    +:+ (if crawl_merkleRootValid r then " Merkle root valid."
         else " Merkle root mismatch or invalid.")
    +:+ " Fetched " +:+ pretty (length payloads) +:+ " modules.".
Proof.
  exact (crawler_result_assembly site example_llm_url _ 200 _ _ _ _
           eq_refl site_fetch eq_refl site_root).
Defined.

Lemma crawler_merkle_root_valid_witness :
  let r := snd (runLangshakeCrawler sound_site) in
  (crawl_merkleRootValid r = true
   <-> declared_root (manifest_of ["/langshake/article.json"] article_checksum)
       = JStr (calculateMerkleRoot [article_checksum])) /\
  (crawl_merkleRootValid r = true -> [article_checksum] <> []).
Proof.
  exact (crawler_merkle_root_valid sound_site example_llm_url
           [Get (retry_request example_llm_url no_options)] 200
           (manifest_of ["/langshake/article.json"] article_checksum)
           (JStr "/langshake/article.json") [] [article_checksum]
           eq_refl eq_refl eq_refl eq_refl).
Defined.

Lemma crawler_numeric_checksums_witness :
  runLangshakeCrawler numbered_site
  = ([Get (retry_request example_llm_url no_options)]
     ++ module_events numbered_site [JStr "/langshake/one.json"; JStr "/langshake/two.json"],
     CrawlResult (JArr []) [] JNull false
       (error_texts (module_validations numbered_site
                       [JStr "/langshake/one.json"; JStr "/langshake/two.json"])
        +:+ "Could not fetch .llm.json: " +:+ "The data argument must be of type string")).
Proof.
  exact (crawler_numeric_checksums numbered_site example_llm_url
           [Get (retry_request example_llm_url no_options)] 200
           (manifest_of ["/langshake/one.json"; "/langshake/two.json"] "irrelevant")
           (JStr "/langshake/one.json") [JStr "/langshake/two.json"]
           (JNum 1) (JNum 2) [] eq_refl eq_refl eq_refl eq_refl eq_refl).
Defined.

(** *** The requests of the crawler *)

Lemma attempts_app (log log' : list event) :
  attempts (log ++ log') = attempts log + attempts log'.
Proof.
  induction log as [|[r|ms|u] log IH]; simpl; auto.
Qed.

Lemma policy_fetch_events net url attempt log res :
  policy_fetch net url attempt log res -> Forall crawler_event log.
Proof.
  induction 1 as [? ? ? ? Hreq|? ? Hreq|? ? ? ? ? ? Hreq ? ? IH].
  - repeat constructor; apply Hreq.
  - repeat constructor; apply Hreq.
  - constructor; [split; apply Hreq|]. constructor; [reflexivity | exact IH].
Qed.

Lemma fetch_events net url :
  Forall crawler_event (fst (axiosGetWithRetry net url no_options 3 500)) /\
  attempts (fst (axiosGetWithRetry net url no_options 3 500)) <= 3.
Proof.
  destruct (axiosGetWithRetry_policy net url no_options) as (log & res & -> & Hpolicy).
  split; [exact (policy_fetch_events _ _ _ _ _ Hpolicy)|].
  pose proof (policy_fetch_attempts _ _ _ _ _ Hpolicy). simpl. lia.
Qed.

Lemma validateModule_events resolve net modPath :
  Forall crawler_event (fst (validateModule resolve net modPath)) /\
  attempts (fst (validateModule resolve net modPath)) <= 3.
Proof.
  unfold validateModule. destruct (resolve modPath) as [modUrl|]; [|split; [constructor | simpl; lia]].
  pose proof (fetch_events (net modUrl) modUrl) as Hfetch.
  destruct (axiosGetWithRetry (net modUrl) modUrl no_options 3 500)
    as [log [[[statusCode modJson]|]|e]]; exact Hfetch.
Qed.

Lemma module_events_bound (W : CrawlerWorld) (paths : list json) :
  Forall crawler_event (module_events W paths) /\
  attempts (module_events W paths) <= 3 * length paths.
Proof.
  unfold module_events.
  generalize (fun (i : nat) (p : json) => validate_module_at W i p).
  assert (Hone : forall i p, Forall crawler_event (fst (validate_module_at W i p)) /\
                             attempts (fst (validate_module_at W i p)) <= 3).
  { intros i p. apply validateModule_events. }
  revert Hone. generalize (validate_module_at W). intros f Hone _.
  revert f Hone. induction paths as [|p paths IH]; intros f Hone.
  - split; [constructor | simpl; lia].
  - cbn [imap concat]. destruct (Hone 0 p) as [Hall Hle].
    destruct (IH (f ∘ S)) as [IHall IHle]. { intros i q. apply Hone. }
    split; [apply Forall_app; split; assumption|].
    rewrite attempts_app. cbn [length]. unfold compose in *. lia.
Qed.

(** X13. Every request of the crawler has the no-cache headers and a
    timeout of 10 seconds, every wait between two attempts is of 500 ms, and
    the crawler makes at most three requests for the manifest and three for
    each module the manifest lists. *)
Theorem crawler_requests (W : CrawlerWorld) :
  Forall crawler_event (fst (runLangshakeCrawler W)) /\
  (forall llmUrl log statusCode llmJson paths,
     manifest_url W = Some llmUrl ->
     axiosGetWithRetry (manifest_reply W) llmUrl no_options 3 500
     = (log, Ok (Some (statusCode, llmJson))) ->
     get llmJson "modules" = Ok (Some (JArr paths)) ->
     attempts (fst (runLangshakeCrawler W)) <= 3 * (1 + length paths)) /\
  (forall llmUrl log e,
     manifest_url W = Some llmUrl ->
     axiosGetWithRetry (manifest_reply W) llmUrl no_options 3 500 = (log, Throw e) ->
     fst (runLangshakeCrawler W) = log /\ attempts log = 3).
Proof.
  split; [|split].
  - destruct (manifest_url W) as [llmUrl|] eqn:Hurl.
    2: { unfold runLangshakeCrawler. rewrite Hurl. constructor. }
    pose proof (fetch_events (manifest_reply W) llmUrl) as [Hall _].
    destruct (axiosGetWithRetry (manifest_reply W) llmUrl no_options 3 500)
      as [log [[[statusCode llmJson]|]|e]] eqn:Hfetch;
      try (unfold runLangshakeCrawler; rewrite Hurl, Hfetch; exact Hall).
    destruct (get llmJson "modules") as [[[| | | |[|modPath rest]|]|]|e] eqn:Hmodules;
      try (unfold runLangshakeCrawler; rewrite Hurl, Hfetch, Hmodules; exact Hall).
    rewrite (runLangshakeCrawler_fetched W llmUrl log statusCode llmJson modPath rest
               Hurl Hfetch Hmodules).
    apply Forall_app. split; [exact Hall | apply module_events_bound].
  - intros llmUrl log statusCode llmJson paths Hurl Hfetch Hmodules.
    pose proof (fetch_events (manifest_reply W) llmUrl) as [_ Hle].
    rewrite Hfetch in Hle. cbn [fst] in Hle.
    destruct paths as [|modPath rest].
    + unfold runLangshakeCrawler. rewrite Hurl, Hfetch, Hmodules. cbn [fst length]. lia.
    + rewrite (runLangshakeCrawler_fetched W llmUrl log statusCode llmJson modPath rest
                 Hurl Hfetch Hmodules).
      cbn [fst]. rewrite attempts_app.
      pose proof (module_events_bound W (modPath :: rest)) as [_ Hmods]. lia.
  - intros llmUrl log e Hurl Hfetch.
    unfold runLangshakeCrawler. rewrite Hurl, Hfetch. split; [reflexivity|].
    unfold axiosGetWithRetry in Hfetch. cbn [retry_loop] in Hfetch.
    destruct (manifest_reply W 1); [discriminate|].
    destruct (manifest_reply W 2); [discriminate|].
    destruct (manifest_reply W 3); [discriminate|].
    injection Hfetch as <- _. reflexivity.
Qed.

Lemma crawler_requests_witness :
  attempts (fst (runLangshakeCrawler site)) <= 3 * (1 + 2).
Proof.
  apply (proj1 (proj2 (crawler_requests site)) example_llm_url _ 200 _
           [JStr "/langshake/article.json"; JStr "/langshake/bad.json"]
           eq_refl site_fetch eq_refl).
Defined.

(** ** The metrics collector *)

Section CollectorFacts.
Import Collector.

Lemma after_snoc calls c : after (calls ++ [c]) = perform (after calls) c.
Proof. unfold after. rewrite foldl_app. reflexivity. Qed.

Lemma requests_after calls : requests (after calls) = recorded calls.
Proof.
  induction calls as [|c calls IH] using rev_ind; [reflexivity|].
  rewrite after_snoc. unfold recorded in *. rewrite omap_app. cbn [omap list_omap].
  destruct c; cbn [perform requests startCrawl recordRequest recordError recordDiskUsage
                   updateConcurrency finalize]; rewrite IH, ?app_nil_r; reflexivity.
Qed.

Lemma errors_after calls : errors (after calls) = reports calls.
Proof.
  induction calls as [|c calls IH] using rev_ind; [reflexivity|].
  rewrite after_snoc. unfold reports in *. rewrite omap_app. cbn [omap list_omap].
  destruct c; cbn [perform errors startCrawl recordRequest recordError recordDiskUsage
                   updateConcurrency finalize]; rewrite IH, ?app_nil_r; reflexivity.
Qed.

(** *** Status codes *)

Lemma enumerated_before_irrefl a : enumerated_before a a = false.
Proof. destruct a as [x|]; [apply Nat.ltb_irrefl | reflexivity]. Qed.

Lemma enumerated_before_trans a b c :
  enumerated_before a b = true -> enumerated_before b c = true ->
  enumerated_before a c = true.
Proof.
  destruct a as [x|], b as [y|], c as [z|]; simpl; try discriminate; auto.
  rewrite !Nat.ltb_lt. lia.
Qed.

Lemma enumerated_before_total a b :
  a <> b -> enumerated_before a b = false -> enumerated_before b a = true.
Proof.
  destruct a as [x|], b as [y|]; simpl; auto; try congruence.
  rewrite Nat.ltb_ge, Nat.ltb_lt. intros Hne Hle.
  assert (x <> y) by congruence. lia.
Qed.

Lemma count_of_absent code codes :
  Forall (fun kv => enumerated_before code (fst kv) = true) codes ->
  count_of code codes = 0.
Proof.
  induction 1 as [|[k n] codes Hk _ IH]; [reflexivity|].
  cbn [count_of]. destruct (decide (k = code)) as [->|_]; [|exact IH].
  cbn [fst] in Hk. rewrite enumerated_before_irrefl in Hk. discriminate.
Qed.

Lemma count_of_bump code code' codes :
  enumerated codes ->
  count_of code' (bump code codes)
  = if decide (code' = code) then S (count_of code' codes) else count_of code' codes.
Proof.
  induction codes as [|[k n] codes IH]; intros Henum.
  - cbn [bump count_of]. destruct (decide (code = code')), (decide (code' = code));
      congruence.
  - destruct Henum as [Hall Henum]. cbn [bump].
    destruct (decide (k = code)) as [->|Hk].
    + cbn [count_of]. destruct (decide (code = code')), (decide (code' = code));
        congruence.
    + destruct (enumerated_before code k) eqn:Hbefore.
      * cbn [count_of].
        destruct (decide (code = code')) as [<-|Hne].
        -- destruct (decide (code = code)); [|congruence].
           destruct (decide (k = code)); [congruence|].
           rewrite count_of_absent; [reflexivity|].
           eapply Forall_impl; [exact Hall|]. intros kv Hkv.
           eapply enumerated_before_trans; eassumption.
        -- destruct (decide (code' = code)); [congruence | reflexivity].
      * cbn [count_of]. destruct (decide (k = code')) as [->|Hk'].
        -- destruct (decide (code' = code)); [congruence | reflexivity].
        -- apply IH. exact Henum.
Qed.

Lemma bump_enumerated code codes : enumerated codes -> enumerated (bump code codes).
Proof.
  induction codes as [|[k n] codes IH]; intros Henum.
  - cbn. auto.
  - destruct Henum as [Hall Henum]. cbn [bump].
    destruct (decide (k = code)) as [->|Hk]; [split; assumption|].
    destruct (enumerated_before code k) eqn:Hbefore.
    + split; [|split; assumption].
      constructor; [exact Hbefore|].
      eapply Forall_impl; [exact Hall|]. intros kv Hkv.
      eapply enumerated_before_trans; eassumption.
    + split; [|apply IH; exact Henum].
      assert (Hkc : enumerated_before k code = true).
      { apply enumerated_before_total; [congruence | exact Hbefore]. }
      clear IH Henum. induction Hall as [|[k' n'] codes Hk' Htail IHall].
      * cbn. constructor; [exact Hkc | constructor].
      * cbn [bump]. destruct (decide (k' = code)) as [->|_].
        -- constructor; [exact Hkc | exact Htail].
        -- destruct (enumerated_before code k').
           ++ constructor; [exact Hkc|]. constructor; assumption.
           ++ constructor; [exact Hk' | exact IHall].
Qed.

Lemma bump_total code codes : total_count (bump code codes) = S (total_count codes).
Proof.
  unfold total_count. induction codes as [|[k n] codes IH]; [reflexivity|].
  cbn [bump]. destruct (decide (k = code)); [reflexivity|].
  destruct (enumerated_before code k); [reflexivity|].
  cbn [foldr snd]. rewrite IH. lia.
Qed.

Lemma bump_positive code codes :
  Forall (fun kv => 0 < snd kv) codes -> Forall (fun kv => 0 < snd kv) (bump code codes).
Proof.
  induction 1 as [|[k n] codes Hn Hall IH]; [repeat constructor|].
  cbn [bump]. destruct (decide (k = code)).
  - constructor; [cbn; lia | exact Hall].
  - destruct (enumerated_before code k).
    + constructor; [cbn; lia|]. constructor; assumption.
    + constructor; assumption.
Qed.

Lemma statusCodes_after calls :
  enumerated (statusCodes (after calls)) /\
  Forall (fun kv => 0 < snd kv) (statusCodes (after calls)) /\
  total_count (statusCodes (after calls)) = length (recorded calls) /\
  forall code,
    count_of code (statusCodes (after calls)) = with_status code (recorded calls).
Proof.
  induction calls as [|c calls (Henum & Hpos & Htotal & Hcount)] using rev_ind.
  - repeat split; solve [constructor | reflexivity].
  - rewrite after_snoc. unfold recorded in *. rewrite omap_app. cbn [omap list_omap].
    destruct c; cbn [perform statusCodes startCrawl recordRequest recordError
                     recordDiskUsage updateConcurrency finalize];
      rewrite ?app_nil_r; try (repeat split; assumption).
    repeat split.
    + apply bump_enumerated. exact Henum.
    + apply bump_positive. exact Hpos.
    + rewrite bump_total, Htotal, length_app. cbn. lia.
    + intros code. rewrite count_of_bump by exact Henum. rewrite Hcount.
      unfold with_status. rewrite filter_app, length_app.
      rewrite filter_cons, filter_nil.
      destruct (decide (code = r_statusCode r)) as [->|Hne].
      * destruct (decide (r_statusCode r = r_statusCode r)); [|congruence]. cbn. lia.
      * destruct (decide (r_statusCode r = code)); [congruence|]. cbn. lia.
Qed.

(** X14. After any sequence of calls on a new collector, [statusCodes] has
    for each status the number of recorded requests with that status (a
    status without request has no property), its properties are enumerated
    by increasing status, a missing status last, and its counts add up to
    the number of recorded requests, which is [requests.total] in the
    summary. *)
Theorem status_codes_count (calls : list call) :
  let m := after calls in
  (forall code, count_of code (statusCodes m) = with_status code (recorded calls)) /\
  enumerated (statusCodes m) /\
  Forall (fun kv => 0 < snd kv) (statusCodes m) /\
  total_count (statusCodes m) = length (recorded calls) /\
  requests_total (getSummary m) = length (recorded calls) /\
  requests_statusCodes (getSummary m) = statusCodes m.
Proof.
  intros m. destruct (statusCodes_after calls) as (Henum & Hpos & Htotal & Hcount).
  repeat split; try assumption.
  cbn. unfold m. rewrite requests_after. reflexivity.
Qed.

(** *** Totals *)

Lemma sum_app (l l' : list Z) : sum (l ++ l') = (sum l + sum l')%Z.
Proof. unfold sum. induction l as [|x l IH]; cbn [app foldr]; [reflexivity | lia]. Qed.

Lemma round_double_safe x : safe x = true -> round_double x = x.
Proof. unfold round_double. intros ->. reflexivity. Qed.

Lemma map_round_double_safe l :
  Forall (fun x => safe x = true) l -> map round_double l = l.
Proof.
  induction 1 as [|x l Hx _ IH]; [reflexivity|].
  cbn [map]. rewrite round_double_safe, IH by exact Hx. reflexivity.
Qed.

Lemma within_range_safe acc l : within_range acc l = true -> Forall (fun x => safe x = true) l.
Proof.
  revert acc. induction l as [|x l IH]; intros acc Hl; [constructor|].
  cbn [within_range] in Hl. apply andb_true_iff in Hl as [Hx Hl].
  apply andb_true_iff in Hx as [Hx _]. constructor; [exact Hx | exact (IH _ Hl)].
Qed.

(** Within the range the additions of the collector are exact. *)
Lemma foldl_number_add acc l :
  within_range acc l = true -> foldl number_add acc l = (acc + sum l)%Z.
Proof.
  revert acc. induction l as [|x l IH]; intros acc Hl.
  - unfold sum. cbn [foldl foldr]. lia.
  - cbn [within_range] in Hl. apply andb_true_iff in Hl as [Hx Hl].
    apply andb_true_iff in Hx as [_ Hx].
    cbn [foldl]. unfold number_add at 2. rewrite (round_double_safe _ Hx).
    rewrite (IH _ Hl). unfold sum. cbn [foldr]. lia.
Qed.

Lemma totals_after calls :
  totalBytesDownloaded (after calls) = foldl number_add 0%Z (downloads calls) /\
  totalBytesUploaded (after calls) = foldl number_add 0%Z (uploads calls) /\
  requestTimes (after calls) = map round_double (timed (recorded calls)) /\
  diskUsage (after calls) = foldl number_add 0%Z (amounts calls).
Proof.
  induction calls as [|c calls (Hdown & Hup & Htimes & Hdisk)] using rev_ind.
  - repeat split.
  - rewrite after_snoc. unfold downloads, uploads, amounts, recorded, timed in *.
    repeat (rewrite omap_app || rewrite map_app || rewrite foldl_app).
    cbn [omap list_omap].
    destruct c; cbn [perform totalBytesDownloaded totalBytesUploaded requestTimes diskUsage
                     startCrawl recordRequest recordError recordDiskUsage
                     updateConcurrency finalize map omap list_omap foldl];
      rewrite ?app_nil_r; rewrite ?Hdown, ?Hup, ?Htimes, ?Hdisk; repeat split.
    destruct (r_startTime r), (r_endTime r); cbn [map]; rewrite ?app_nil_r; reflexivity.
Qed.

(** X15. After any sequence of calls on a new collector: as long as every
    byte count of a recorded request and every total reached is at most
    [2^53] in magnitude, the two byte totals are the sums of the byte counts
    of the recorded requests, a missing count adding nothing, and under the
    same condition the disk usage is the sum of the recorded amounts;
    [requestTimes] has, in the order of the calls, the duration of each
    request that was given both a start and an end time, rounded to a
    double, which is the duration itself when it is at most [2^53]; the
    average request time of the summary is [null] exactly when there is no
    such request, and otherwise, the durations and their running totals
    being at most [2^53], the sum of these durations over their number.
    Beyond [2^53] the totals are rounded: byte counts of [2^53] and 1 give
    the total [2^53]. *)
Theorem collector_totals (calls : list call) :
  let m := after calls in
  (within_range 0 (downloads calls) = true ->
   totalBytesDownloaded m = sum (downloads calls)) /\
  (within_range 0 (uploads calls) = true ->
   totalBytesUploaded m = sum (uploads calls)) /\
  requestTimes m = map round_double (timed (recorded calls)) /\
  (Forall (fun d => safe d = true) (timed (recorded calls)) ->
   requestTimes m = timed (recorded calls)) /\
  (avgRequestTimeMs (getSummary m) = None <-> timed (recorded calls) = []) /\
  (within_range 0 (timed (recorded calls)) = true ->
   forall q, avgRequestTimeMs (getSummary m) = Some q ->
     numerator q = sum (timed (recorded calls)) /\
     denominator q = Z.of_nat (length (timed (recorded calls)))) /\
  (within_range 0 (amounts calls) = true ->
   disk_totalBytes (getSummary m) = sum (amounts calls)) /\
  totalBytesDownloaded (after large_calls) = (2 ^ 53)%Z.
Proof.
  intros m. destruct (totals_after calls) as (Hdown & Hup & Htimes & Hdisk).
  fold m in Hdown, Hup, Htimes, Hdisk.
  split; [|split; [|split; [|split; [|split; [|split; [|split]]]]]].
  - intros Hrange. rewrite Hdown, foldl_number_add by exact Hrange. lia.
  - intros Hrange. rewrite Hup, foldl_number_add by exact Hrange. lia.
  - exact Htimes.
  - intros Hsafe. rewrite Htimes. apply map_round_double_safe. exact Hsafe.
  - cbn [getSummary avgRequestTimeMs]. rewrite Htimes.
    destruct (timed (recorded calls)); [tauto|]. split; discriminate.
  - intros Hrange q. cbn [getSummary avgRequestTimeMs]. rewrite Htimes.
    rewrite (map_round_double_safe _ (within_range_safe _ _ Hrange)).
    destruct (timed (recorded calls)) as [|x l] eqn:Hl; [discriminate|].
    intros [= <-]. cbn [numerator denominator].
    change (foldl number_add (number_add 0 x) l) with (foldl number_add 0%Z (x :: l)).
    rewrite foldl_number_add by exact Hrange. split; [lia | reflexivity].
  - intros Hrange. cbn [getSummary disk_totalBytes].
    rewrite Hdisk, foldl_number_add by exact Hrange. lia.
  - vm_compute. reflexivity.
Qed.

Lemma collector_totals_witness :
  totalBytesDownloaded (after example_calls) = 512%Z /\
  requestTimes (after example_calls) = [250%Z].
Proof.
  split.
  - apply (proj1 (collector_totals example_calls)). reflexivity.
  - apply (proj1 (proj2 (proj2 (proj2 (collector_totals example_calls))))).
    repeat constructor.
Defined.

Lemma highest_app l l' : highest (l ++ l') = Z.max (highest l) (highest l').
Proof.
  unfold highest. induction l as [|x l IH]; cbn.
  - assert (0 <= foldr Z.max 0 l')%Z; [|lia].
    induction l' as [|y l' IH']; cbn; lia.
  - rewrite IH. lia.
Qed.

(** X16. After any sequence of calls on a new collector, the maximum
    concurrency is the highest level given to [updateConcurrency], and 0
    when no level is positive; the current concurrency is the last level
    given, 0 when there is none.  The maximum is never below the current
    level. *)
Theorem concurrency_gauge (calls : list call) :
  let m := after calls in
  maxConcurrency m = highest (levels calls) /\
  currentConcurrency m = default 0%Z (last (levels calls)) /\
  (currentConcurrency m <= maxConcurrency m)%Z /\
  (0 <= maxConcurrency m)%Z /\
  concurrency_max (getSummary m) = highest (levels calls).
Proof.
  intros m. unfold m.
  assert (H : maxConcurrency (after calls) = highest (levels calls) /\
              currentConcurrency (after calls) = default 0%Z (last (levels calls)) /\
              (currentConcurrency (after calls) <= maxConcurrency (after calls))%Z /\
              (0 <= maxConcurrency (after calls))%Z).
  { induction calls as [|c calls (Hmax & Hcur & Hle & Hpos)] using rev_ind.
    - cbn. repeat split; lia.
    - rewrite after_snoc. unfold levels in *. rewrite omap_app. cbn [omap list_omap].
      destruct c; cbn [perform maxConcurrency currentConcurrency startCrawl recordRequest
                       recordError recordDiskUsage updateConcurrency finalize];
        rewrite ?app_nil_r; try (repeat split; assumption).
      rewrite highest_app, last_snoc, Hmax. cbn.
      destruct (Z.ltb_spec (highest (omap
        (fun c => match c with UpdateConcurrency current => Some current | _ => None end)
        calls)) current); rewrite <- ?Hmax in *; repeat split; lia. }
  destruct H as (Hmax & Hcur & Hle & Hpos). repeat split; assumption.
Qed.

(** X17. After any sequence of calls on a new collector, [errors] has one
    record for each call of [recordError], in the order of the calls, with
    the error as text, and [requests] one record for each call of
    [recordRequest]: a reported error is not counted as a request and
    changes no status count. *)
Theorem error_reports (calls : list call) :
  let m := after calls in
  errors m = reports calls /\
  requests m = recorded calls /\
  errors_total (getSummary m) = length (reports calls) /\
  errors_details (getSummary m) = reports calls /\
  forall url err now,
    statusCodes (after (calls ++ [RecordError url err now])) = statusCodes m.
Proof.
  intros m. unfold m. cbn [getSummary errors_total errors_details requests_total].
  rewrite errors_after, requests_after.
  repeat split.
  intros url err now. rewrite after_snoc. reflexivity.
Qed.

(** *** A crawl from start to end *)

Lemma in_crawl_frame (m0 : t) (middle : list call) :
  Forall in_crawl middle ->
  let m := foldl perform m0 middle in
  startTime m = startTime m0 /\ endTime m = endTime m0 /\ startCPU m = startCPU m0 /\
  peakMemory m = foldl Z.max (peakMemory m0) (readings middle) /\
  requests m = requests m0 ++ recorded middle.
Proof.
  induction middle as [|c middle IH] using rev_ind; intros Hall.
  - cbn. rewrite app_nil_r. auto.
  - apply Forall_app in Hall as [Hall Hc]. rewrite Forall_singleton in Hc.
    specialize (IH Hall). cbv zeta in *. rewrite foldl_app. cbn [foldl].
    destruct IH as (Hstart & Hend & Hcpu & Hpeak & Hreq).
    unfold readings, recorded in *. rewrite !omap_app. cbn [omap list_omap].
    destruct c; try contradiction;
      cbn [perform startTime endTime startCPU peakMemory requests recordRequest recordError
           recordDiskUsage updateConcurrency];
      rewrite ?app_nil_r; auto.
    rewrite foldl_app. cbn [foldl]. rewrite Hpeak, Hreq, app_assoc.
    repeat split; auto.
    destruct (Z.ltb_spec (foldl Z.max (peakMemory m0)
      (omap (fun c => match c with RecordRequest _ mem0 => Some mem0 | _ => None end) middle))
      mem); lia.
Qed.

(** X18. A crawl that starts at [now0], makes any calls but [startCrawl]
    and [finalize], and is finalized at [now1]: the summary has the
    difference of the two times as its duration when neither time is 0, the
    differences of the CPU readings, and as peak memory the highest of the
    reading at the start, the readings of the recorded requests and the
    second reading of [finalize].  A collector that was never finalized has
    no duration and no request rate. *)
Theorem crawl_duration (now0 mem0 : Z) (cpu0 : cpu_reading) (middle : list call)
    (now1 mem1 : Z) (cpu1 : cpu_reading) (mem2 : Z)
    (Hmiddle : Forall in_crawl middle) :
  let s := getSummary (after (StartCrawl now0 mem0 cpu0 :: middle
                                ++ [Finalize now1 mem1 cpu1 mem2])) in
  (now0 <> 0%Z -> now1 <> 0%Z -> durationMs s = Some (now1 - now0)%Z) /\
  (now0 = 0%Z \/ now1 = 0%Z -> durationMs s = None /\ rps s = None) /\
  cpu_userMicros s = (user cpu1 - user cpu0)%Z /\
  cpu_systemMicros s = (system cpu1 - system cpu0)%Z /\
  memory_peakRss s = Z.max (foldl Z.max mem0 (readings middle)) mem2 /\
  requests_total s = length (recorded middle) /\
  (recorded middle = [] -> rps s = None) /\
  durationMs (getSummary (after (StartCrawl now0 mem0 cpu0 :: middle))) = None.
Proof.
  intros s. unfold s, after. cbn [foldl]. rewrite foldl_app. cbn [foldl].
  destruct (in_crawl_frame (perform new (StartCrawl now0 mem0 cpu0)) middle Hmiddle)
    as (Hstart & Hend & Hcpu & Hpeak & Hreq).
  cbv zeta in *. cbn [perform] in *.
  set (m := foldl perform (startCrawl now0 mem0 cpu0 new) middle) in *.
  cbn [startCrawl startTime endTime startCPU peakMemory requests new app] in *.
  cbn [perform finalize getSummary durationMs rps cpu_userMicros cpu_systemMicros
       memory_peakRss requests_total startTime endTime startCPU peakMemory requests
       cpuUserMicros cpuSystemMicros].
  rewrite Hstart, Hend, Hcpu, Hpeak, Hreq.
  repeat split.
  - intros H0 H1. apply Z.eqb_neq in H0, H1. rewrite H0, H1. reflexivity.
  - destruct H as [-> | ->]; [rewrite Z.eqb_refl, orb_true_r | rewrite Z.eqb_refl];
      reflexivity.
  - destruct H as [-> | ->]; [rewrite Z.eqb_refl, orb_true_r | rewrite Z.eqb_refl];
      reflexivity.
  - destruct (Z.ltb_spec (foldl Z.max mem0 (readings middle)) mem2); lia.
  - intros ->. destruct (if ((now1 =? 0)%Z || (now0 =? 0)%Z) then None else _); reflexivity.
Qed.

Lemma crawl_duration_witness :
  let s := getSummary (after (StartCrawl 1000 8000 (Cpu 10 20) :: example_calls
                                ++ [Finalize 1500 8500 (Cpu 45 60) 8700])) in
  (1000 <> 0 -> 1500 <> 0 -> durationMs s = Some (1500 - 1000))%Z /\
  (1000 = 0 \/ 1500 = 0 -> durationMs s = None /\ rps s = None)%Z /\
  cpu_userMicros s = (45 - 10)%Z /\
  cpu_systemMicros s = (60 - 20)%Z /\
  memory_peakRss s = Z.max (foldl Z.max 8000%Z (readings example_calls)) 8700 /\
  requests_total s = length (recorded example_calls) /\
  (recorded example_calls = [] -> rps s = None) /\
  durationMs (getSummary (after (StartCrawl 1000 8000 (Cpu 10 20) :: example_calls))) = None.
Proof.
  apply (crawl_duration 1000 8000 (Cpu 10 20) example_calls 1500 8500 (Cpu 45 60) 8700).
  repeat constructor.
Defined.

End CollectorFacts.

(** ** The command line and the validation of addresses *)

Section Strip.

Lemma filter_map_keys {A B} (key : string) (f : A -> B) (fields : list (string * A)) :
  filter (fun kv => fst kv <> key) (map (fun kv => (fst kv, f (snd kv))) fields)
  = map (fun kv => (fst kv, f (snd kv))) (filter (fun kv => fst kv <> key) fields).
Proof.
  induction fields as [|[k v] fields IH]; [reflexivity|].
  cbn [map]. rewrite !filter_cons. cbn [fst snd].
  destruct (decide (k <> key)); cbn [map fst snd]; rewrite IH; reflexivity.
Qed.

Lemma stripRawJsonLd_obj fields :
  stripRawJsonLd (JObj fields)
  = JObj (filter (fun kv => fst kv <> "rawJsonLd")
                 (map (fun kv => (fst kv, stripRawJsonLd (snd kv))) fields)).
Proof. reflexivity. Qed.

Lemma strip_mentions v : mentions "rawJsonLd" (stripRawJsonLd v) = false.
Proof.
  induction v as [| | | |items IH|fields IH] using json_ind; try reflexivity.
  - cbn [stripRawJsonLd mentions]. induction IH as [|x items Hx _ IHitems]; [reflexivity|].
    cbn [map existsb]. rewrite Hx. exact IHitems.
  - cbn [stripRawJsonLd mentions].
    induction IH as [|[k v] fields Hv _ IHfields]; [reflexivity|].
    cbn [map fst snd]. rewrite filter_cons. cbn [fst].
    destruct (decide (k <> "rawJsonLd")) as [Hk|Hk]; [|exact IHfields].
    cbn [existsb fst snd]. cbn [snd] in Hv. rewrite Hv.
    apply String.eqb_neq in Hk. rewrite Hk. exact IHfields.
Qed.

Lemma strip_unmentioned v : mentions "rawJsonLd" v = false -> stripRawJsonLd v = v.
Proof.
  induction v as [| | | |items IH|fields IH] using json_ind; try reflexivity.
  - cbn [stripRawJsonLd mentions]. intros Hnone. f_equal.
    induction IH as [|x items Hx _ IHitems]; [reflexivity|].
    cbn [existsb] in Hnone. apply orb_false_iff in Hnone as [Hx' Hrest].
    cbn [map]. rewrite Hx by exact Hx'. rewrite IHitems by exact Hrest. reflexivity.
  - cbn [stripRawJsonLd mentions]. intros Hnone. f_equal.
    induction IH as [|[k v] fields Hv _ IHfields]; [reflexivity|].
    cbn [existsb fst snd] in Hnone. apply orb_false_iff in Hnone as [Hkv Hrest].
    apply orb_false_iff in Hkv as [Hk Hv'].
    cbn [map fst snd]. rewrite filter_cons. cbn [fst snd] in *.
    apply String.eqb_neq in Hk.
    destruct (decide (k <> "rawJsonLd")); [|contradiction].
    rewrite Hv by exact Hv'. rewrite IHfields by exact Hrest. reflexivity.
Qed.

Lemma strip_wf v : wf_json v -> wf_json (stripRawJsonLd v).
Proof.
  induction v as [| | | |items IH|fields IH] using json_ind; try (intros; exact I).
  - rewrite wf_json_arr. intros Hwf. cbn [stripRawJsonLd]. apply wf_json_arr.
    induction IH as [|x items Hx _ IHitems]; [constructor|].
    inversion Hwf; subst. cbn [map]. constructor; auto.
  - rewrite wf_json_obj. intros [Hnodup Hwf]. rewrite stripRawJsonLd_obj.
    apply wf_json_obj.
    rewrite (filter_map_keys "rawJsonLd" stripRawJsonLd). split.
    + rewrite map_map. cbn [fst].
      assert (Hsub : sublist (map fst (filter (fun kv => fst kv <> "rawJsonLd") fields))
                             (map fst fields)).
      { apply (fmap_sublist fst), sublist_filter. }
      eapply sublist_NoDup; eassumption.
    + rewrite Forall_map. cbn [snd].
      assert (Hall : Forall (fun kv => wf_json (stripRawJsonLd (snd kv))) fields).
      { clear Hnodup. induction IH as [|kv fields Hkv _ IHfields]; [constructor|].
        inversion Hwf; subst. constructor; auto. }
      rewrite Forall_forall in Hall |- *. intros kv Hkv. apply Hall.
      apply list_elem_of_filter in Hkv as [_ Hkv]. exact Hkv.
Qed.

End Strip.

(** X19. After [stripRawJsonLd] no object of the document, at any depth,
    has a [rawJsonLd] property; a document without one is left as it is, so
    that stripping twice is stripping once; the keys of every object stay
    pairwise distinct. *)
Theorem stripRawJsonLd_removes (v : json) :
  mentions "rawJsonLd" (stripRawJsonLd v) = false /\
  stripRawJsonLd (stripRawJsonLd v) = stripRawJsonLd v /\
  (mentions "rawJsonLd" v = false -> stripRawJsonLd v = v) /\
  (wf_json v -> wf_json (stripRawJsonLd v)).
Proof.
  split; [apply strip_mentions|]. split; [|split].
  - apply strip_unmentioned, strip_mentions.
  - apply strip_unmentioned.
  - apply strip_wf.
Qed.

Lemma stripRawJsonLd_removes_witness :
  stripRawJsonLd article = article /\ wf_json (stripRawJsonLd article).
Proof.
  split.
  - apply (proj1 (proj2 (proj2 (stripRawJsonLd_removes article)))). reflexivity.
  - apply (proj2 (proj2 (proj2 (stripRawJsonLd_removes article)))). apply articles_wf.
Defined.

(** X20. [validateUrl] accepts a value exactly when it is a non-empty
    string that the URL parser accepts and whose protocol, in lower case, is
    [http:], [https:] or [file:]; it then reports that protocol and no
    error, and every rejection has an error message.  A [data:] address is
    never accepted, in whatever case its protocol is written, and gets the
    message of the security rule.  [validateUrls] gives one result for each
    element of an array, in order, and a single rejection for anything that
    is not an array. *)
Theorem validateUrl_accepts (protocol_of : string -> option string) (url : jsval) :
  let r := validateUrl protocol_of url in
  (isValid r = true <->
   exists s p, url = Some (JStr s) /\ s <> "" /\ protocol_of s = Some p /\
               toLowerCase p ∈ allowedProtocols) /\
  (isValid r = true <-> url_error r = None) /\
  (isValid r = true -> exists p, url_protocol r = Some p /\ p ∈ allowedProtocols) /\
  (forall s p, url = Some (JStr s) -> s <> "" -> protocol_of s = Some p ->
     toLowerCase p = "data:" ->
     r = UrlValidation false
           (Some "data: URLs are not supported for security reasons (prevents DoS attacks)")
           (Some "data:")) /\
  (forall items,
     url = Some (JArr items) ->
     length (validateUrls protocol_of url) = length items /\
     forall i u, items !! i = Some u ->
       validateUrls protocol_of url !! i = Some (validateUrl protocol_of (Some u))) /\
  (isArray url = false ->
   exists rejected, validateUrls protocol_of url = [rejected] /\ isValid rejected = false).
Proof.
  intros r. unfold r, validateUrl.
  split; [|split; [|split; [|split; [|split]]]].
  - split.
    + destruct url as [[| | |s| |]|]; try discriminate.
      destruct (String.eqb_spec s "") as [->|Hs]; [discriminate|].
      destruct (protocol_of s) as [p|] eqn:Hp; [|discriminate].
      destruct (String.eqb (toLowerCase p) "data:"); [discriminate|].
      destruct (bool_decide (toLowerCase p ∈ allowedProtocols)) eqn:Hin; [|discriminate].
      intros _. apply bool_decide_eq_true in Hin. eauto 6.
    + intros (s & p & -> & Hs & Hp & Hin). apply String.eqb_neq in Hs.
      rewrite Hs, Hp.
      destruct (String.eqb_spec (toLowerCase p) "data:") as [Hdata|_].
      { rewrite Hdata in Hin. unfold allowedProtocols in Hin.
        rewrite !elem_of_cons, elem_of_nil in Hin.
        destruct Hin as [|[|[|[]]]]; discriminate. }
      rewrite bool_decide_eq_true_2 by exact Hin. reflexivity.
  - destruct url as [[| | |s| |]|]; try (split; discriminate).
    destruct (String.eqb s ""); [split; discriminate|].
    destruct (protocol_of s) as [p|]; [|split; discriminate].
    destruct (String.eqb (toLowerCase p) "data:"); [split; discriminate|].
    destruct (bool_decide (toLowerCase p ∈ allowedProtocols)); split; auto; discriminate.
  - destruct url as [[| | |s| |]|]; try discriminate.
    destruct (String.eqb s ""); [discriminate|].
    destruct (protocol_of s) as [p|]; [|discriminate].
    destruct (String.eqb (toLowerCase p) "data:"); [discriminate|].
    destruct (bool_decide (toLowerCase p ∈ allowedProtocols)) eqn:Hin; [|discriminate].
    intros _. apply bool_decide_eq_true in Hin. eauto.
  - intros s p -> Hs Hp Hdata. apply String.eqb_neq in Hs.
    rewrite Hs, Hp, Hdata. reflexivity.
  - intros items ->. cbn [validateUrls]. split; [apply length_map|].
    intros i u Hu. rewrite list_lookup_fmap, Hu. reflexivity.
  - intros Harr. destruct url as [[| | | |items|]|]; try discriminate;
      eexists; split; reflexivity.
Qed.

Lemma validateUrl_accepts_witness :
  validateUrl example_protocol_of (Some (JStr "data:text/plain,test"))
  = UrlValidation false
      (Some "data: URLs are not supported for security reasons (prevents DoS attacks)")
      (Some "data:").
Proof.
  apply (proj1 (proj2 (proj2 (proj2
           (validateUrl_accepts example_protocol_of (Some (JStr "data:text/plain,test"))))))
         "data:text/plain,test" "data:");
    [reflexivity | discriminate | reflexivity | reflexivity].
Defined.

(** ** The index of modules *)

Section SortBy.
Context {A : Type} (compare : A -> A -> Z).
Hypothesis compare_total : forall a b, (compare a b <= 0 \/ compare b a <= 0)%Z.
Hypothesis compare_trans :
  forall a b c, (compare a b <= 0 -> compare b c <= 0 -> compare a c <= 0)%Z.

Let before (a b : A) : Prop := (compare a b <= 0)%Z.

Lemma insert_by_perm x l : insert_by compare x l ≡ₚ x :: l.
Proof.
  induction l as [|y l IH]; [reflexivity|]. cbn [insert_by].
  destruct (compare x y <=? 0)%Z; [reflexivity|].
  rewrite IH. apply perm_swap.
Qed.

Lemma sort_by_perm l : sort_by compare l ≡ₚ l.
Proof.
  induction l as [|x l IH]; [reflexivity|].
  cbn [sort_by foldr]. rewrite insert_by_perm. constructor. exact IH.
Qed.

Lemma insert_by_sorted x l :
  StronglySorted before l -> StronglySorted before (insert_by compare x l).
Proof.
  induction 1 as [|y l Hsorted IH Hall]; cbn [insert_by].
  - repeat constructor.
  - destruct (Z.leb_spec (compare x y) 0) as [Hle|Hgt].
    + constructor; [constructor; assumption|].
      constructor; [exact Hle|].
      eapply Forall_impl; [exact Hall|]. intros z Hz. unfold before in *.
      eapply compare_trans; eassumption.
    + constructor; [exact IH|].
      rewrite insert_by_perm. constructor; [|exact Hall].
      unfold before. destruct (compare_total x y); lia.
Qed.

Lemma sort_by_sorted l : StronglySorted before (sort_by compare l).
Proof.
  induction l as [|x l IH]; [constructor|]. apply insert_by_sorted. exact IH.
Qed.

Lemma sort_by_unique l l' :
  l ≡ₚ l' ->
  (forall a b, a ∈ l -> b ∈ l -> before a b -> before b a -> a = b) ->
  sort_by compare l = sort_by compare l'.
Proof.
  intros Hperm Hanti.
  apply (StronglySorted_unique_strong before); try apply sort_by_sorted.
  - intros a b Ha Hb. rewrite sort_by_perm in Ha. rewrite sort_by_perm, <- Hperm in Hb.
    apply Hanti; assumption.
  - rewrite !sort_by_perm. exact Hperm.
Qed.

End SortBy.

(** X21. For a comparison of paths that is a total preorder,
    [prepareMerkleIndex] returns the paths in order, the hashes in the
    order of their paths (each path still stands with its own hash), and
    the Merkle root of the hashes in that order.  When no two modules have
    paths that compare equal, the result does not depend on the order in
    which the modules are given. *)
Theorem prepareMerkleIndex_sorted (localeCompare : string -> string -> Z)
    (modules : list module_hash)
    (Htotal : forall a b, (localeCompare a b <= 0 \/ localeCompare b a <= 0)%Z)
    (Htrans : forall a b c,
        (localeCompare a b <= 0 -> localeCompare b c <= 0 -> localeCompare a c <= 0)%Z) :
  let index := prepareMerkleIndex localeCompare modules in
  StronglySorted (fun a b => (localeCompare a b <= 0)%Z) (modulePaths index) /\
  zip (modulePaths index) (hashes index)
  ≡ₚ map (fun m => (m_path m, m_hash m)) modules /\
  index_merkleRoot index = calculateMerkleRoot (hashes index) /\
  (forall modules',
     modules ≡ₚ modules' ->
     (forall a b, a ∈ modules -> b ∈ modules ->
                  (localeCompare (m_path a) (m_path b) <= 0)%Z ->
                  (localeCompare (m_path b) (m_path a) <= 0)%Z -> a = b) ->
     prepareMerkleIndex localeCompare modules' = index).
Proof.
  intros index. unfold index, prepareMerkleIndex.
  cbn [modulePaths hashes index_merkleRoot].
  set (compare := fun a b => localeCompare (m_path a) (m_path b)).
  assert (Htotal' : forall a b, (compare a b <= 0 \/ compare b a <= 0)%Z).
  { intros a b. apply Htotal. }
  assert (Htrans' : forall a b c, (compare a b <= 0 -> compare b c <= 0 -> compare a c <= 0)%Z).
  { intros a b c. apply Htrans. }
  split; [|split; [|split]].
  - pose proof (sort_by_sorted compare Htotal' Htrans' modules) as Hsorted.
    induction Hsorted as [|m l _ IH Hall]; [constructor|].
    cbn [map]. constructor; [exact IH|].
    rewrite Forall_map. exact Hall.
  - transitivity (map (fun m => (m_path m, m_hash m)) (sort_by compare modules)).
    + generalize (sort_by compare modules). intros l.
      induction l as [|m l IH]; [reflexivity|]. cbn. rewrite IH. reflexivity.
    + apply Permutation_map, sort_by_perm.
  - reflexivity.
  - intros modules' Hperm Hanti.
    rewrite (sort_by_unique compare Htotal' Htrans' modules modules' Hperm Hanti).
    reflexivity.
Qed.

Lemma code_unit_compare_le a b : (code_unit_compare a b <= 0)%Z <-> String.le a b.
Proof.
  unfold code_unit_compare. destruct (decide (a = b)) as [->|Hne].
  - split; [reflexivity | lia].
  - destruct (decide (String.le a b)); split; intros; try assumption; try lia; contradiction.
Qed.

Lemma prepareMerkleIndex_sorted_witness :
  prepareMerkleIndex code_unit_compare (reverse example_index)
  = prepareMerkleIndex code_unit_compare example_index.
Proof.
  refine (proj2 (proj2 (proj2 (prepareMerkleIndex_sorted code_unit_compare example_index
                                 _ _))) (reverse example_index) _ _).
  - intros a b. rewrite !code_unit_compare_le. apply (total String.le).
  - intros a b c. rewrite !code_unit_compare_le. apply transitivity.
  - symmetry. apply reverse_Permutation.
  - intros a b Ha Hb. rewrite !code_unit_compare_le. intros Hab Hba.
    assert (Hpath : m_path a = m_path b) by (apply (anti_symm String.le); assumption).
    unfold example_index in Ha, Hb. rewrite !elem_of_cons, elem_of_nil in Ha, Hb.
    destruct Ha as [->|[->|[->|[]]]], Hb as [->|[->|[->|[]]]];
      try reflexivity; discriminate.
Defined.

(** ** The traditional crawler *)

Section Deduplicate.

Lemma deduplicate_from_sublist seen l : sublist (deduplicate_from seen l) l.
Proof.
  revert seen. induction l as [|x l IH]; intros seen; [constructor|].
  cbn [deduplicate_from]. destruct (is_schema x); [|apply sublist_cons, IH].
  case_bool_decide; [apply sublist_cons, IH | apply sublist_skip, IH].
Qed.

Lemma deduplicate_from_schemas seen l :
  Forall (fun x => is_schema x = true) (deduplicate_from seen l).
Proof.
  revert seen. induction l as [|x l IH]; intros seen; [constructor|].
  cbn [deduplicate_from]. destruct (is_schema x) eqn:Hx; [|apply IH].
  case_bool_decide; [apply IH | constructor; [exact Hx | apply IH]].
Qed.

Lemma deduplicate_from_unseen seen l x :
  x ∈ deduplicate_from seen l -> item_text x ∉ seen.
Proof.
  revert seen. induction l as [|y l IH]; intros seen; cbn [deduplicate_from].
  - intros Hx. inversion Hx.
  - destruct (is_schema y); [|apply IH].
    case_bool_decide as Hseen; [apply IH|].
    rewrite elem_of_cons. intros [->|Hx]; [exact Hseen|].
    apply IH in Hx. rewrite not_elem_of_cons in Hx. apply Hx.
Qed.

Lemma deduplicate_from_nodup seen l : NoDup (map item_text (deduplicate_from seen l)).
Proof.
  revert seen. induction l as [|y l IH]; intros seen; cbn [deduplicate_from].
  - constructor.
  - destruct (is_schema y); [|apply IH].
    case_bool_decide as Hseen; [apply IH|].
    cbn [map]. constructor; [|apply IH].
    intros Hin. apply list_elem_of_fmap in Hin as (x & Heq & Hx).
    apply deduplicate_from_unseen in Hx. apply Hx. rewrite Heq. left.
Qed.

Lemma deduplicate_from_covers seen l x :
  x ∈ l -> is_schema x = true ->
  item_text x ∈ seen \/ item_text x ∈ map item_text (deduplicate_from seen l).
Proof.
  revert seen. induction l as [|y l IH]; intros seen Hx Hschema.
  - inversion Hx.
  - cbn [deduplicate_from]. apply elem_of_cons in Hx as [->|Hx].
    + rewrite Hschema. case_bool_decide as Hseen; [left; exact Hseen|].
      right. cbn [map]. left.
    + destruct (is_schema y); [|apply IH; assumption].
      case_bool_decide as Hseen; [apply IH; assumption|].
      destruct (IH (item_text y :: seen) Hx Hschema) as [Hin|Hin].
      * apply elem_of_cons in Hin as [Heq|Hin]; [|left; exact Hin].
        right. cbn [map]. rewrite Heq. left.
      * right. cbn [map]. right. exact Hin.
Qed.

Lemma deduplicate_from_idem seen l :
  deduplicate_from seen (deduplicate_from seen l) = deduplicate_from seen l.
Proof.
  revert seen. induction l as [|y l IH]; intros seen; [reflexivity|].
  cbn [deduplicate_from]. destruct (is_schema y) eqn:Hy; [|apply IH].
  case_bool_decide as Hseen; [apply IH|].
  cbn [deduplicate_from]. rewrite Hy. rewrite bool_decide_eq_false_2 by exact Hseen.
  rewrite IH. reflexivity.
Qed.

End Deduplicate.

(** X22. [deduplicateSchemaData] keeps items of its input in their order;
    every item it keeps is an object that names the schema.org or the Open
    Graph vocabulary in its [@context]; no two kept items have the same
    text under the listed-keys serialization, and every item of the input
    that passes the test has its text among those of the kept ones;
    deduplicating twice is deduplicating once. *)
Theorem deduplicateSchemaData_unique (schemaData : list json) :
  let kept := deduplicateSchemaData schemaData in
  sublist kept schemaData /\
  Forall (fun item => exists fields context,
            item = JObj fields /\ assoc_get "@context" fields = Some context /\
            truthy (Some context) = true /\ names_vocabulary context = true) kept /\
  NoDup (map item_text kept) /\
  (forall item, item ∈ schemaData -> is_schema item = true ->
                item_text item ∈ map item_text kept) /\
  deduplicateSchemaData kept = kept.
Proof.
  intros kept. unfold kept, deduplicateSchemaData.
  split; [apply deduplicate_from_sublist|]. split; [|split; [|split]].
  - eapply Forall_impl; [apply deduplicate_from_schemas|].
    intros item Hitem. unfold is_schema in Hitem.
    apply andb_true_iff in Hitem as [_ Hcontext].
    destruct item as [| | | | |fields]; cbn [get_opt] in Hcontext; try discriminate.
    destruct (assoc_get "@context" fields) as [context|] eqn:Hc; [|discriminate].
    apply andb_true_iff in Hcontext as [Htruthy Hnames].
    exists fields, context. auto.
  - apply deduplicate_from_nodup.
  - intros item Hin Hschema.
    destruct (deduplicate_from_covers [] schemaData item Hin Hschema) as [Hnil|Hkept];
      [inversion Hnil | exact Hkept].
  - apply deduplicate_from_idem.
Qed.

Lemma deduplicateSchemaData_unique_witness :
  item_text (offer "12")
  ∈ map item_text (deduplicateSchemaData [plain_item; offer "10"; offer "12"]).
Proof.
  apply (proj1 (proj2 (proj2 (proj2
           (deduplicateSchemaData_unique [plain_item; offer "10"; offer "12"]))))).
  - right. right. left.
  - reflexivity.
Defined.

Lemma JSON_stringify_listed_obj listed fields :
  JSON_stringify_listed listed (JObj fields)
  = "{" +:+ String.concat ","
              (omap (fun key =>
                       (fun text => quote key +:+ ":" +:+ text)
                       <$> assoc_get key
                             (map (fun kv => (fst kv, JSON_stringify_listed listed (snd kv)))
                                  fields))
                    listed)
        +:+ "}".
Proof. reflexivity. Qed.

Lemma assoc_get_map {A B} (g : A -> B) key (fields : list (string * A)) :
  assoc_get key (map (fun kv => (fst kv, g (snd kv))) fields) = g <$> assoc_get key fields.
Proof.
  induction fields as [|[k v] fields IH]; [reflexivity|].
  cbn [map assoc_get fst snd]. destruct (String.eqb k key); [reflexivity | exact IH].
Qed.

(** Two objects that agree on the listed keys are written alike. *)
Lemma listed_object_text listed nested nested' :
  Forall (fun key => assoc_get key nested = assoc_get key nested') listed ->
  JSON_stringify_listed listed (JObj nested) = JSON_stringify_listed listed (JObj nested').
Proof.
  intros Hall. rewrite !JSON_stringify_listed_obj. do 3 f_equal.
  generalize (JSON_stringify_listed listed). intros g.
  induction Hall as [|key keys Hkey _ IH]; [reflexivity|].
  cbn [omap list_omap]. rewrite !assoc_get_map, Hkey, IH. reflexivity.
Qed.

(** X23. The text by which [deduplicateSchemaData] tells items apart leaves
    out, in nested objects, the properties whose names are not names of
    properties of the item itself.  Two items that differ only in such
    properties of a nested object have the same text, and the second one is
    dropped. *)
Theorem deduplicate_drops_nested_difference (fields : list (string * json)) (k : string)
    (nested nested' : list (string * json))
    (Hschema : is_schema (JObj (fields ++ [(k, JObj nested)])) = true)
    (Hagree : Forall (fun key => assoc_get key nested = assoc_get key nested')
                     (map fst fields ++ [k])) :
  item_text (JObj (fields ++ [(k, JObj nested)]))
  = item_text (JObj (fields ++ [(k, JObj nested')])) /\
  deduplicateSchemaData [JObj (fields ++ [(k, JObj nested)]);
                         JObj (fields ++ [(k, JObj nested')])]
  = [JObj (fields ++ [(k, JObj nested)])].
Proof.
  assert (Htext : item_text (JObj (fields ++ [(k, JObj nested)]))
                  = item_text (JObj (fields ++ [(k, JObj nested')]))).
  { unfold item_text, Object_keys. cbn [Object_entries].
    rewrite !map_app. cbn [map fst].
    set (listed := sort_keys (map fst fields ++ [k])).
    assert (Hlisted : Forall (fun key => assoc_get key nested = assoc_get key nested') listed).
    { rewrite Forall_forall in Hagree |- *. intros key Hkey. apply Hagree.
      unfold listed in Hkey. rewrite sort_keys_perm in Hkey. exact Hkey. }
    rewrite !JSON_stringify_listed_obj, !map_app. cbn [map fst snd].
    rewrite (listed_object_text listed nested nested' Hlisted). reflexivity. }
  split; [exact Htext|].
  unfold deduplicateSchemaData. cbn [deduplicate_from]. rewrite Hschema.
  rewrite bool_decide_eq_false_2 by (intros Hin; inversion Hin).
  destruct (is_schema (JObj (fields ++ [(k, JObj nested')]))); [|reflexivity].
  rewrite bool_decide_eq_true_2; [reflexivity|]. rewrite Htext. left.
Qed.

Lemma deduplicate_drops_nested_difference_witness :
  item_text (offer "10") = item_text (offer "12") /\
  deduplicateSchemaData [offer "10"; offer "12"] = [offer "10"].
Proof.
  apply (deduplicate_drops_nested_difference
           [("@context", JStr "https://schema.org"); ("@type", JStr "Product");
            ("name", JStr "Lamp")]
           "offers" [("@type", JStr "Offer"); ("price", JStr "10")]
                    [("@type", JStr "Offer"); ("price", JStr "12")]).
  - reflexivity.
  - repeat constructor.
Defined.

Lemma without_checksum_key s : has_property "checksum" (without_checksum s) = false.
Proof.
  unfold without_checksum, has_property.
  generalize (match Object_entries s with Ok entries => entries | Throw _ => [] end).
  intros copy. apply bool_decide_eq_false_2. intros [v Hv].
  induction copy as [|[k x] copy IH]; [discriminate|].
  rewrite filter_cons in Hv. cbn [fst] in Hv.
  destruct (decide (k <> "checksum")) as [Hk|Hk]; [|exact (IH Hv)].
  cbn [assoc_get] in Hv. apply String.eqb_neq in Hk. rewrite Hk in Hv. exact (IH Hv).
Qed.

Lemma result_with_checksum_facts (extracted : list json) :
  let schemasOut := map without_checksum (deduplicateSchemaData extracted) in
  let result := result_with_checksum extracted in
  calculateModuleChecksum (JArr schemasOut) = Ok (array_checksum schemasOut) /\
  Forall (fun s => has_property "checksum" s = false) schemasOut /\
  length schemasOut <= length extracted /\
  (schemasOut <> [] ->
   checksum_form (JArr result) = true /\
   forall modPath,
     validate_payload modPath (JArr result)
     = Validation (Some (JArr result))
         (Some (Trust modPath (JStr (array_checksum schemasOut))
                      (array_checksum schemasOut) true))
         (Some (JStr (array_checksum schemasOut))) None) /\
  (forall e bytesDownloaded idx st,
     results (page_task e (Crawled (Some (JArr result)) bytesDownloaded) idx st)
     = array_set (results st) idx
         (Slot success (entry_url e) None None None (Some schemasOut))).
Proof.
  intros schemasOut result. unfold result, result_with_checksum. fold schemasOut.
  set (sum := array_checksum schemasOut).
  assert (Htruthy : truthy (Some (JStr sum)) = true).
  { cbn [truthy]. destruct (String.eqb_spec sum ""); [|reflexivity].
    destruct (sha256_hex_nonempty (array_preimage schemasOut)). assumption. }
  split; [apply calculateModuleChecksum_array|].
  split; [|split; [|split]].
  - unfold schemasOut. rewrite Forall_map. apply Forall_forall.
    intros s _. apply without_checksum_key.
  - unfold schemasOut. rewrite length_map.
    apply sublist_length, deduplicate_from_sublist.
  - intros Hne. split.
    + apply checksum_form_exact. exists schemasOut, (JStr sum). auto.
    + intros modPath. unfold validate_payload.
      rewrite length_app, last_snoc, removelast_last. cbn [length assoc_get].
      destruct (Nat.ltb_spec (length schemasOut + 1) 2) as [Hshort|_].
      { destruct schemasOut; [contradiction | simpl in Hshort; lia]. }
      rewrite String.eqb_refl. cbn [default]. rewrite Htruthy. cbv zeta. fold sum.
      assert (Hvalid : string_equal sum (JStr sum) = true) by (apply string_equal_iff; reflexivity).
      unfold id. rewrite Hvalid. reflexivity.
  - intros e bytesDownloaded idx st. unfold page_task.
    rewrite last_snoc, removelast_last. cbn [get assoc_get].
    rewrite String.eqb_refl, Htruthy. reflexivity.
Qed.

(** X24. [runTraditionalCrawler] on an address that is no [file://] address
    returns an empty [result], no bytes and the details of a failed fetch
    when neither Selenium nor Axios obtains the page; from this empty
    result the page task of the domain benchmark writes a success slot
    without schemas and records a request with status 200, no error.  When
    a page is obtained (from a file, else with Selenium, else with Axios) the
    call returns the byte length of the page, the details that name the
    source, and as [result] the deduplicated schemas, none with a [checksum]
    property of its own, followed by an object whose only property is the
    checksum of these schemas; a [file://] address whose file cannot be read
    makes the call throw.  With at least one schema such a result passes the
    validation of a LangShake module with a valid checksum; and from it the
    page task of the domain benchmark recovers exactly the schemas, also
    when there is none. *)
Theorem traditional_result_checksum (url : string) (sources : page_sources)
    (extracted : list json) :
  let schemasOut := map without_checksum (deduplicateSchemaData extracted) in
  let fetched := schemasOut ++ [JObj [("checksum", JStr (array_checksum schemasOut))]] in
  let crawled := runTraditionalCrawler url sources extracted in
  (String.prefix "file://" url = false ->
   from_selenium sources = None -> from_axios sources = None ->
   crawled = Ok (traditional_object [] 0 "Failed to fetch page.")) /\
  (forall e idx st,
     page_task e (Crawled (Some (JArr [])) 0) idx st
     = Phase (array_set (results st) idx
                (Slot success (entry_url e) None None None (Some [])))
             (recordRequest (entry_url e) 200 (metrics st))) /\
  (String.prefix "file://" url = false ->
   forall bytesDownloaded, from_selenium sources = Some bytesDownloaded ->
   crawled = Ok (traditional_object fetched bytesDownloaded
                   "Used Selenium for dynamic crawling.")) /\
  (String.prefix "file://" url = false ->
   from_selenium sources = None ->
   forall bytesDownloaded, from_axios sources = Some bytesDownloaded ->
   crawled = Ok (traditional_object fetched bytesDownloaded
                   "Used Axios for static crawling.")) /\
  (String.prefix "file://" url = true ->
   (forall bytesDownloaded, from_file sources = Ok bytesDownloaded ->
    crawled = Ok (traditional_object fetched bytesDownloaded "Loaded from local file.")) /\
   (forall e, from_file sources = Throw e -> crawled = Throw e)) /\
  (forall returned,
     crawled = Ok returned ->
     assoc_get "result" returned = Some (JArr []) \/
     assoc_get "result" returned = Some (JArr fetched)) /\
  calculateModuleChecksum (JArr schemasOut) = Ok (array_checksum schemasOut) /\
  Forall (fun s => has_property "checksum" s = false) schemasOut /\
  length schemasOut <= length extracted /\
  (schemasOut <> [] ->
   checksum_form (JArr fetched) = true /\
   forall modPath,
     validate_payload modPath (JArr fetched)
     = Validation (Some (JArr fetched))
         (Some (Trust modPath (JStr (array_checksum schemasOut))
                      (array_checksum schemasOut) true))
         (Some (JStr (array_checksum schemasOut))) None) /\
  (forall e bytesDownloaded idx st,
     results (page_task e (Crawled (Some (JArr fetched)) bytesDownloaded) idx st)
     = array_set (results st) idx
         (Slot success (entry_url e) None None None (Some schemasOut))).
Proof.
  intros schemasOut fetched crawled.
  destruct (result_with_checksum_facts extracted) as (Hsum & Hkeys & Hlen & Hform & Htask).
  change (result_with_checksum extracted) with fetched in Hform, Htask.
  fold schemasOut in Hsum, Hkeys, Hlen, Hform, Htask.
  unfold crawled, runTraditionalCrawler.
  change (result_with_checksum extracted) with fetched.
  split; [|split; [|split; [|split; [|split; [|split; [|split; [|split; [|split; [|split]]]]]]]]].
  - intros -> -> ->. reflexivity.
  - intros e idx st. reflexivity.
  - intros -> bytesDownloaded ->. reflexivity.
  - intros -> -> bytesDownloaded ->. reflexivity.
  - intros ->. split.
    + intros bytesDownloaded ->. reflexivity.
    + intros e ->. reflexivity.
  - intros returned.
    destruct (String.prefix "file://" url).
    + destruct (from_file sources) as [bytes|e]; [|discriminate].
      intros [= <-]. right. reflexivity.
    + destruct (from_selenium sources) as [bytes|].
      * intros [= <-]. right. reflexivity.
      * destruct (from_axios sources) as [bytes|]; intros [= <-]; [right | left]; reflexivity.
  - exact Hsum.
  - exact Hkeys.
  - exact Hlen.
  - exact Hform.
  - exact Htask.
Qed.

Lemma traditional_result_checksum_witness :
  runTraditionalCrawler "https://example.com/lamp" unreachable_page [offer "10"; plain_item]
  = Ok (traditional_object [] 0 "Failed to fetch page.") /\
  checksum_form (JArr (result_with_checksum [offer "10"; plain_item])) = true.
Proof.
  split.
  - apply (proj1 (traditional_result_checksum "https://example.com/lamp" unreachable_page
                    [offer "10"; plain_item])); reflexivity.
  - apply (proj2 (proj2 (proj2 (proj2 (proj2 (proj2 (proj2 (proj2 (proj2
             (traditional_result_checksum "https://example.com/lamp" static_page
                [offer "10"; plain_item])))))))))).
    discriminate.
Defined.

(** X25. [compareBenchmarks] reads a [schema] property that neither crawler
    returns: both entries have an undefined [schema], the traditional entry
    has no [trust], and for the method [both] the reported [schemaMatch] is
    true whatever the two crawlers found; for any other method there is no
    accuracy entry, and for a method that is none of the three the result
    has no entry at all. *)
Theorem compareBenchmarks_schemaMatch (method : string)
    (elapsed elapsed' : Z) (result : list json) (bytesDownloaded : Z) (details : string)
    (modules trust : json) (details' : string) :
  let r := compareBenchmarks method
             (elapsed, traditional_object result bytesDownloaded details)
             (elapsed', langshake_object modules trust details') in
  (method = "both" ->
   accuracy_schemaMatch r = Some true /\
   b_traditional r = Some (BenchmarkEntry elapsed None None (Some (JStr details))) /\
   b_langshake r = Some (BenchmarkEntry elapsed' None (Some trust) (Some (JStr details')))) /\
  (method <> "both" -> accuracy_schemaMatch r = None) /\
  (method <> "both" -> method <> "traditional" -> method <> "langshake" ->
   r = Benchmarks None None None).
Proof.
  intros r. unfold r, compareBenchmarks. split; [|split].
  - intros ->. cbn. auto.
  - intros Hboth. apply String.eqb_neq in Hboth. rewrite Hboth, !orb_false_r.
    destruct (String.eqb method "traditional"), (String.eqb method "langshake"); reflexivity.
  - intros Hboth Htraditional Hlangshake.
    apply String.eqb_neq in Hboth, Htraditional, Hlangshake.
    rewrite Hboth, Htraditional, Hlangshake. reflexivity.
Qed.

Lemma compareBenchmarks_schemaMatch_witness :
  accuracy_schemaMatch
    (compareBenchmarks "both"
       (120%Z, traditional_object [offer "10"] 2048 "Used Axios for static crawling.")
       (15%Z, langshake_object (JArr []) JNull "No modules found in .llm.json."))
  = Some true.
Proof.
  apply (proj1 (proj1 (compareBenchmarks_schemaMatch "both" 120 15 [offer "10"] 2048
                         "Used Axios for static crawling." (JArr []) JNull
                         "No modules found in .llm.json.") eq_refl)).
Defined.

(** ** The traditional method of the command line *)

(** X26. In the traditional method of the command line every entry of
    [traditional] is the object the crawler returned for its page, or an
    object with an error message, in the order of the pages; none of them
    has a [checksum] property, so that no checksum enters the Merkle root:
    the reported [merkleRoot] is the empty string, whatever was crawled. *)
Theorem traditional_mode_root_is_empty (rejects : json -> json -> string)
    (pages : list ((list json * Z * string) + string)) :
  let outcomes :=
    map (fun p => match p with
                  | inl (result, bytesDownloaded, details) =>
                      inl (traditional_object result bytesDownloaded details)
                  | inr message => inr message
                  end) pages in
  let r := traditional_mode rejects outcomes in
  length (fst r) = length pages /\
  (forall i result bytesDownloaded details,
     pages !! i = Some (inl (result, bytesDownloaded, details)) ->
     fst r !! i = Some (traditional_object result bytesDownloaded details)) /\
  (forall i message,
     pages !! i = Some (inr message) -> fst r !! i = Some [("error", JStr message)]) /\
  Forall (fun entry => assoc_get "checksum" entry = None) (fst r) /\
  snd r = Ok (JStr "").
Proof.
  intros outcomes r. unfold r, traditional_mode, outcomes. cbn [fst snd].
  rewrite !map_map.
  split; [apply length_map|]. split; [|split; [|split]].
  - intros i result bytesDownloaded details Hi.
    rewrite list_lookup_fmap, Hi. reflexivity.
  - intros i message Hi. rewrite list_lookup_fmap, Hi. reflexivity.
  - rewrite Forall_map. apply Forall_forall. intros [[[result bytes] details]|message] _;
      reflexivity.
  - replace (filter _ _) with (@nil json); [reflexivity|].
    symmetry. induction pages as [|[[[result bytes] details]|message] pages IH];
      [reflexivity| |]; cbn [map]; rewrite filter_cons; cbn; exact IH.
Qed.

Lemma traditional_mode_root_is_empty_witness :
  fst (traditional_mode (fun _ _ => "")
         [inl (traditional_object (result_with_checksum [offer "10"]) 2048
                                  "Used Axios for static crawling.");
          inr "Failed to fetch page."]) !! 1
  = Some [("error", JStr "Failed to fetch page.")].
Proof.
  apply (proj1 (proj2 (proj2
           (traditional_mode_root_is_empty (fun _ _ => "")
              [inl (result_with_checksum [offer "10"], 2048%Z,
                    "Used Axios for static crawling.");
               inr "Failed to fetch page."]))) 1 "Failed to fetch page.").
  reflexivity.
Defined.

(** ** Retrying in general *)

Lemma retry_loop_general net req delayMs remaining : forall attempt,
  let log := fst (retry_loop net req delayMs attempt remaining) in
  let r := snd (retry_loop net req delayMs attempt remaining) in
  Forall (fun ev => ev = Get req \/ ev = Delay delayMs) log /\
  attempts log = S (delays log) /\
  attempts log <= S remaining /\
  (forall k statusCode data,
     attempt <= k <= attempt + remaining ->
     (k = attempt \/ all_fail net attempt (k - 1)) ->
     net k = Response statusCode data ->
     r = Ok (statusCode, data) /\ attempts log = S (k - attempt)) /\
  (all_fail net attempt (attempt + remaining) ->
   exists message, net (attempt + remaining) = Failure message /\
                   r = Throw (NetworkError message) /\ attempts log = S remaining).
Proof.
  induction remaining as [|remaining IH]; intros attempt; cbn [retry_loop].
  - destruct (net attempt) as [statusCode data|message] eqn:Hnet; cbn [fst snd].
    + split; [repeat constructor; auto|]. split; [reflexivity|]. split; [cbn; lia|]. split.
      * intros k st d Hk _ Hanswer. assert (k = attempt) as -> by lia.
        rewrite Hnet in Hanswer. injection Hanswer as <- <-. split; [reflexivity|].
        cbn. lia.
      * intros Hfail. destruct (Hfail attempt ltac:(lia)) as [m Hm]. congruence.
    + split; [repeat constructor; auto|]. split; [reflexivity|]. split; [cbn; lia|]. split.
      * intros k st d Hk _ Hanswer. assert (k = attempt) as -> by lia. congruence.
      * intros _. exists message. rewrite Nat.add_0_r. auto.
  - destruct (net attempt) as [statusCode data|message] eqn:Hnet.
    + cbn [fst snd].
      split; [repeat constructor; auto|]. split; [reflexivity|]. split; [cbn; lia|]. split.
      * intros k st d Hk Hbefore Hanswer.
        destruct (decide (k = attempt)) as [->|Hne].
        -- rewrite Hnet in Hanswer. injection Hanswer as <- <-.
           split; [reflexivity|]. cbn. lia.
        -- destruct Hbefore as [->|Hfail]; [contradiction|].
           destruct (Hfail attempt ltac:(lia)) as [m Hm]. congruence.
      * intros Hfail. destruct (Hfail attempt ltac:(lia)) as [m Hm]. congruence.
    + specialize (IH (S attempt)). cbv zeta in IH.
      destruct (retry_loop net req delayMs (S attempt) remaining) as [log r].
      cbn [fst snd] in *.
      destruct IH as (Hall & Hcount & Hle & Hanswered & Hfailed).
      split.
      { constructor; [left; reflexivity|]. constructor; [right; reflexivity | exact Hall]. }
      split; [cbn; lia|]. split; [cbn; lia|].
      split.
      * intros k st d Hk Hbefore Hanswer.
        assert (Hk' : k <> attempt) by congruence.
        destruct (Hanswered k st d ltac:(lia)) as [-> Hn]; try exact Hanswer.
        { destruct Hbefore as [->|Hfail]; [contradiction|].
          destruct (decide (k = S attempt)) as [->|Hlater]; [left; reflexivity|].
          right. intros j Hj. apply Hfail. lia. }
        split; [reflexivity|]. cbn. lia.
      * intros Hfail.
        destruct Hfailed as (m & Hm & -> & Hn).
        { intros j Hj. apply Hfail. lia. }
        exists m. replace (attempt + S remaining) with (S attempt + remaining) by lia.
        split; [exact Hm|]. split; [reflexivity|]. cbn. lia.
Qed.

(** X27. [axiosGetWithRetry] with any number of retries and any delay: with
    no retry allowed it makes no request and resolves to [undefined];
    otherwise it makes at most [retries] requests, all with the same
    configuration, with one delay of [delayMs] between two requests; it
    resolves to the first answer, after as many requests as the attempt
    that was answered, and when every attempt fails it throws the failure
    of the last one after [retries] requests. *)
Theorem axiosGetWithRetry_general (net : nat -> response) (url : string) (opts : options)
    (retries : nat) (delayMs : N) :
  let log := fst (axiosGetWithRetry net url opts retries delayMs) in
  let r := snd (axiosGetWithRetry net url opts retries delayMs) in
  (retries = 0 -> log = [] /\ r = Ok None) /\
  Forall (fun ev => ev = Get (retry_request url opts) \/ ev = Delay delayMs) log /\
  attempts log <= retries /\
  (0 < retries -> attempts log = S (delays log)) /\
  (forall k statusCode data,
     1 <= k <= retries -> all_fail net 1 (k - 1) ->
     net k = Response statusCode data ->
     r = Ok (Some (statusCode, data)) /\ attempts log = k) /\
  (0 < retries -> all_fail net 1 retries ->
   exists message, net retries = Failure message /\
                   r = Throw (NetworkError message) /\ attempts log = retries).
Proof.
  intros log r. unfold log, r, axiosGetWithRetry.
  destruct retries as [|n].
  - cbn [fst snd]. split; [auto|]. split; [constructor|]. split; [cbn; lia|].
    split; [lia|]. split; [intros; lia | intros; lia].
  - pose proof (retry_loop_general net (retry_request url opts) delayMs n 1) as Hloop.
    cbv zeta in Hloop.
    destruct (retry_loop net (retry_request url opts) delayMs 1 n) as [lg res].
    cbn [fst snd] in *. destruct Hloop as (Hall & Hcount & Hle & Hanswered & Hfailed).
    split; [discriminate|]. split; [exact Hall|]. split; [lia|]. split; [auto|].
    split.
    + intros k st d Hk Hfail Hanswer.
      destruct (Hanswered k st d ltac:(lia) (or_intror Hfail) Hanswer) as [-> Hn].
      split; [reflexivity | lia].
    + intros _ Hfail. destruct Hfailed as (m & Hm & -> & Hn).
      { intros j Hj. apply Hfail. lia. }
      exists m. auto.
Qed.

Lemma axiosGetWithRetry_general_witness :
  snd (axiosGetWithRetry (manifest_reply site) example_llm_url no_options 5 250)
  = Ok (Some (200, manifest_of ["/langshake/article.json"; "/langshake/bad.json"]
                               "irrelevant")) /\
  attempts (fst (axiosGetWithRetry (manifest_reply site) example_llm_url no_options 5 250)) = 2.
Proof.
  apply (proj1 (proj2 (proj2 (proj2 (proj2
           (axiosGetWithRetry_general (manifest_reply site) example_llm_url no_options
                                      5 250))))) 2 200); [lia | | reflexivity].
  intros j Hj. assert (j = 1) as -> by lia. eexists. reflexivity.
Defined.

(** ** The order in which tasks complete *)

(** X28. Two runs of the domain benchmark against the same answers, in
    which the module tasks and the page tasks complete in different orders,
    make the same requests and crawls and return the same pages and the
    same summary (or the same error): only the metrics can differ. *)
Theorem benchmark_independent_of_completion_order (W : World) (S S' : Schedule)
    (HfairL : fair (langshake_order S)) (HfairT : fair (traditional_order S))
    (HfairL' : fair (langshake_order S')) (HfairT' : fair (traditional_order S')) :
  fst (runDomainBenchmark W S) = fst (runDomainBenchmark W S') /\
  same_findings (snd (runDomainBenchmark W S)) (snd (runDomainBenchmark W S')).
Proof.
  unfold runDomainBenchmark.
  destruct (resolve W (JStr llm_path)) as [llmUrl|]; [|split; reflexivity].
  destruct (manifest_first W) as [statusCode llmJson|message]; [|split; reflexivity].
  destruct (get llmJson "modules") as [[[| | | |[|path paths]|]|]|e];
    try (split; reflexivity).
  destruct (manifest_second W) as [statusCode' llmJson'|message] eqn:Hsecond.
  2: { unfold run_phases. rewrite Hsecond. split; reflexivity. }
  destruct (get llmJson' "modules") as [modules|e] eqn:Hmodules.
  2: { unfold run_phases. rewrite Hsecond, Hmodules. split; reflexivity. }
  destruct (run_phases_completes W S HfairL HfairT llmUrl (declared_root llmJson)
              statusCode' llmJson' modules Hsecond Hmodules) as [mT ->].
  destruct (run_phases_completes W S' HfairL' HfairT' llmUrl (declared_root llmJson)
              statusCode' llmJson' modules Hsecond Hmodules) as [mT' ->].
  split; [reflexivity|]. split; reflexivity.
Qed.

Lemma benchmark_independent_of_completion_order_witness :
  fst (runDomainBenchmark one_failure_world in_order)
  = fst (runDomainBenchmark one_failure_world last_first) /\
  same_findings (snd (runDomainBenchmark one_failure_world in_order))
                (snd (runDomainBenchmark one_failure_world last_first)).
Proof.
  apply benchmark_independent_of_completion_order;
    first [apply in_order_fair | apply last_first_fair].
Defined.

(** ** The metrics of the LangShake phase *)

Section PhaseMetrics.
Variables (W : World) (S : Schedule).
Hypothesis fair_langshake : fair (langshake_order S).

Lemma module_errors_length modUrl answer :
  length (module_errors modUrl answer)
  = if decide (status (module_slot modUrl answer) = error) then 1 else 0.
Proof.
  unfold module_errors, module_slot.
  destruct answer as [statusCode [| | | |items|fields]|message]; try reflexivity.
  - destruct (process_module modUrl (JArr items)) as [r|e] eqn:Hprocess; [|reflexivity].
    unfold process_module in Hprocess.
    apply bind_Ok in Hprocess as (reading & _ & Hprocess).
    apply bind_Ok in Hprocess as ([|] & _ & Hprocess); [|discriminate].
    injection Hprocess as <-. reflexivity.
  - destruct (process_module modUrl (JObj fields)) as [r|e] eqn:Hprocess; [|reflexivity].
    unfold process_module in Hprocess.
    apply bind_Ok in Hprocess as (reading & _ & Hprocess).
    apply bind_Ok in Hprocess as ([|] & _ & Hprocess); [|discriminate].
    injection Hprocess as <-. reflexivity.
Qed.

Lemma langshake_phase_requests llmUrl statusCode llmJson moduleUrls :
  requests (metrics (langshake_phase W (langshake_order S) llmUrl statusCode llmJson
                                     moduleUrls))
  ≡ₚ (JStr llmUrl, statusCode)
     :: concat (map (fun i => module_requests (module_url_at moduleUrls i)
                                              (module_answer W i))
                    (seq 0 (length moduleUrls))).
Proof.
  unfold langshake_phase, langshake_tasks.
  rewrite (tasks_requests 1 (length moduleUrls) _ _ _ _
             (fun st idx => langshake_task_settles W moduleUrls st idx)) by auto.
  reflexivity.
Qed.

End PhaseMetrics.

(** X29. In the LangShake phase of the domain benchmark, whatever the order
    in which the module tasks complete, the collector has one error record
    for each module slot marked [error] and none for the others, and one
    request record for the manifest and for each module whose request was
    answered, with the status of the answer. *)
Theorem langshake_metrics_match_slots (W : World) (S : Schedule)
    (llmUrl : string) (statusCode : nat) (llmJson : json) (moduleUrls : list string)
    (Hfair : fair (langshake_order S)) :
  let done := langshake_phase W (langshake_order S) llmUrl statusCode llmJson moduleUrls in
  length (errors (metrics done)) = count_status error (drop 1 (results done)) /\
  errors (metrics done)
  ≡ₚ concat (map (fun i => module_errors (module_url_at moduleUrls i) (module_answer W i))
                 (seq 0 (length moduleUrls))) /\
  requests (metrics done)
  ≡ₚ (JStr llmUrl, statusCode)
     :: concat (map (fun i => module_requests (module_url_at moduleUrls i)
                                              (module_answer W i))
                    (seq 0 (length moduleUrls))) /\
  length (requests (metrics done))
  = 1 + length (filter (fun i => answered (module_answer W i) = true)
                       (seq 0 (length moduleUrls))).
Proof.
  intros done. unfold done.
  pose proof (langshake_phase_errors W S Hfair llmUrl statusCode llmJson moduleUrls) as Herrors.
  pose proof (langshake_phase_requests W S Hfair llmUrl statusCode llmJson moduleUrls)
    as Hrequests.
  split; [|split; [exact Herrors|split; [exact Hrequests|]]].
  - rewrite Herrors, (langshake_phase_results W S Hfair).
    change (drop 1 ([?x] ++ ?l)) with l.
    rewrite (count_status_map error (module_slot_at W moduleUrls)).
    generalize (seq 0 (length moduleUrls)). intros l.
    induction l as [|i l IH]; [reflexivity|].
    cbn [map concat]. rewrite length_app, IH, filter_cons.
    unfold module_slot_at. rewrite module_errors_length.
    destruct (decide (status (module_slot (module_url_at moduleUrls i) (module_answer W i))
                      = error)); reflexivity.
  - rewrite Hrequests. cbn [length]. f_equal.
    generalize (seq 0 (length moduleUrls)). intros l.
    induction l as [|i l IH]; [reflexivity|].
    cbn [map concat]. rewrite length_app, IH, filter_cons.
    destruct (module_answer W i) as [st d|m]; cbn [module_requests length answered].
    + rewrite decide_True by reflexivity. reflexivity.
    + rewrite decide_False by discriminate. reflexivity.
Qed.

Lemma langshake_metrics_match_slots_witness :
  let done := langshake_phase one_failure_world (langshake_order last_first)
                example_llm_url 200 (manifest_of three_paths "irrelevant") three_urls in
  length (errors (metrics done)) = count_status error (drop 1 (results done)).
Proof.
  apply (langshake_metrics_match_slots one_failure_world last_first example_llm_url 200
           (manifest_of three_paths "irrelevant") three_urls).
  apply last_first_fair.
Defined.
